(** * compare_app.py: column matching, positional comparison, text differencing

    A shallow embedding of the reconciliation engine of [compare_app.py]:
    [match_columns], [compare_dataframes_smart], the spreadsheet text
    flattening, the CSV export of the mismatch report and the text
    differencing of [make_html_diff], together with the properties of the
    specification that concern them.  The calls into pandas, [csv] and
    [difflib] are embedded with the code: a frame is a list of labelled
    columns with the default index, the report is also read as a frame with
    the index labels that its rows keep, a string is a sequence of code
    points below 256. *)

From Stdlib Require Import ZArith Strings.Byte Ascii String List Lia.
From stdpp Require Import base decidable countable list strings pretty gmap sorting.

Local Open Scope string_scope.
Local Open Scope list_scope.

(** ** Errors

    The Python exceptions the modelled code can raise. *)

Inductive exn :=
  | AttributeError   (* [c.lower()] on a label that is not a [str] *)
  | KeyError         (* [df[c]] for a label that is not a column *)
  | TypeError        (* [str.join] over an item that is not a [str] *)
  | DuplicateLabel.  (* [df[c]] selects several columns: a sub-frame, not a Series *)

Inductive result (A : Type) :=
  | Ok (a : A)
  | Raise (e : exn).

Arguments Ok {A} a.
Arguments Raise {A} e.

#[global] Instance result_ret : MRet result := fun _ a => Ok a.

#[global] Instance result_bind : MBind result := fun _ _ k r =>
  match r with
  | Ok a => k a
  | Raise e => Raise e
  end.

(** ** Data model *)

(** A column label.  pandas labels are arbitrary hashable values: the
    spreadsheet reader gives strings (or numbers for numeric headers), and
    [pd.DataFrame(t)] at line 18 of the source labels the columns of a
    single-row table [0, 1, ...]. *)
Inductive label :=
  | LStr (s : string)
  | LInt (z : Z).

(** A cell: the closed variant of scalars of the data model, with the two
    forms an absent value takes in pandas ([None] in object columns coming
    from the table extractor, [NaN] from the spreadsheet reader and from
    [pd.concat]). *)
Inductive cell :=
  | CStr (s : string)
  | CInt (z : Z)
  | CBool (b : bool)
  | CNone
  | CNaN.

#[global] Instance label_eq_dec : EqDecision label.
Proof. solve_decision. Defined.

#[global] Instance cell_eq_dec : EqDecision cell.
Proof. solve_decision. Defined.

Definition label_to_sum (l : label) : string + Z :=
  match l with LStr s => inl s | LInt z => inr z end.

Definition label_of_sum (x : string + Z) : label :=
  match x with inl s => LStr s | inr z => LInt z end.

#[global] Instance label_countable : Countable label.
Proof.
  apply (inj_countable' label_to_sum label_of_sum).
  intros []; reflexivity.
Defined.

(** A Series with the default [RangeIndex]: position [i] holds row [i]. *)
Abbreviation Series := (list cell) (only parsing).

(** A DataFrame, column by column, in column order.  Both callers build
    frames with a [RangeIndex] ([pd.read_excel], and [pd.concat] with
    [ignore_index=True]). *)
Abbreviation DataFrame := (list (label * list cell)) (only parsing).

Definition columns (df : DataFrame) : list label := df.*1.

(** ** [str.lower]

    A string is a sequence of code points below 256; on these [str.lower]
    maps [A-Z] and the Latin-1 capitals [U+00C0 .. U+00DE] other than the
    multiplication sign [U+00D7] to the code point 32 above. *)
Definition lower_ascii (c : ascii) : ascii :=
  let n := nat_of_ascii c in
  if ((65 <=? n) && (n <=? 90))%nat then ascii_of_nat (n + 32)
  else if ((192 <=? n) && (n <=? 222) && negb (n =? 215))%nat
       then ascii_of_nat (n + 32)
       else c.

Fixpoint lower (s : string) : string :=
  match s with
  | EmptyString => EmptyString
  | String c r => String (lower_ascii c) (lower r)
  end.

(** ** [match_columns] *)

(** [{c.lower(): c for c in cols}]: a later column overwrites an earlier
    one with the same lower-cased name; a label without [.lower] raises. *)
Fixpoint cols_lower_from (acc : gmap string label) (cols : list label)
  : result (gmap string label) :=
  match cols with
  | [] => Ok acc
  | LStr s :: rest => cols_lower_from (<[lower s := LStr s]> acc) rest
  | LInt _ :: _ => Raise AttributeError
  end.

Definition cols_lower (cols : list label) : result (gmap string label) :=
  cols_lower_from ∅ cols.

(** An insertion-ordered [dict] with labels as keys: assigning to a key
    that is present keeps its position. *)
Fixpoint dict_set (k v : label) (d : list (label * label)) : list (label * label) :=
  match d with
  | [] => [(k, v)]
  | (k', v') :: rest =>
      if decide (k' = k) then (k, v) :: rest else (k', v') :: dict_set k v rest
  end.

(** [d[c]] on the lower-cased dictionaries. *)
Definition dict_get (d : gmap string label) (c : string) : result label :=
  match d !! c with
  | Some l => Ok l
  | None => Raise KeyError
  end.

(** [{df1_cols_lower[c]: df2_cols_lower[c] for c in shared_cols_lower}],
    over the keys in the iteration order of the set. *)
Fixpoint pair_up (d1 d2 : gmap string label) (keys : list string)
    (acc : list (label * label)) : result (list (label * label)) :=
  match keys with
  | [] => Ok acc
  | c :: rest =>
      a ← dict_get d1 c;
      b ← dict_get d2 c;
      pair_up d1 d2 rest (dict_set a b acc)
  end.

(** What [match_columns] returns: a [set] of labels from the exact pass,
    or a [dict] from the case-insensitive pass. *)
Inductive shared :=
  | SharedSet (s : gset label)
  | SharedDict (d : list (label * label)).

Definition match_columns (df1 df2 : DataFrame) : result shared :=
  let shared_cols : gset label :=
    list_to_set (columns df1) ∩ list_to_set (columns df2) in
  if decide (shared_cols = ∅) then
    df1_cols_lower ← cols_lower (columns df1);
    df2_cols_lower ← cols_lower (columns df2);
    let shared_cols_lower : gset string :=
      dom df1_cols_lower ∩ dom df2_cols_lower in
    d ← pair_up df1_cols_lower df2_cols_lower (elements shared_cols_lower) [];
    Ok (SharedDict d)
  else Ok (SharedSet shared_cols).

(** ** Normalisation: [astype(str)], [fillna], [reindex] *)

(** Python's [str] of a scalar.  An absent value has a string form of its
    own: [str(None)] is ["None"] and [str(float("nan"))] is ["nan"]. *)
Definition str (c : cell) : string :=
  match c with
  | CStr s => s
  | CInt z => pretty z
  | CBool true => "True"
  | CBool false => "False"
  | CNone => "None"
  | CNaN => "nan"
  end.

(** [Series.astype(str)]: every element, absent ones included, is replaced
    by its [str] (pandas before 3.0, where [str] is the object dtype of
    Python strings). *)
Definition astype_str (s : Series) : Series := (fun c => CStr (str c)) <$> s.

Definition isna (c : cell) : bool :=
  match c with
  | CNone | CNaN => true
  | _ => false
  end.

(** [Series.fillna(v)]: the absent elements become [v]. *)
Definition fillna (v : string) (s : Series) : Series :=
  (fun c => if isna c then CStr v else c) <$> s.

(** [Series.reindex(range(n), fill_value=fill)] on a [RangeIndex]: label
    [i] keeps its value when the Series has it and gets [fill] otherwise. *)
Definition reindex (n : nat) (fill : cell) (s : Series) : Series :=
  (fun i => default fill (s !! i)) <$> seq 0 n.

(** Lines 37-38: the normalisation of one selected column. *)
Definition normalize (s : Series) : Series := fillna "" (astype_str s).

(** ** Elementwise [!=] *)

Definition cell_num (c : cell) : option Z :=
  match c with
  | CInt z => Some z
  | CBool b => Some (if b then 1 else 0)%Z
  | _ => None
  end.

(** [a != b] as pandas evaluates it on two elements: an absent element
    differs from everything; strings compare as strings, numbers and
    booleans by value. *)
Definition cell_ne (a b : cell) : bool :=
  if isna a || isna b then true
  else match a, b with
       | CStr x, CStr y => negb (bool_decide (x = y))
       | _, _ =>
           match cell_num a, cell_num b with
           | Some x, Some y => negb (Z.eqb x y)
           | _, _ => true
           end
       end.

(** ** The mismatch report *)

(** One row of the report: its index label and the three columns, in the
    order in which the frame gets them ([Excel] and [PDF] at line 42,
    [Column] at line 44). *)
Record mismatch := Mismatch {
  idx : nat;
  Excel : cell;
  PDF : cell;
  Column : label
}.

#[global] Instance mismatch_eq_dec : EqDecision mismatch.
Proof. solve_decision. Defined.

(** The rows of [pd.DataFrame({"Excel": s1, "PDF": s2}).loc[s1 != s2]],
    counted from index [i]. *)
Fixpoint loc_ne (i : nat) (s1 s2 : Series) : list (nat * cell * cell) :=
  match s1, s2 with
  | a :: r1, b :: r2 =>
      if cell_ne a b then (i, a, b) :: loc_ne (S i) r1 r2
      else loc_ne (S i) r1 r2
  | _, _ => []
  end.

(** Lines 39-41: both normalised columns brought to the longer length. *)
Definition align (s1 s2 : Series) : Series * Series :=
  let max_len := max (length s1) (length s2) in
  (reindex max_len (CStr "") s1, reindex max_len (CStr "") s2).

(** Lines 37-44, from the two selected columns to the frame that is
    appended to [diffs] (when it is not empty). *)
Definition column_mismatches (col_excel : label) (c1 c2 : Series) : list mismatch :=
  let '(s1, s2) := align (normalize c1) (normalize c2) in
  (fun '(i, a, b) => Mismatch i a b col_excel) <$> loc_ne 0 s1 s2.

(** [df[c]]. *)
Definition getitem (df : DataFrame) (c : label) : result Series :=
  match filter (fun col => col.1 = c) df with
  | [] => Raise KeyError
  | [col] => Ok col.2
  | _ => Raise DuplicateLabel
  end.

(** The pairs the loop of line 36 runs over: the items of the [dict], or
    the [set] zipped with itself. *)
Definition column_pairs (sc : shared) : list (label * label) :=
  match sc with
  | SharedDict d => d
  | SharedSet s => zip (elements s) (elements s)
  end.

Fixpoint compare_loop (df_excel df_pdf : DataFrame) (pairs : list (label * label))
    (diffs : list (list mismatch)) : result (list (list mismatch)) :=
  match pairs with
  | [] => Ok diffs
  | (col_excel, col_pdf) :: rest =>
      c1 ← getitem df_excel col_excel;
      c2 ← getitem df_pdf col_pdf;
      let mismatches := column_mismatches col_excel c1 c2 in
      compare_loop df_excel df_pdf rest
        (match mismatches with
         | [] => diffs
         | _ => diffs ++ [mismatches]
         end)
  end.

(** The report is a frame; the frame without rows or columns that
    [pd.DataFrame()] builds is the empty list. *)
Definition compare_dataframes_smart (df_excel df_pdf : DataFrame)
  : result (list mismatch) :=
  shared_cols ← match_columns df_excel df_pdf;
  diffs ← compare_loop df_excel df_pdf (column_pairs shared_cols) [];
  Ok (match diffs with
      | [] => []
      | _ => concat diffs
      end).

(** ** Spreadsheet text flattening (line 81) *)

Definition newline : string := String (ascii_of_nat 10) EmptyString.

(** The number of rows of a frame (all columns have it). *)
Definition nrows (df : DataFrame) : nat :=
  match df with
  | [] => 0
  | (_, s) :: _ => length s
  end.

(** [df.astype(str).fillna("")], column by column. *)
Definition normalize_frame (df : DataFrame) : DataFrame :=
  (fun col => (col.1, normalize col.2)) <$> df.

(** [df.values.flatten()]: the cells in row-major order. *)
Definition values_flatten (df : DataFrame) : list cell :=
  i ← seq 0 (nrows df); (fun col => default CNaN (col.2 !! i)) <$> df.

(** [sep.join(items)]: every item has to be a [str]. *)
Fixpoint join (sep : string) (items : list cell) : result string :=
  match items with
  | [] => Ok ""
  | [CStr s] => Ok s
  | CStr s :: rest => r ← join sep rest; Ok (s +:+ sep +:+ r)
  | _ :: _ => Raise TypeError
  end.

Definition excel_text (excel_data : DataFrame) : result string :=
  join newline (values_flatten (normalize_frame excel_data)).

(** ** The report as a frame (lines 37-46)

    The records above are the rows of the report.  The display and the
    export read the report as the frame that the code builds: its column
    labels, in their order, and the index labels that its rows keep.  The
    same lines follow with that frame. *)

Record IndexedFrame := IFrame {
  index : list nat;
  data : DataFrame
}.

(** [pd.DataFrame(d)] for a [dict] of series of one length with the index
    [0, 1, ...], as lines 40 and 41 leave them: the columns in the order of
    the [dict], the index of the series. *)
Definition frame_of_dict (d : list (label * Series)) : IndexedFrame :=
  IFrame (seq 0 (nrows d)) d.

(** The items of a list at which the mask holds. *)
Fixpoint select {A : Type} (mask : list bool) (l : list A) : list A :=
  match mask, l with
  | b :: mask, x :: l => if b then x :: select mask l else select mask l
  | _, _ => []
  end.

(** [s1 != s2], item by item. *)
Definition ne (s1 s2 : Series) : list bool := zip_with cell_ne s1 s2.

(** [df.loc[mask]]: the rows at which the mask holds, with their index
    labels. *)
Definition loc (df : IndexedFrame) (mask : list bool) : IndexedFrame :=
  IFrame (select mask (index df)) ((fun col => (col.1, select mask col.2)) <$> data df).

(** [df.empty]: no row, or no column. *)
Definition frame_empty (df : IndexedFrame) : bool :=
  bool_decide (index df = [] \/ data df = []).

(** A label as the value of a cell. *)
Definition cell_of_label (l : label) : cell :=
  match l with
  | LStr s => CStr s
  | LInt z => CInt z
  end.

(** [df[c] = v] for a scalar [v]: every row gets [v] in the column [c]; a
    column that is new comes last. *)
Definition setitem (df : IndexedFrame) (c : label) (v : cell) : IndexedFrame :=
  let col := replicate (length (index df)) v in
  IFrame (index df)
    (if bool_decide (c ∈ columns (data df))
     then (fun old => if decide (old.1 = c) then (c, col) else old) <$> data df
     else data df ++ [(c, col)]).

(** Lines 37-42: the frame of the rows of one column pair at which the
    two normalised columns differ. *)
Definition mismatches_frame (c1 c2 : Series) : IndexedFrame :=
  let '(s1, s2) := align (normalize c1) (normalize c2) in
  loc (frame_of_dict [(LStr "Excel", s1); (LStr "PDF", s2)]) (ne s1 s2).

(** The loop of lines 36-45: a frame that is not empty gets the column
    [Column] and is appended. *)
Fixpoint compare_loop_frame (df_excel df_pdf : DataFrame) (pairs : list (label * label))
    (diffs : list IndexedFrame) : result (list IndexedFrame) :=
  match pairs with
  | [] => Ok diffs
  | (col_excel, col_pdf) :: rest =>
      c1 ← getitem df_excel col_excel;
      c2 ← getitem df_pdf col_pdf;
      let mismatches := mismatches_frame c1 c2 in
      compare_loop_frame df_excel df_pdf rest
        (if frame_empty mismatches then diffs
         else diffs ++ [setitem mismatches (LStr "Column") (cell_of_label col_excel)])
  end.

(** The labels of a list, each once, in the order in which they come
    first. *)
Fixpoint unique (l : list label) : list label :=
  match l with
  | [] => []
  | x :: l => x :: filter (fun y => y <> x) (unique l)
  end.

(** The column [c] of a frame; absent cells when the frame has no such
    column. *)
Definition column_or_absent (df : IndexedFrame) (c : label) : Series :=
  match filter (fun col : label * Series => col.1 = c) (data df) with
  | col :: _ => col.2
  | [] => replicate (length (index df)) CNaN
  end.

(** [pd.concat(frames)]: the rows of the frames one after the other, with
    the index labels that they have; the columns of all the frames, in the
    order in which they come first. *)
Definition pd_concat (frames : list IndexedFrame) : IndexedFrame :=
  let labels := unique (frames ≫= fun df => columns (data df)) in
  IFrame (frames ≫= index)
         ((fun c => (c, frames ≫= fun df => column_or_absent df c)) <$> labels).

(** [compare_dataframes_smart] with the report as a frame;
    [pd.DataFrame()] has no row and no column. *)
Definition compare_dataframes_smart_frame (df_excel df_pdf : DataFrame)
  : result IndexedFrame :=
  shared_cols ← match_columns df_excel df_pdf;
  diffs ← compare_loop_frame df_excel df_pdf (column_pairs shared_cols) [];
  Ok (match diffs with
      | [] => IFrame [] []
      | _ => pd_concat diffs
      end).

(** ** The coloured display (lines 54-62 and 94) *)

(** Lines 56-61: the styles of a row, one for every column of the frame. *)
Definition highlight (df : IndexedFrame) : list string :=
  (fun col => if decide (col = LStr "Excel") then "background-color: #f8d7da"
              else if decide (col = LStr "PDF") then "background-color: #d4edda"
              else EmptyString) <$> columns (data df).

(** [df.style.apply(highlight, axis=1)] as [st.dataframe] renders it at
    line 94: [highlight] is called on every row; the [Styler] raises
    [KeyError] on a frame whose index labels, or column labels, are not
    unique. *)
Definition color_data_diff (df : IndexedFrame) : result (list (list string)) :=
  if decide (NoDup (index df) /\ NoDup (columns (data df)))
  then Ok ((fun _ => highlight df) <$> index df)
  else Raise KeyError.

(** ** CSV export (lines 93-96) *)

Definition dquote : ascii := ascii_of_nat 34.

(** A column label as [to_csv] writes it. *)
Definition label_str (l : label) : string :=
  match l with
  | LStr s => s
  | LInt z => pretty z
  end.

(** A value as [to_csv] writes it: an absent one as the empty [na_rep]. *)
Definition csv_value (c : cell) : string :=
  if isna c then "" else str c.

(** The cells of the row at position [i]. *)
Definition row_cells (df : IndexedFrame) (i : nat) : list cell :=
  (fun col : label * Series => default CNaN (col.2 !! i)) <$> data df.

Section to_csv.
(** [os.linesep], the default line terminator of [to_csv], and the way
    the [csv] writer with [QUOTE_MINIMAL] writes one field; both depend on
    the platform and on the Python version. *)
Variable lineterminator : string.
Variable quote_minimal : string -> string.

Definition writerow (fields : list string) : string :=
  String.concat "," (quote_minimal <$> fields) +:+ lineterminator.

(** [data_diff.to_csv(index=False)]: the labels of the columns, then the
    rows in their order; with [index=False] the index labels are not
    written. *)
Definition to_csv (data_diff : IndexedFrame) : string :=
  writerow (label_str <$> columns (data data_diff)) +:+
  String.concat ""
    ((fun i => writerow (csv_value <$> row_cells data_diff i))
       <$> seq 0 (length (index data_diff))).
End to_csv.

(** The field writer of CPython up to 3.12: a field is put between quotes,
    its quotes doubled, when it holds the delimiter, a quote or a character
    of the line terminator. *)
Definition csv_special (lineterminator : string) (c : ascii) : bool :=
  bool_decide (c = ","%char) || bool_decide (c = dquote) ||
  existsb (fun t => bool_decide (c = t)) (list_ascii_of_string lineterminator).

Fixpoint double_quotes (s : string) : string :=
  match s with
  | EmptyString => EmptyString
  | String c r =>
      if bool_decide (c = dquote) then String c (String c (double_quotes r))
      else String c (double_quotes r)
  end.

Definition csv_quote_minimal (lineterminator field : string) : string :=
  if existsb (csv_special lineterminator) (list_ascii_of_string field)
  then String dquote (double_quotes field +:+ String dquote EmptyString)
  else field.

(** [str.encode("utf-8")] on code points below 256: one byte below 128,
    two bytes from 128 on. *)
Definition encode_char (c : ascii) : list Byte.byte :=
  let n := nat_of_ascii c in
  if (n <? 128)%nat then [byte_of_ascii c]
  else [byte_of_ascii (ascii_of_nat (192 + n / 64));
        byte_of_ascii (ascii_of_nat (128 + n mod 64))].

Fixpoint encode_utf8 (s : string) : list Byte.byte :=
  match s with
  | EmptyString => []
  | String c r => encode_char c ++ encode_utf8 r
  end.

(** Lines 93-96: for a report that is not empty, the coloured display and
    then the bytes offered for download. *)
Definition csv_download (lineterminator : string) (quote_minimal : string -> string)
    (data_diff : IndexedFrame) : result (option (list Byte.byte)) :=
  if frame_empty data_diff then Ok None
  else
    styled ← color_data_diff data_diff;
    Ok (Some (encode_utf8 (to_csv lineterminator quote_minimal data_diff))).

(** ** Text differencing (lines 48-52)

    [make_html_diff] is a call of [difflib.HtmlDiff.make_table]; the
    definitions below follow [difflib.py] of CPython 3.11, function by
    function, for the arguments of that call: no junk predicate
    ([linejunk=None]), [autojunk=True], [context=True], [numlines=5],
    [wrapcolumn=80]. *)

(** *** [str.splitlines] and [HtmlDiff._tab_newline_replace] *)

(** The line boundaries of [str.splitlines] among the code points below
    256: LF, VT, FF, CR, FS, GS, RS and NEL. *)
Definition is_linebreak (c : ascii) : bool :=
  let n := nat_of_ascii c in
  ((10 <=? n) && (n <=? 13) || (28 <=? n) && (n <=? 30) || (n =? 133))%nat.

(** [cur] is the line being read; [after_cr] tells that the previous
    character was a CR, which a LF that follows belongs to. *)
Fixpoint splitlines_from (s cur : string) (after_cr : bool) : list string :=
  match s with
  | EmptyString => if decide (cur = EmptyString) then [] else [cur]
  | String c r =>
      if after_cr && bool_decide (c = ascii_of_nat 10) then splitlines_from r cur false
      else if is_linebreak c
           then cur :: splitlines_from r EmptyString (bool_decide (c = ascii_of_nat 13))
           else splitlines_from r (cur +:+ String c EmptyString) false
  end.

Definition splitlines (s : string) : list string :=
  splitlines_from s EmptyString false.

Fixpoint replace_char (x y : ascii) (s : string) : string :=
  match s with
  | EmptyString => EmptyString
  | String c r => String (if bool_decide (c = x) then y else c) (replace_char x y r)
  end.

Fixpoint spaces (n : nat) : string :=
  match n with
  | 0 => EmptyString
  | S n => String " " (spaces n)
  end.

(** [str.expandtabs(tabsize)], with the column [pos] of the next character. *)
Fixpoint expandtabs_from (tabsize pos : nat) (s : string) : string :=
  match s with
  | EmptyString => EmptyString
  | String c r =>
      if bool_decide (c = ascii_of_nat 9) then
        if decide (0 < tabsize) then
          let incr := tabsize - pos mod tabsize in
          spaces incr +:+ expandtabs_from tabsize (pos + incr) r
        else expandtabs_from tabsize pos r
      else
        String c (expandtabs_from tabsize
                    (if bool_decide (c = ascii_of_nat 10) || bool_decide (c = ascii_of_nat 13)
                     then 0 else S pos) r)
  end.

(** [s.rstrip("\n")]. *)
Fixpoint rstrip_newline (s : string) : string :=
  match s with
  | EmptyString => EmptyString
  | String c r =>
      match rstrip_newline r with
      | EmptyString => if bool_decide (c = ascii_of_nat 10) then EmptyString
                       else String c EmptyString
      | r' => String c r'
      end
  end.

(** [expand_tabs] of [_tab_newline_replace], with [tabsize=8]. *)
Definition expand_tabs (line : string) : string :=
  let line := replace_char " " (ascii_of_nat 0) line in
  let line := expandtabs_from 8 0 line in
  let line := replace_char " " (ascii_of_nat 9) line in
  rstrip_newline (replace_char (ascii_of_nat 0) " " line).

(** *** [SequenceMatcher] *)

(** [__chain_b]: for every element of [b] the positions at which it
    occurs, in increasing order; with [isjunk=None] nothing is junk; in a
    sequence of 200 elements or more the elements that occur more often
    than once in a hundred positions, plus one, are popular and are taken
    out. *)
Fixpoint chain_from (i : nat) (b : list string) (b2j : gmap string (list nat))
  : gmap string (list nat) :=
  match b with
  | [] => b2j
  | elt :: rest =>
      chain_from (S i) rest (<[elt := default [] (b2j !! elt) ++ [i]]> b2j)
  end.

Definition chain_b (b : list string) : gmap string (list nat) :=
  let b2j := chain_from 0 b ∅ in
  let n := length b in
  if decide (200 <= n) then
    let ntest := n / 100 + 1 in
    filter (fun kv => ~ ntest < length kv.2) b2j
  else b2j.

(** A matching block [(i, j, k)]: [a[i:i+k] == b[j:j+k]]. *)
Abbreviation block := (nat * nat * nat)%type (only parsing).

(** The inner loop of [find_longest_match] over the positions [js] of
    [a[i]] in [b].  [k] is at most [i + 1], so that [i + 1 - k] is the
    [i-k+1] of the source. *)
Fixpoint scan_row (i blo bhi : nat) (js : list nat) (j2len newj2len : gmap nat nat)
    (best : block) : gmap nat nat * block :=
  match js with
  | [] => (newj2len, best)
  | j :: rest =>
      if decide (j < blo) then scan_row i blo bhi rest j2len newj2len best
      else if decide (bhi <= j) then (newj2len, best)
      else
        let k := match j with
                 | 0 => 0
                 | S j' => default 0 (j2len !! j')
                 end + 1 in
        scan_row i blo bhi rest j2len (<[j := k]> newj2len)
          (if decide (best.2 < k) then (i + 1 - k, j + 1 - k, k) else best)
  end.

(** The outer loop, over [range(alo, ahi)]. *)
Fixpoint scan_rows (a : list string) (b2j : gmap string (list nat)) (blo bhi : nat)
    (rows : list nat) (j2len : gmap nat nat) (best : block) : block :=
  match rows with
  | [] => best
  | i :: rest =>
      let '(newj2len, best) :=
        scan_row i blo bhi (default [] (b2j !! (a !!! i))) j2len ∅ best in
      scan_rows a b2j blo bhi rest newj2len best
  end.

Definition isbjunk (bjunk : gset string) (elt : string) : bool :=
  bool_decide (elt ∈ bjunk).

(** The two loops that extend the match to the left: by elements that are
    not junk ([junk = false]), then by junk ([junk = true]). *)
Fixpoint extend_back (junk : bool) (bjunk : gset string) (a b : list string)
    (alo blo besti bestj bestsize : nat) : block :=
  match besti, bestj with
  | S i', S j' =>
      if decide (alo < besti /\ blo < bestj /\ isbjunk bjunk (b !!! j') = junk /\
                 a !!! i' = b !!! j')
      then extend_back junk bjunk a b alo blo i' j' (S bestsize)
      else (besti, bestj, bestsize)
  | _, _ => (besti, bestj, bestsize)
  end.

(** The two loops that extend it to the right; [n] is [ahi - (besti +
    bestsize)], the number of turns after which the first test fails. *)
Fixpoint extend_fwd (junk : bool) (bjunk : gset string) (a b : list string)
    (ahi bhi n besti bestj bestsize : nat) : nat :=
  match n with
  | 0 => bestsize
  | S n' =>
      if decide (besti + bestsize < ahi /\ bestj + bestsize < bhi /\
                 isbjunk bjunk (b !!! (bestj + bestsize)) = junk /\
                 a !!! (besti + bestsize) = b !!! (bestj + bestsize))
      then extend_fwd junk bjunk a b ahi bhi n' besti bestj (S bestsize)
      else bestsize
  end.

Definition find_longest_match (a b : list string) (b2j : gmap string (list nat))
    (bjunk : gset string) (alo ahi blo bhi : nat) : block :=
  let '(besti, bestj, bestsize) :=
    scan_rows a b2j blo bhi (seq alo (ahi - alo)) ∅ (alo, blo, 0) in
  let '(besti, bestj, bestsize) :=
    extend_back false bjunk a b alo blo besti bestj bestsize in
  let bestsize :=
    extend_fwd false bjunk a b ahi bhi (ahi - (besti + bestsize)) besti bestj bestsize in
  let '(besti, bestj, bestsize) :=
    extend_back true bjunk a b alo blo besti bestj bestsize in
  let bestsize :=
    extend_fwd true bjunk a b ahi bhi (ahi - (besti + bestsize)) besti bestj bestsize in
  (besti, bestj, bestsize).

(** The loop of [get_matching_blocks]; the head of [queue] is the entry
    that [queue.pop()] takes.  [None] when [fuel] turns do not empty the
    queue. *)
Fixpoint matching_loop (fuel : nat) (a b : list string) (b2j : gmap string (list nat))
    (bjunk : gset string) (queue : list (nat * nat * nat * nat))
    (matching_blocks : list block) : option (list block) :=
  match queue with
  | [] => Some matching_blocks
  | (alo, ahi, blo, bhi) :: queue =>
      match fuel with
      | 0 => None
      | S fuel =>
          let '(i, j, k) := find_longest_match a b b2j bjunk alo ahi blo bhi in
          if decide (k = 0) then matching_loop fuel a b b2j bjunk queue matching_blocks
          else
            let queue :=
              if decide (alo < i /\ blo < j) then (alo, i, blo, j) :: queue else queue in
            let queue :=
              if decide (i + k < ahi /\ j + k < bhi) then (i + k, ahi, j + k, bhi) :: queue
              else queue in
            matching_loop fuel a b b2j bjunk queue (matching_blocks ++ [(i, j, k)])
      end
  end.

(** The order of tuples, by which [matching_blocks.sort()] sorts. *)
Definition block_le (x y : block) : Prop :=
  x.1.1 < y.1.1 \/
  (x.1.1 = y.1.1 /\ (x.1.2 < y.1.2 \/ (x.1.2 = y.1.2 /\ x.2 <= y.2))).

#[global] Instance block_le_dec x y : Decision (block_le x y).
Proof. unfold block_le. apply _. Defined.

(** The loop that joins adjacent blocks. *)
Fixpoint collapse (blocks : list block) (i1 j1 k1 : nat) (non_adjacent : list block)
  : list block :=
  match blocks with
  | [] => if decide (k1 = 0) then non_adjacent else non_adjacent ++ [(i1, j1, k1)]
  | (i2, j2, k2) :: rest =>
      if decide (i1 + k1 = i2 /\ j1 + k1 = j2)
      then collapse rest i1 j1 (k1 + k2) non_adjacent
      else collapse rest i2 j2 k2
             (if decide (k1 = 0) then non_adjacent else non_adjacent ++ [(i1, j1, k1)])
  end.

(** Every turn of the loop with a match takes an element of [a] out of the
    ranges that remain, and leaves at most two ranges: [2 * la + 1] turns
    are enough. *)
Definition get_matching_blocks (a b : list string) : option (list block) :=
  let la := length a in
  let lb := length b in
  matching_blocks ← matching_loop (2 * la + 1) a b (chain_b b) ∅ [(0, la, 0, lb)] [];
  Some (collapse (merge_sort block_le matching_blocks) 0 0 0 [] ++ [(la, lb, 0)]).

Inductive tag := Treplace | Tdelete | Tinsert | Tequal.

Abbreviation opcode := (tag * nat * nat * nat * nat)%type (only parsing).

Fixpoint opcodes_from (blocks : list block) (i j : nat) (answer : list opcode)
  : list opcode :=
  match blocks with
  | [] => answer
  | (ai, bj, size) :: rest =>
      let answer :=
        if decide (i < ai /\ j < bj) then answer ++ [(Treplace, i, ai, j, bj)]
        else if decide (i < ai) then answer ++ [(Tdelete, i, ai, j, bj)]
        else if decide (j < bj) then answer ++ [(Tinsert, i, ai, j, bj)]
        else answer in
      let i := ai + size in
      let j := bj + size in
      opcodes_from rest i j
        (if decide (size = 0) then answer else answer ++ [(Tequal, ai, i, bj, j)])
  end.

Definition get_opcodes (a b : list string) : option (list opcode) :=
  blocks ← get_matching_blocks a b;
  Some (opcodes_from blocks 0 0 []).

(** *** [Differ.compare] and [_mdiff] *)

(** The number of a line in a row of the table: a number, the empty
    string of a blank line, or the [">"] of a wrapped line. *)
Inductive linenum :=
  | Num (n : nat)
  | Blank
  | Wrapped.

Abbreviation line := (linenum * string)%type (only parsing).

Definition startswith (s p : string) : bool := String.prefix p s.

(** [line[0]]; the lines of a delta are never empty. *)
Definition first_char (line : string) : ascii :=
  match line with
  | String c _ => c
  | EmptyString => "X"
  end.

(** [line[2:]]. *)
Definition drop2 (line : string) : string :=
  match line with
  | String _ (String _ r) => r
  | _ => EmptyString
  end.

(** [lines.pop(0)]. *)
Definition pop0 (lines : list string) : string * list string :=
  match lines with
  | l :: rest => (l, rest)
  | [] => (EmptyString, [])
  end.

Definition NUL : ascii := ascii_of_nat 0.
Definition SOH : ascii := ascii_of_nat 1.

(** [while len(lines) < 4: lines.append(next(diff_lines_iterator, "X"))],
    with [n] the number of lines that are missing. *)
Fixpoint refill (n : nat) (lines it : list string) : list string * list string :=
  match n with
  | 0 => (lines, it)
  | S n =>
      match it with
      | x :: it' => refill n (lines ++ [x]) it'
      | [] => refill n (lines ++ ["X"]) []
      end
  end.

(** The blank lines that [_line_iterator] yields to catch up. *)
Definition catch_up (num_blanks_to_yield : Z)
  : list (option line * option line * bool) :=
  if decide (num_blanks_to_yield < 0)%Z
  then replicate (Z.to_nat (- num_blanks_to_yield)) (None, Some (Blank, newline), true)
  else replicate (Z.to_nat num_blanks_to_yield) (Some (Blank, newline), None, true).

Section mdiff.
(** Two parts of [difflib] that are left open: [Differ._fancy_replace],
    which chooses the lines to pair by a ratio in floating point, and the
    markup that [_make_line] inserts into a line from the markers of the
    ["? "] line that follows it. *)
Variable fancy_replace :
  list string -> nat -> nat -> list string -> nat -> nat -> list string.
Variable intraline : string -> string -> string.

Definition dump (t : string) (x : list string) (lo hi : nat) : list string :=
  (fun i => t +:+ " " +:+ x !!! i) <$> seq lo (hi - lo).

Definition compare (a b : list string) : option (list string) :=
  ops ← get_opcodes a b;
  Some (concat ((fun '(t, alo, ahi, blo, bhi) =>
                   match t with
                   | Treplace => fancy_replace a alo ahi b blo bhi
                   | Tdelete => dump "-" a alo ahi
                   | Tinsert => dump "+" b blo bhi
                   | Tequal => dump " " a alo ahi
                   end) <$> ops)).

(** [_make_line(lines, format_key, side)]: [side] is [false] for the
    "from" text; [num_lines] holds the two line counters. *)
Definition make_line (lines : list string) (format_key : option ascii) (side : bool)
    (num_lines : nat * nat) : line * list string * (nat * nat) :=
  let num_lines :=
    if side then (num_lines.1, S num_lines.2) else (S num_lines.1, num_lines.2) in
  let n := if side then num_lines.2 else num_lines.1 in
  match format_key with
  | None =>
      let '(l, lines) := pop0 lines in
      ((Num n, drop2 l), lines, num_lines)
  | Some key =>
      if bool_decide (key = "?"%char) then
        let '(text, lines) := pop0 lines in
        let '(markers, lines) := pop0 lines in
        ((Num n, intraline text markers), lines, num_lines)
      else
        let '(l, lines) := pop0 lines in
        let text := drop2 l in
        let text := if decide (text = EmptyString) then " " else text in
        ((Num n, String NUL (String key (text +:+ String SOH EmptyString))),
         lines, num_lines)
  end.

(** [_line_iterator]: [lines] is its look-ahead buffer, [it] what the
    delta still holds.  [None] when [fuel] turns do not end the loop, and
    for a delta that starts with a ["? "] line, on which the source does
    not advance. *)
Fixpoint line_iterator (fuel : nat) (lines it : list string)
    (num_blanks_pending : Z) (num_lines : nat * nat)
  : option (list (option line * option line * bool)) :=
  match fuel with
  | 0 => None
  | S fuel =>
      let '(lines, it) := refill (4 - length lines) lines it in
      let s := string_of_list_ascii (first_char <$> lines) in
      if startswith s "X" then
        Some (catch_up num_blanks_pending)
      else if startswith s "-?+?" then
        let '(fl, lines, nl) := make_line lines (Some "?"%char) false num_lines in
        let '(tl, lines, nl) := make_line lines (Some "?"%char) true nl in
        cons (Some fl, Some tl, true) <$>
          line_iterator fuel lines it num_blanks_pending nl
      else if startswith s "--++" then
        let '(fl, lines, nl) := make_line lines (Some "-"%char) false num_lines in
        cons (Some fl, None, true) <$>
          line_iterator fuel lines it (num_blanks_pending - 1) nl
      else if startswith s "--?+" || startswith s "--+" || startswith s "- " then
        let '(fl, lines, nl) := make_line lines (Some "-"%char) false num_lines in
        (fun r => catch_up (num_blanks_pending - 1) ++ (Some fl, None, true) :: r) <$>
          line_iterator fuel lines it 0 nl
      else if startswith s "-+?" then
        let '(fl, lines, nl) := make_line lines None false num_lines in
        let '(tl, lines, nl) := make_line lines (Some "?"%char) true nl in
        cons (Some fl, Some tl, true) <$>
          line_iterator fuel lines it num_blanks_pending nl
      else if startswith s "-?+" then
        let '(fl, lines, nl) := make_line lines (Some "?"%char) false num_lines in
        let '(tl, lines, nl) := make_line lines None true nl in
        cons (Some fl, Some tl, true) <$>
          line_iterator fuel lines it num_blanks_pending nl
      else if startswith s "-" then
        let '(fl, lines, nl) := make_line lines (Some "-"%char) false num_lines in
        cons (Some fl, None, true) <$>
          line_iterator fuel lines it (num_blanks_pending - 1) nl
      else if startswith s "+--" then
        let '(tl, lines, nl) := make_line lines (Some "+"%char) true num_lines in
        cons (None, Some tl, true) <$>
          line_iterator fuel lines it (num_blanks_pending + 1) nl
      else if startswith s "+ " || startswith s "+-" then
        let '(tl, lines, nl) := make_line lines (Some "+"%char) true num_lines in
        (fun r => catch_up (num_blanks_pending + 1) ++ (None, Some tl, true) :: r) <$>
          line_iterator fuel lines it 0 nl
      else if startswith s "+" then
        let '(tl, lines, nl) := make_line lines (Some "+"%char) true num_lines in
        cons (None, Some tl, true) <$>
          line_iterator fuel lines it (num_blanks_pending + 1) nl
      else if startswith s " " then
        let '(fl, _, nl) := make_line lines None false num_lines in
        let '(tl, lines, nl) := make_line lines None true nl in
        cons (Some fl, Some tl, false) <$>
          line_iterator fuel lines it num_blanks_pending nl
      else None
  end.

(** [_line_pair_iterator]: the rows of [_line_iterator] with a line on
    one side only are held back until the other side has one too. *)
Fixpoint line_pair_iterator (fuel : nat)
    (input : list (option line * option line * bool))
    (fromlines tolines : list (line * bool))
  : option (list (line * line * bool)) :=
  match fuel with
  | 0 => None
  | S fuel =>
      match fromlines, tolines with
      | (from_line, fromDiff) :: fromlines', (to_line, to_diff) :: tolines' =>
          cons (from_line, to_line, fromDiff || to_diff) <$>
            line_pair_iterator fuel input fromlines' tolines'
      | _, _ =>
          match input with
          | [] => Some []
          | (from_line, to_line, found_diff) :: input =>
              line_pair_iterator fuel input
                (match from_line with
                 | Some l => fromlines ++ [(l, found_diff)]
                 | None => fromlines
                 end)
                (match to_line with
                 | Some l => tolines ++ [(l, found_diff)]
                 | None => tolines
                 end)
          end
      end
  end.

(** A row of the table: the two lines and the flag of a change; the
    separator of two stretches of context is the row of three [None]. *)
Abbreviation row := (option line * option line * option bool)%type (only parsing).

Definition row_of (r : line * line * bool) : row :=
  (Some r.1.1, Some r.1.2, Some r.2).

(** The first inner loop of the context part of [_mdiff]: rows are stored
    in the circular buffer until one has a change.  [None] when the rows
    run out, on which the generator returns. *)
Fixpoint collect_context (context : nat) (input : list (line * line * bool))
    (index : nat) (contextLines : list row)
  : option (nat * list row * list (line * line * bool)) :=
  match input with
  | [] => None
  | r :: input =>
      let contextLines := <[index mod context := row_of r]> contextLines in
      if r.2 then Some (S index, contextLines, input)
      else collect_context context input (S index) contextLines
  end.

(** The loop that yields the stored rows. *)
Fixpoint write_context (context lines_to_write index : nat) (contextLines : list row)
  : list row :=
  match lines_to_write with
  | 0 => []
  | S n =>
      default (None, None, None) (contextLines !! (index mod context))
        :: write_context context n (S index) contextLines
  end.

(** The loop that yields the rows after a change; the rows that are left
    come back unless they ran out, on which the generator returns. *)
Fixpoint after_context (context : nat) (input : list (line * line * bool))
    (lines_to_write : nat) : list row * option (list (line * line * bool)) :=
  match lines_to_write with
  | 0 => ([], Some input)
  | S n =>
      match input with
      | [] => ([], None)
      | r :: input =>
          let '(rows, rest) :=
            after_context context input (if r.2 then context - 1 else n) in
          (row_of r :: rows, rest)
      end
  end.

Fixpoint context_loop (fuel context : nat) (input : list (line * line * bool))
  : option (list row) :=
  match fuel with
  | 0 => None
  | S fuel =>
      match collect_context context input 0 (replicate context (None, None, None)) with
      | None => Some []
      | Some (index, contextLines, input) =>
          let stored :=
            if decide (context < index)
            then (None, None, None) :: write_context context context index contextLines
            else write_context context index 0 contextLines in
          let '(rows, rest) := after_context context input (context - 1) in
          match rest with
          | None => Some (stored ++ rows)
          | Some input => (fun r => stored ++ rows ++ r) <$> context_loop fuel context input
          end
      end
  end.

(** [_mdiff(fromlines, tolines, context)]. *)
Definition mdiff (fromlines tolines : list string) (context : option nat)
  : option (list row) :=
  delta ← compare fromlines tolines;
  rows ← line_iterator (S (length delta)) [] delta 0 (0, 0);
  pairs ← line_pair_iterator (S (2 * length rows)) rows [] [];
  match context with
  | None => Some (row_of <$> pairs)
  | Some context => context_loop (S (length pairs)) (context + 1) pairs
  end.

(** *** [HtmlDiff.make_table] *)

(** [HtmlDiff._split_line], which breaks a line at the wrap column, is
    left open, and so is the writing of the rows as HTML, which depends on
    the rows and on the number that [_make_prefix] puts into the anchors of
    the table. *)
Variable split_line : linenum -> string -> list line.
Variable render_table : nat -> list row -> string.

(** The inner loop of [_line_wrapper]. *)
Fixpoint wrap_pairs (fuel : nat) (fromlist tolist : list line) (flag : option bool)
  : list row :=
  match fuel with
  | 0 => []
  | S fuel =>
      match fromlist, tolist with
      | [], [] => []
      | _, _ =>
          (Some (hd (Blank, " ") fromlist), Some (hd (Blank, " ") tolist), flag)
            :: wrap_pairs fuel (tl fromlist) (tl tolist) flag
      end
  end.

Definition line_wrapper (diffs : list row) : list row :=
  concat ((fun '(fromdata, todata, flag) =>
             match flag, fromdata, todata with
             | Some _, Some (fromline, fromtext), Some (toline, totext) =>
                 let fromlist := split_line fromline fromtext in
                 let tolist := split_line toline totext in
                 wrap_pairs (max (length fromlist) (length tolist)) fromlist tolist flag
             | _, _, _ => [(fromdata, todata, flag)]
             end) <$> diffs).

(** The rows that [make_table] writes, for [context=True], [numlines=5]
    and a wrap column. *)
Definition table_rows (fromlines tolines : list string) : option (list row) :=
  line_wrapper <$> mdiff (expand_tabs <$> fromlines) (expand_tabs <$> tolines) (Some 5).

(** [default_prefix] is the class attribute [HtmlDiff._default_prefix],
    which every call of [make_table] increments. *)
Definition make_html_diff (default_prefix : nat) (text1 text2 : string)
  : option (string * nat) :=
  rows ← table_rows (splitlines text1) (splitlines text2);
  Some (render_table default_prefix rows, S default_prefix).
End mdiff.

(** ** Predicates and examples of the statements *)

Definition is_str (l : label) : Prop :=
  match l with LStr _ => True | LInt _ => False end.

#[global] Instance is_str_dec l : Decision (is_str l).
Proof. destruct l; simpl; apply _. Defined.

(** [l] is the last column of [cols] whose lower-cased name is [k]. *)
Definition last_lower (cols : list label) (k : string) (l : label) : Prop :=
  exists pre s post,
    cols = pre ++ LStr s :: post /\ l = LStr s /\ lower s = k /\
    forall s', LStr s' ∈ post -> lower s' <> k.

Definition is_cstr (c : cell) : Prop :=
  match c with CStr _ => True | _ => False end.

(** The row indices of the records of a column pair cover the range
    below [n]. *)
Definition indices_cover (n : nat) (col : label) (c1 c2 : list cell) : Prop :=
  forall i, i < n -> i ∈ idx <$> column_mismatches col c1 c2.

(** The UTF-8 decoder for the code points below 256: the reading against
    which the exported bytes are UTF-8. *)
Fixpoint decode_utf8 (bs : list Byte.byte) : option string :=
  match bs with
  | [] => Some EmptyString
  | b :: rest =>
      let n := nat_of_ascii (ascii_of_byte b) in
      if (n <? 128)%nat then String (ascii_of_byte b) <$> decode_utf8 rest
      else if ((194 <=? n) && (n <=? 195))%nat then
        match rest with
        | b2 :: rest' =>
            let m := nat_of_ascii (ascii_of_byte b2) in
            if ((128 <=? m) && (m <? 192))%nat
            then String (ascii_of_nat ((n - 192) * 64 + (m - 128))) <$> decode_utf8 rest'
            else None
        | [] => None
        end
      else None
  end.

(** The frame whose rows are the records: the index labels of the
    records, and the columns [Excel], [PDF] and [Column]; the frame without
    rows or columns when there is no record. *)
Definition frame_of_records (r : list mismatch) : IndexedFrame :=
  match r with
  | [] => IFrame [] []
  | _ => IFrame (idx <$> r)
           [(LStr "Excel", Excel <$> r); (LStr "PDF", PDF <$> r);
            (LStr "Column", (fun m => cell_of_label (Column m)) <$> r)]
  end.

(** The export of a report tells the row indices of its records: two
    reports with the same export have the same index labels. *)
Definition csv_carries_index (lineterminator : string)
    (quote_minimal : string -> string) : Prop :=
  forall df_excel1 df_pdf1 df_excel2 df_pdf2 d1 d2,
    compare_dataframes_smart_frame df_excel1 df_pdf1 = Ok d1 ->
    compare_dataframes_smart_frame df_excel2 df_pdf2 = Ok d2 ->
    csv_download lineterminator quote_minimal d1
      = csv_download lineterminator quote_minimal d2 ->
    index d1 = index d2.

(** The positions of [elt] in [b], counted from [i]. *)
Fixpoint positions (i : nat) (b : list string) (elt : string) : list nat :=
  match b with
  | [] => []
  | x :: rest =>
      if decide (x = elt) then i :: positions (S i) rest elt
      else positions (S i) rest elt
  end.

(** Position [j] holds an element that is in [b2j]: one that is not
    popular. *)
Definition in_b2j (a : list string) (j : nat) : Prop :=
  j < length a /\ is_Some (chain_b a !! (a !!! j)).

(** The length of the run of such positions that ends at [j]. *)
Fixpoint run (a : list string) (j : nat) : nat :=
  match j with
  | 0 => if decide (in_b2j a 0) then 1 else 0
  | S j' => if decide (in_b2j a (S j')) then S (run a j') else 0
  end.

(** What [j2len] holds after the row [i]. *)
Definition row_ok (a : list string) (i : nat) (M : gmap nat nat) : Prop :=
  (forall j k, M !! j = Some k -> 1 <= k /\ k <= run a j /\ k <= run a i) /\
  (in_b2j a i -> M !! i = Some (run a i)).

Definition prev_ok (a : list string) (i : nat) (M : gmap nat nat) : Prop :=
  match i with
  | 0 => M = ∅
  | S i' => row_ok a i' M
  end.

(** The length that the inner loop computes at [(i, j)]. *)
Definition cell_len (M : gmap nat nat) (j : nat) : nat :=
  match j with
  | 0 => 0
  | S j' => default 0 (M !! j')
  end + 1.

(** A line of the delta that is the same on both sides. *)
Definition eqline (l : string) : string := String " " (String " " l).

(** The rows of lines that are the same on both sides, after the line
    numbers [nf] and [nt]. *)
Fixpoint equal_pairs (nf nt : nat) (ls : list string) : list (line * line * bool) :=
  match ls with
  | [] => []
  | l :: rest =>
      ((Num (S nf), l), (Num (S nt), l), false) :: equal_pairs (S nf) (S nt) rest
  end.

Definition unpaired (r : line * line * bool) : option line * option line * bool :=
  (Some r.1.1, Some r.1.2, r.2).

(** Every column of the frame has the rows of the frame, as in every
    pandas frame. *)
Definition rectangular (df : list (label * list cell)) : Prop :=
  Forall (fun col => length col.2 = nrows df) df.

(** The string forms of the cells of a frame, row by row. *)
Definition cell_texts (df : list (label * list cell)) : list string :=
  i ← seq 0 (nrows df); (fun col => str (default CNaN (col.2 !! i))) <$> df.

(** A string without a line boundary of [str.splitlines]. *)
Definition no_linebreak (s : string) : Prop :=
  Forall (fun c => is_linebreak c = false) (list_ascii_of_string s).

(** The lines without the last one when that one is empty. *)
Definition without_empty_last (ls : list string) : list string :=
  match last ls with
  | Some EmptyString => removelast ls
  | _ => ls
  end.

(** What [splitlines_from] has done when it has read [x]: the lines that
    are complete, the line being read and whether the last character was
    a CR. *)
Fixpoint scan_lines (x cur : string) (after_cr : bool) : list string * string * bool :=
  match x with
  | EmptyString => ([], cur, after_cr)
  | String c r =>
      if after_cr && bool_decide (c = ascii_of_nat 10) then scan_lines r cur false
      else if is_linebreak c
           then let '(pre, cur', f') :=
                  scan_lines r EmptyString (bool_decide (c = ascii_of_nat 13)) in
                (cur :: pre, cur', f')
           else scan_lines r (cur +:+ String c EmptyString) false
  end.

(** A text that is not empty and does not end with a line boundary. *)
Fixpoint open_ended (x : string) : Prop :=
  match x with
  | EmptyString => False
  | String c EmptyString => is_linebreak c = false
  | String _ r => open_ended r
  end.

(** Lines 12 and 20: the text of every page, the empty string for a page
    without text, joined with newlines. *)
Definition combined_text (page_texts : list (option string)) : string :=
  String.concat newline (default EmptyString <$> page_texts).

(** The block [(i, j, k)] is a match: [a[i:i+k]] and [b[j:j+k]] exist and
    are the same. *)
Definition valid_match (a b : list string) (blk : nat * nat * nat) : Prop :=
  blk.1.1 + blk.2 <= length a /\ blk.1.2 + blk.2 <= length b /\
  forall t, t < blk.2 -> a !! (blk.1.1 + t) = b !! (blk.1.2 + t).

(** The block lies in the two ranges. *)
Definition in_ranges (alo ahi blo bhi : nat) (blk : nat * nat * nat) : Prop :=
  alo <= blk.1.1 /\ blk.1.1 + blk.2 <= ahi /\ blo <= blk.1.2 /\ blk.1.2 + blk.2 <= bhi.

(** The entries of [b2j] are positions of their element in [b]. *)
Definition b2j_sound (b : list string) (b2j : gmap string (list nat)) : Prop :=
  forall elt js j, b2j !! elt = Some js -> j ∈ js -> b !! j = Some elt.

(** What [j2len] holds when the rows before [i] are done: lengths of
    matches that end in row [i - 1]. *)
Definition j2len_ok (a b : list string) (alo blo bhi i : nat) (M : gmap nat nat) : Prop :=
  forall j k, M !! j = Some k ->
    alo < i /\ 1 <= k /\ k <= i - alo /\ k <= j + 1 - blo /\ j < bhi /\
    forall t, t < k -> a !! (i - 1 - t) = b !! (j - t).

(** The ranges that wait in the queue of [get_matching_blocks], and the
    number of turns of the loop that they can take. *)
Definition queue_ok (a b : list string) (queue : list (nat * nat * nat * nat)) : Prop :=
  Forall (fun q : nat * nat * nat * nat =>
            q.1.1.1 <= q.1.1.2 /\ q.1.1.2 <= length a /\
            q.1.2 <= q.2 /\ q.2 <= length b) queue.

Fixpoint queue_weight (queue : list (nat * nat * nat * nat)) : nat :=
  match queue with
  | [] => 0
  | q :: queue => 2 * (q.1.1.2 - q.1.1.1) + 1 + queue_weight queue
  end.

(** An opcode tagged equal stands for two ranges of equal lines. *)
Definition equal_is_equal (a b : list string) (op : tag * nat * nat * nat * nat) : Prop :=
  match op with
  | (Tequal, i1, i2, j1, j2) =>
      i1 < i2 /\ i2 <= length a /\ j2 <= length b /\ i2 - i1 = j2 - j1 /\
      forall t, t < i2 - i1 -> a !! (i1 + t) = b !! (j1 + t)
  | _ => True
  end.

(** A line of the delta that one text only has: the second text
    ([side = true]) or the first one. *)
Definition side_key (side : bool) : ascii := if side then "+"%char else "-"%char.

Definition sideline (side : bool) (l : string) : string :=
  String (side_key side) (String " " l).

(** The text of a line with a change, between the markers that
    [_make_line] puts around it. *)
Definition marked (key : ascii) (text : string) : string :=
  String NUL (String key ((if decide (text = EmptyString) then " " else text)
                          +:+ String SOH EmptyString)).

(** The lines that one text only has, numbered after [n]. *)
Fixpoint one_sided_lines (key : ascii) (n : nat) (ls : list string) : list line :=
  match ls with
  | [] => []
  | l :: rest => (Num (S n), marked key l) :: one_sided_lines key (S n) rest
  end.

(** The row of [_line_iterator] with a line on one side only. *)
Definition half (side : bool) (t : line) : option line * option line * bool :=
  if side then (None, Some t, true) else (Some t, None, true).

(** The lines of the two sides in the rows of [_line_iterator], with the
    flags of their rows, and the row that [_line_pair_iterator] makes of
    two of them. *)
Definition from_lines (input : list (option line * option line * bool))
  : list (line * bool) :=
  omap (fun r : option line * option line * bool => (fun l => (l, r.2)) <$> r.1.1) input.

Definition to_lines (input : list (option line * option line * bool))
  : list (line * bool) :=
  omap (fun r : option line * option line * bool => (fun l => (l, r.2)) <$> r.1.2) input.

Definition pair_lines (f t : line * bool) : line * line * bool :=
  (f.1, t.1, f.2 || t.2).

(** The ranges of the two sequences that a block covers, in the order of
    an entry of the queue: [(alo, ahi, blo, bhi)]. *)
Definition box_of (x : nat * nat * nat) : nat * nat * nat * nat :=
  (x.1.1, x.1.1 + x.2, x.1.2, x.1.2 + x.2).

(** One of the two entries ends, in both sequences, before the other one
    starts. *)
Definition apart (p q : nat * nat * nat * nat) : Prop :=
  (p.1.1.2 <= q.1.1.1 /\ p.2 <= q.1.2) \/ (q.1.1.2 <= p.1.1.1 /\ q.2 <= p.1.2).

Definition block_apart (x y : nat * nat * nat) : Prop := apart (box_of x) (box_of y).

(** The block [x] ends, in both sequences, where the block [y] starts or
    before. *)
Definition block_before (x y : nat * nat * nat) : Prop :=
  x.1.1 + x.2 <= y.1.1 /\ x.1.2 + x.2 <= y.1.2.

(** Where the opcodes of the blocks end that start at [(i, j)]. *)
Fixpoint ends (blocks : list (nat * nat * nat)) (i j : nat) : nat * nat :=
  match blocks with
  | [] => (i, j)
  | x :: rest => ends rest (x.1.1 + x.2) (x.1.2 + x.2)
  end.

(** The opcodes lead from [(i, j)] to [(i', j')]: each one starts where
    the one before it ends, in both sequences, and its ranges are what its
    tag says. *)
Fixpoint tiles (ops : list (tag * nat * nat * nat * nat)) (i j i' j' : nat) : Prop :=
  match ops with
  | [] => i = i' /\ j = j'
  | (t, i1, i2, j1, j2) :: ops =>
      i1 = i /\ j1 = j /\
      match t with
      | Treplace => i1 < i2 /\ j1 < j2
      | Tdelete => i1 < i2 /\ j1 = j2
      | Tinsert => i1 = i2 /\ j1 < j2
      | Tequal => i1 < i2 /\ i2 - i1 = j2 - j1
      end /\
      tiles ops i2 j2 i' j'
  end.

(** The frames of the scenarios. *)
Definition name_A : list (label * list cell) :=
  [(LStr "Name", [CStr "Alice"; CStr "Bob"])].
Definition name_B : list (label * list cell) :=
  [(LStr "Name", [CStr "Alice"; CStr "Bobby"])].

Definition x_A : list (label * list cell) :=
  [(LStr "X", [CStr "1"; CStr "2"; CStr "3"])].
Definition x_B : list (label * list cell) :=
  [(LStr "X", [CStr "1"; CStr "2"])].

(** A spreadsheet whose column [X] has a blank second cell, and the table
    of a document whose column [X] has an empty second cell. *)
Definition blank_A : list (label * list cell) := [(LStr "X", [CStr "a"; CNaN])].
Definition blank_B : list (label * list cell) := [(LStr "X", [CStr "a"; CStr ""])].

(** A document whose tables are one with the header [total] and one with a
    single row, which [pd.DataFrame(t)] labels [0]; [pd.concat] fills the
    cells a table does not have with [NaN]. *)
Definition total_A : list (label * list cell) := [(LStr "Total", [CStr "10"])].
Definition total_B_int : list (label * list cell) :=
  [(LStr "total", [CStr "10"; CNaN]); (LInt 0, [CNaN; CStr "n/a"])].

Definition case_A : list (label * list cell) :=
  [(LStr "Total", [CStr "1"]); (LStr "TOTAL", [CStr "2"])].
Definition case_B : list (label * list cell) :=
  [(LStr "total", [CStr "1"]); (LStr "ToTal", [CStr "2"])].

(** * Properties *)

(** ** Column matching *)

Lemma last_lower_cons_str cols k l s :
  last_lower (LStr s :: cols) k l <->
  last_lower cols k l \/
  (l = LStr s /\ lower s = k /\ forall s', LStr s' ∈ cols -> lower s' <> k).
Proof.
  split.
  - intros (pre & s0 & post & Heq & -> & Hk & Hlast).
    destruct pre as [|p pre]; simpl in Heq; inversion Heq; subst.
    + right. auto.
    + left. exists pre, s0, post. auto.
  - intros [(pre & s0 & post & -> & -> & Hk & Hlast) | (-> & Hk & Hlast)].
    + exists (LStr s :: pre), s0, post. auto.
    + exists [], s, cols. auto.
Qed.

Lemma last_lower_nil k l : ~ last_lower [] k l.
Proof. intros (pre & s & post & Heq & _). destruct pre; discriminate. Qed.

Lemma last_lower_elem cols k l : last_lower cols k l -> l ∈ cols.
Proof.
  intros (pre & s & post & -> & -> & _). set_solver.
Qed.

Lemma last_lower_fun cols k l1 l2 :
  last_lower cols k l1 -> last_lower cols k l2 -> l1 = l2.
Proof.
  revert l1 l2. induction cols as [|c cols IH]; intros l1 l2 H1 H2.
  - destruct (last_lower_nil _ _ H1).
  - destruct c as [s|z].
    + apply last_lower_cons_str in H1, H2.
      destruct H1 as [H1 | (-> & Hk1 & Hl1)], H2 as [H2 | (-> & Hk2 & Hl2)];
        [ eauto | | | reflexivity ].
      * destruct H1 as (pre & s0 & post & -> & -> & Hk & _).
        exfalso. apply (Hl2 s0); [set_solver | done].
      * destruct H2 as (pre & s0 & post & -> & -> & Hk & _).
        exfalso. apply (Hl1 s0); [set_solver | done].
    + destruct H1 as (pre1 & s1 & post1 & Heq1 & -> & Hk1 & Hl1).
      destruct H2 as (pre2 & s2 & post2 & Heq2 & -> & Hk2 & Hl2).
      destruct pre1 as [|p1 pre1]; [discriminate|].
      destruct pre2 as [|p2 pre2]; [discriminate|].
      simpl in Heq1, Heq2. inversion Heq1; inversion Heq2; subst.
      apply IH; [exists pre1, s1, post1 | exists pre2, s2, post2]; auto.
Qed.

(** The dictionary of the lower-cased names, when it is built. *)
Lemma cols_lower_from_spec cols : forall acc m,
  cols_lower_from acc cols = Ok m ->
  Forall is_str cols /\
  forall k l, m !! k = Some l <->
    last_lower cols k l \/
    (acc !! k = Some l /\ forall s, LStr s ∈ cols -> lower s <> k).
Proof.
  induction cols as [|c cols IH]; intros acc m Hm; simpl in Hm.
  - inversion Hm; subst. split; [constructor|]. intros k l. split.
    + intros H. right. split; [done|]. intros s Hs. inversion Hs.
    + intros [H | [H _]]; [destruct (last_lower_nil _ _ H) | done].
  - destruct c as [s|z]; [|discriminate].
    destruct (IH _ _ Hm) as [Hstr Hspec]. split; [constructor; simpl; auto|].
    intros k l. rewrite Hspec, last_lower_cons_str. split.
    + intros [H | [Hacc Hnone]]; [auto|].
      destruct (decide (lower s = k)) as [Heq|Hne].
      * rewrite Heq, lookup_insert_eq in Hacc. inversion Hacc; subst. auto.
      * rewrite lookup_insert_ne in Hacc by done. right. split; [done|].
        intros s' Hs'. apply elem_of_cons in Hs' as [Hs'|Hs']; [congruence|auto].
    + intros [[H | (-> & Hk & Hnone)] | [Hacc Hnone]]; [auto| |].
      * right. split; [|done]. rewrite <- Hk. apply lookup_insert_eq.
      * right. split.
        -- rewrite lookup_insert_ne; [done|]. apply Hnone, elem_of_cons. auto.
        -- intros s' Hs'. apply Hnone, elem_of_cons. auto.
Qed.

Lemma cols_lower_from_ok cols : forall acc,
  Forall is_str cols -> exists m, cols_lower_from acc cols = Ok m.
Proof.
  induction cols as [|c cols IH]; intros acc Hstr; simpl.
  - eauto.
  - inversion Hstr as [|? ? Hc Hrest]; subst. destruct c; [|destruct Hc]. eauto.
Qed.

Lemma cols_lower_from_raise cols : forall acc,
  ~ Forall is_str cols -> cols_lower_from acc cols = Raise AttributeError.
Proof.
  induction cols as [|c cols IH]; intros acc Hstr; simpl.
  - destruct Hstr. constructor.
  - destruct c as [s|z]; [|done]. apply IH. intros H. apply Hstr.
    constructor; simpl; auto.
Qed.

Lemma cols_lower_spec cols m :
  cols_lower cols = Ok m ->
  Forall is_str cols /\ forall k l, m !! k = Some l <-> last_lower cols k l.
Proof.
  intros Hm. destruct (cols_lower_from_spec _ _ _ Hm) as [Hstr Hspec].
  split; [done|]. intros k l. rewrite Hspec. split; [|auto].
  intros [H | [H _]]; [done|]. rewrite lookup_empty in H. discriminate.
Qed.

Lemma dict_set_fresh k v d : k ∉ d.*1 -> dict_set k v d = d ++ [(k, v)].
Proof.
  induction d as [|[k' v'] d IH]; simpl; intros Hk; [done|].
  apply not_elem_of_cons in Hk as [Hne Hk].
  destruct (decide (k' = k)); [congruence|]. rewrite IH; done.
Qed.

(** The second comprehension, when every key is in both dictionaries and
    no two keys stand for the same column of the first frame: the pairs
    come out in the order of the keys. *)
Lemma pair_up_fresh d1 d2 keys : forall acc,
  NoDup keys ->
  (forall c, c ∈ keys -> is_Some (d1 !! c) /\ is_Some (d2 !! c)) ->
  (forall c c' a, d1 !! c = Some a -> d1 !! c' = Some a -> c = c') ->
  (forall c a, c ∈ keys -> d1 !! c = Some a -> a ∉ acc.*1) ->
  exists ps,
    pair_up d1 d2 keys acc = Ok (acc ++ ps) /\
    Forall2 (fun c p => d1 !! c = Some p.1 /\ d2 !! c = Some p.2) keys ps.
Proof.
  induction keys as [|c keys IH]; intros acc Hnd Hdom Hinj Hfresh; simpl.
  - exists []. rewrite app_nil_r. split; [done|constructor].
  - apply NoDup_cons in Hnd as [Hc Hnd].
    destruct (Hdom c) as [[a Ha] [b Hb]]; [apply elem_of_cons; auto|].
    unfold dict_get. rewrite Ha, Hb. simpl.
    rewrite dict_set_fresh by (eapply Hfresh; [apply elem_of_cons; auto | done]).
    destruct (IH (acc ++ [(a, b)])) as (ps & Hps & Hall); [done| | done | |].
    + intros c' Hc'. apply Hdom, elem_of_cons. auto.
    + intros c' a' Hc' Ha'. rewrite fmap_app. simpl.
      rewrite elem_of_app, list_elem_of_singleton. intros [Hin | ->].
      * eapply Hfresh; [apply elem_of_cons; right; exact Hc' | exact Ha' | exact Hin].
      * apply Hc. rewrite (Hinj c c' a Ha Ha'). done.
    + exists ((a, b) :: ps). rewrite Hps, <- app_assoc. split; [done|].
      constructor; [simpl; auto | done].
Qed.

Lemma exact_overlap_empty (cols1 cols2 : list label) :
  (list_to_set cols1 ∩ list_to_set cols2 : gset label) = ∅ <->
  forall c, c ∈ cols1 -> c ∈ cols2 -> False.
Proof.
  split.
  - intros He c H1 H2.
    assert (c ∈ (list_to_set cols1 ∩ list_to_set cols2 : gset label)) as Hc
      by (apply elem_of_intersection; rewrite !elem_of_list_to_set; done).
    rewrite He in Hc. set_solver.
  - intros Hno. apply set_eq. intros c.
    rewrite elem_of_intersection, !elem_of_list_to_set. split.
    + intros [H1 H2]. destruct (Hno c H1 H2).
    + intros Hc. set_solver.
Qed.

(** The case-insensitive pass on frames all of whose labels are strings:
    it pairs, for every lower-cased name found on both sides, the last
    column of [df1] with that lower-cased name with the last one of [df2]. *)
Lemma match_columns_fallback df1 df2 :
  (forall c, c ∈ columns df1 -> c ∈ columns df2 -> False) ->
  Forall is_str (columns df1) -> Forall is_str (columns df2) ->
  exists d,
    match_columns df1 df2 = Ok (SharedDict d) /\
    NoDup d.*1 /\
    forall a b, (a, b) ∈ d <->
      exists k, last_lower (columns df1) k a /\ last_lower (columns df2) k b.
Proof.
  intros Hno Hs1 Hs2. unfold match_columns.
  destruct (decide _) as [_|Hne]; [|destruct Hne; apply exact_overlap_empty, Hno].
  destruct (cols_lower_from_ok _ ∅ Hs1) as [m1 Hm1].
  destruct (cols_lower_from_ok _ ∅ Hs2) as [m2 Hm2].
  fold (cols_lower (columns df1)) in Hm1. fold (cols_lower (columns df2)) in Hm2.
  rewrite Hm1. simpl. rewrite Hm2. simpl.
  destruct (cols_lower_spec _ _ Hm1) as [_ Hspec1].
  destruct (cols_lower_spec _ _ Hm2) as [_ Hspec2].
  assert (Hinj : forall c c' a, m1 !! c = Some a -> m1 !! c' = Some a -> c = c').
  { intros c c' a Hc Hc'. apply Hspec1 in Hc, Hc'.
    destruct Hc as (? & s & ? & _ & -> & <- & _).
    destruct Hc' as (? & s' & ? & _ & Heq & <- & _). congruence. }
  destruct (pair_up_fresh m1 m2 (elements (dom m1 ∩ dom m2)) []) as (ps & Hps & Hall).
  - apply NoDup_elements.
  - intros c Hc. apply elem_of_elements, elem_of_intersection in Hc.
    rewrite !elem_of_dom in Hc. done.
  - done.
  - intros c a _ _ Hin. inversion Hin.
  - rewrite Hps. clear Hps. simpl. exists ps. split; [done|]. split.
    + assert (Hnd : NoDup (elements (dom m1 ∩ dom m2))) by apply NoDup_elements.
      revert Hnd. induction Hall as [|c p keys ps' [Hc1 Hc2] Hall IH]; intros Hnd.
      * constructor.
      * apply NoDup_cons in Hnd as [Hc Hnd]. simpl. apply NoDup_cons.
        split; [|auto]. intros Hin. apply Hc.
        apply list_elem_of_fmap in Hin as (q & Hq1 & Hq).
        apply list_elem_of_lookup in Hq as [i Hi].
        destruct (Forall2_lookup_r _ _ _ _ _ Hall Hi) as (c' & Hc' & Hq1' & _).
        rewrite <- Hq1 in Hq1'. rewrite (Hinj _ _ _ Hc1 Hq1').
        eapply list_elem_of_lookup_2; done.
    + intros a b. split.
      * intros Hin. apply list_elem_of_lookup in Hin as [i Hi].
        destruct (Forall2_lookup_r _ _ _ _ _ Hall Hi) as (c & _ & Ha & Hb).
        exists c. simpl in Ha, Hb. split; [apply Hspec1 | apply Hspec2]; done.
      * intros (k & Ha & Hb). apply Hspec1 in Ha. apply Hspec2 in Hb.
        assert (Hk : k ∈ elements (dom m1 ∩ dom m2)).
        { apply elem_of_elements, elem_of_intersection.
          rewrite !elem_of_dom, Ha, Hb. split; eauto. }
        apply list_elem_of_lookup in Hk as [i Hi].
        destruct (Forall2_lookup_l _ _ _ _ _ Hall Hi) as ([a' b'] & Hp & Ha' & Hb').
        simpl in Ha', Hb'. rewrite Ha in Ha'. rewrite Hb in Hb'.
        inversion Ha'; inversion Hb'; subst.
        eapply list_elem_of_lookup_2; done.
Qed.

(** The case-insensitive pass with a label that is not a string: the
    comprehension that reaches it raises. *)
Lemma match_columns_fallback_raises df1 df2 :
  (forall c, c ∈ columns df1 -> c ∈ columns df2 -> False) ->
  ~ (Forall is_str (columns df1) /\ Forall is_str (columns df2)) ->
  match_columns df1 df2 = Raise AttributeError.
Proof.
  intros Hno Hstr. unfold match_columns.
  destruct (decide _) as [_|Hne]; [|destruct Hne; apply exact_overlap_empty, Hno].
  destruct (decide (Forall is_str (columns df1))) as [H1|H1].
  - destruct (cols_lower_from_ok _ ∅ H1) as [m1 Hm1].
    fold (cols_lower (columns df1)) in Hm1. rewrite Hm1. simpl.
    unfold cols_lower. rewrite (cols_lower_from_raise (columns df2)) by tauto.
    reflexivity.
  - unfold cols_lower. rewrite (cols_lower_from_raise (columns df1)) by done.
    reflexivity.
Qed.

(** A [dict] comes from the case-insensitive pass only: no label is on
    both sides, and every label had a [.lower]. *)
Lemma match_columns_dict_inv df1 df2 d :
  match_columns df1 df2 = Ok (SharedDict d) ->
  (forall c, c ∈ columns df1 -> c ∈ columns df2 -> False) /\
  Forall is_str (columns df1) /\ Forall is_str (columns df2).
Proof.
  unfold match_columns. destruct (decide _) as [He|Hne]; [|discriminate].
  intros Hm. split; [apply exact_overlap_empty, He|].
  destruct (cols_lower (columns df1)) as [m1|e1] eqn:H1; [|discriminate].
  simpl in Hm.
  destruct (cols_lower (columns df2)) as [m2|e2] eqn:H2; [|discriminate].
  split; [eapply cols_lower_spec | eapply cols_lower_spec]; done.
Qed.

(** ** Normalisation and alignment *)

(** After [astype(str)] nothing is absent any more, so the [fillna] that
    follows finds nothing to fill. *)
Lemma normalize_astype s : normalize s = astype_str s.
Proof.
  unfold normalize, fillna, astype_str. rewrite <- list_fmap_compose. reflexivity.
Qed.

Lemma normalize_length s : length (normalize s) = length s.
Proof. rewrite normalize_astype. apply length_fmap. Qed.

Lemma normalize_lookup s i :
  normalize s !! i = (fun c => CStr (str c)) <$> (s !! i).
Proof. rewrite normalize_astype. apply list_lookup_fmap. Qed.

Lemma normalize_is_cstr s : Forall is_cstr (normalize s).
Proof.
  rewrite normalize_astype. unfold astype_str.
  induction s; simpl; constructor; simpl; auto.
Qed.

Lemma reindex_length n fill s : length (reindex n fill s) = n.
Proof. unfold reindex. rewrite length_fmap. apply length_seq. Qed.

Lemma reindex_lookup n fill s i :
  i < n -> reindex n fill s !! i = Some (default fill (s !! i)).
Proof.
  intros Hi. unfold reindex.
  rewrite list_lookup_fmap, lookup_seq_lt by done. reflexivity.
Qed.

(** Reindexing to a length the Series does not exceed appends the filler. *)
Lemma reindex_pad n fill s :
  length s <= n -> reindex n fill s = s ++ replicate (n - length s) fill.
Proof.
  intros Hn. apply list_eq. intros i.
  destruct (decide (i < n)) as [Hi|Hi].
  - rewrite reindex_lookup by done.
    destruct (decide (i < length s)) as [Hs|Hs].
    + rewrite lookup_app_l by done.
      destruct (lookup_lt_is_Some_2 s i Hs) as [x Hx]. rewrite Hx. reflexivity.
    + rewrite lookup_app_r by lia.
      rewrite (lookup_ge_None_2 s i) by lia. simpl.
      rewrite lookup_replicate_2 by lia. reflexivity.
  - rewrite !lookup_ge_None_2; [done | |].
    + rewrite length_app, length_replicate. lia.
    + rewrite reindex_length. lia.
Qed.

Lemma align_pad s1 s2 :
  align s1 s2 =
    (s1 ++ replicate (max (length s1) (length s2) - length s1) (CStr ""),
     s2 ++ replicate (max (length s1) (length s2) - length s2) (CStr "")).
Proof.
  unfold align. rewrite !reindex_pad by lia. reflexivity.
Qed.

Lemma align_is_cstr s1 s2 :
  Forall is_cstr s1 -> Forall is_cstr s2 ->
  Forall is_cstr (align s1 s2).1 /\ Forall is_cstr (align s1 s2).2.
Proof.
  intros H1 H2. rewrite align_pad. simpl.
  split; apply Forall_app; (split; [done|]); apply Forall_replicate; exact I.
Qed.

(** On two strings [!=] is string inequality: exact, with no folding of
    case or of white space. *)
Lemma cell_ne_str x y : cell_ne (CStr x) (CStr y) = true <-> x <> y.
Proof.
  unfold cell_ne. simpl. rewrite negb_true_iff, bool_decide_eq_false. done.
Qed.

Lemma cell_ne_cstr a b :
  is_cstr a -> is_cstr b -> (cell_ne a b = true <-> a <> b).
Proof.
  destruct a, b; simpl; try done. intros _ _.
  rewrite cell_ne_str. split; congruence.
Qed.

(** The rows that [.loc[s1 != s2]] keeps. *)
Lemma loc_ne_spec s1 : forall s2 k i a b,
  (i, a, b) ∈ loc_ne k s1 s2 <->
  exists j, i = k + j /\ s1 !! j = Some a /\ s2 !! j = Some b /\ cell_ne a b = true.
Proof.
  induction s1 as [|x s1 IH]; intros s2 k i a b; simpl.
  - split; [intros H; inversion H | intros (j & _ & H & _); discriminate].
  - destruct s2 as [|y s2].
    + split; [intros H; inversion H | intros (j & _ & _ & H & _); discriminate].
    + assert (Hrest : (i, a, b) ∈ loc_ne (S k) s1 s2 <->
        exists j, i = k + S j /\ s1 !! j = Some a /\ s2 !! j = Some b /\
                  cell_ne a b = true).
      { rewrite IH. split; intros (j & Hj & H); exists j; (split; [lia | done]). }
      destruct (cell_ne x y) eqn:Hxy.
      * rewrite elem_of_cons, Hrest. split.
        -- intros [Heq | (j & Hj & H)].
           ++ inversion Heq; subst. exists 0. rewrite Nat.add_0_r. done.
           ++ exists (S j). done.
        -- intros ([|j] & Hj & H1 & H2 & Hne); simpl in *.
           ++ left. inversion H1; inversion H2; subst. rewrite Nat.add_0_r. done.
           ++ right. exists j. done.
      * rewrite Hrest. split.
        -- intros (j & Hj & H). exists (S j). done.
        -- intros ([|j] & Hj & H1 & H2 & Hne); simpl in *.
           ++ inversion H1; inversion H2; subst. congruence.
           ++ exists j. done.
Qed.

Lemma loc_ne_refl s : forall k, Forall is_cstr s -> loc_ne k s s = [].
Proof.
  induction s as [|x s IH]; intros k Hs; simpl; [done|].
  inversion Hs as [|? ? Hx Hrest]; subst.
  destruct x; try destruct Hx.
  replace (cell_ne (CStr s0) (CStr s0)) with false; [auto|].
  symmetry. apply not_true_is_false. rewrite cell_ne_str. auto.
Qed.

(** The records of one column pair: the positions of the aligned,
    normalised columns at which the two strings differ. *)
Lemma column_mismatches_spec col c1 c2 m :
  m ∈ column_mismatches col c1 c2 <->
  exists i a b,
    m = Mismatch i a b col /\
    (align (normalize c1) (normalize c2)).1 !! i = Some a /\
    (align (normalize c1) (normalize c2)).2 !! i = Some b /\
    a <> b.
Proof.
  unfold column_mismatches.
  destruct (align_is_cstr (normalize c1) (normalize c2)) as [Hs1 Hs2];
    [apply normalize_is_cstr | apply normalize_is_cstr |].
  destruct (align (normalize c1) (normalize c2)) as [s1 s2]. simpl in *.
  rewrite list_elem_of_fmap. split.
  - intros ([[i a] b] & -> & Hin). apply loc_ne_spec in Hin as (j & -> & H1 & H2 & Hne).
    exists j, a, b. simpl. repeat split; try done.
    apply cell_ne_cstr;
      [exact (Forall_lookup_1 is_cstr _ _ _ Hs1 H1)
      |exact (Forall_lookup_1 is_cstr _ _ _ Hs2 H2) | done].
  - intros (i & a & b & -> & H1 & H2 & Hne). exists (i, a, b). split; [done|].
    apply loc_ne_spec. exists i. repeat split; try done.
    apply cell_ne_cstr;
      [exact (Forall_lookup_1 is_cstr _ _ _ Hs1 H1)
      |exact (Forall_lookup_1 is_cstr _ _ _ Hs2 H2) | done].
Qed.

Lemma zip_diag {A} (l : list A) : zip l l = (fun c => (c, c)) <$> l.
Proof. induction l as [|x l IH]; simpl; [done|]. rewrite IH. done. Qed.

(** Without a label on both sides and without a lower-cased name on both
    sides, frames with string labels give the empty report. *)
Lemma compare_no_shared_columns df_excel df_pdf :
  Forall is_str (columns df_excel) -> Forall is_str (columns df_pdf) ->
  (forall s1 s2, LStr s1 ∈ columns df_excel -> LStr s2 ∈ columns df_pdf ->
                 lower s1 <> lower s2) ->
  compare_dataframes_smart df_excel df_pdf = Ok [].
Proof.
  intros Hs1 Hs2 Hno.
  destruct (match_columns_fallback df_excel df_pdf) as (d & Hd & _ & Hpairs);
    [|done|done|].
  - intros c H1 H2. destruct c as [s|z].
    + apply (Hno s s); done.
    + rewrite Forall_forall in Hs1. apply (Hs1 _ H1).
  - assert (d = []) as ->.
    { destruct d as [|[a b] d]; [done|]. exfalso.
      destruct (proj1 (Hpairs a b)) as (k & Ha & Hb); [apply elem_of_cons; auto|].
      pose proof (last_lower_elem _ _ _ Ha) as Ha'.
      pose proof (last_lower_elem _ _ _ Hb) as Hb'.
      destruct Ha as (? & s1 & ? & _ & -> & Hk1 & _).
      destruct Hb as (? & s2 & ? & _ & -> & Hk2 & _).
      apply (Hno s1 s2); congruence. }
    unfold compare_dataframes_smart. rewrite Hd. reflexivity.
Qed.

(** ** The report *)

Lemma match_columns_set_inv df1 df2 S :
  match_columns df1 df2 = Ok (SharedSet S) ->
  S = list_to_set (columns df1) ∩ list_to_set (columns df2) /\ S <> ∅.
Proof.
  unfold match_columns. destruct (decide _) as [He|Hne].
  - destruct (cols_lower (columns df1)); simpl; [|discriminate].
    destruct (cols_lower (columns df2)); simpl; [|discriminate].
    destruct (pair_up _ _ _ _); simpl; discriminate.
  - intros [= <-]. done.
Qed.

Lemma getitem_unique (df : list (label * list cell)) c s :
  NoDup (columns df) -> (c, s) ∈ df -> getitem df c = Ok s.
Proof.
  unfold getitem, columns. intros Hnd Hin.
  assert (Hf : filter (fun col : label * list cell => col.1 = c) df = [(c, s)]).
  { induction df as [|[c' s'] df IH]; [inversion Hin|].
    simpl in Hnd. apply NoDup_cons in Hnd as [Hc' Hnd].
    apply elem_of_cons in Hin as [[= <- <-]|Hin].
    - rewrite filter_cons_True by done. f_equal.
      apply elem_of_nil_inv. intros [c2 s2] H2.
      apply list_elem_of_filter in H2 as [Heq H2]. simpl in Heq. subst c2.
      apply Hc', list_elem_of_fmap. exists (c, s2). done.
    - rewrite filter_cons_False; [auto|]. simpl. intros ->.
      apply Hc', list_elem_of_fmap. exists (c, s). done. }
  rewrite Hf. done.
Qed.

Lemma column_mismatches_refl col s : column_mismatches col s s = [].
Proof.
  unfold column_mismatches.
  destruct (align_is_cstr (normalize s) (normalize s)) as [Hs _];
    [apply normalize_is_cstr ..|].
  rewrite align_pad in *. simpl in *. rewrite loc_ne_refl by done. done.
Qed.

(** The loop of lines 36-45 when every label of the pairs is a column. *)
Lemma compare_loop_spec df1 df2 pairs : forall cols diffs,
  Forall2 (fun (p : label * label) (c : list cell * list cell) =>
             getitem df1 p.1 = Ok c.1 /\ getitem df2 p.2 = Ok c.2) pairs cols ->
  exists diffs',
    compare_loop df1 df2 pairs diffs = Ok diffs' /\
    concat diffs' =
      concat diffs ++
      concat (zip_with (fun (p : label * label) (c : list cell * list cell) =>
                          column_mismatches p.1 c.1 c.2) pairs cols).
Proof.
  induction pairs as [|[ce cp] pairs IH]; intros cols diffs Hall.
  - inversion Hall; subst. exists diffs. simpl. rewrite app_nil_r. done.
  - inversion Hall as [|? [s1 s2] ? cols' [H1 H2] Hrest]; subst.
    simpl in H1, H2. cbn [compare_loop]. rewrite H1. simpl. rewrite H2. simpl.
    destruct (IH cols' (match column_mismatches ce s1 s2 with
                        | [] => diffs
                        | _ :: _ => diffs ++ [column_mismatches ce s1 s2]
                        end) Hrest) as (diffs' & Hd & Hc).
    exists diffs'. split; [done|]. rewrite Hc, app_assoc. f_equal.
    destruct (column_mismatches ce s1 s2); simpl.
    + rewrite app_nil_r. done.
    + rewrite concat_app. simpl. rewrite app_nil_r. done.
Qed.

(** The columns that the pairs of a match select, in frames with distinct
    labels. *)
Lemma column_pairs_selected df1 df2 sc :
  NoDup (columns df1) -> NoDup (columns df2) ->
  match_columns df1 df2 = Ok sc ->
  exists cols : list (list cell * list cell),
    Forall2 (fun (p : label * label) (c : list cell * list cell) =>
               (p.1, c.1) ∈ df1 /\ (p.2, c.2) ∈ df2) (column_pairs sc) cols.
Proof.
  intros Hn1 Hn2 Hsc.
  assert (Hin : forall a b, (a, b) ∈ column_pairs sc ->
                            a ∈ columns df1 /\ b ∈ columns df2).
  { intros a b Hab. destruct sc as [S|d].
    - destruct (match_columns_set_inv _ _ _ Hsc) as [-> _]. simpl in Hab.
      rewrite zip_diag in Hab. apply list_elem_of_fmap in Hab as (x & [= -> ->] & Hx).
      apply elem_of_elements, elem_of_intersection in Hx.
      rewrite !elem_of_list_to_set in Hx. done.
    - destruct (match_columns_dict_inv _ _ _ Hsc) as (Hno & H1 & H2).
      destruct (match_columns_fallback df1 df2 Hno H1 H2) as (d0 & Hd0 & _ & Hp).
      rewrite Hsc in Hd0. inversion Hd0; subst d0. simpl in Hab.
      apply Hp in Hab as (k & Ha & Hb).
      split; eapply last_lower_elem; done. }
  induction (column_pairs sc) as [|[a b] pairs IH].
  - exists []. constructor.
  - destruct IH as [cols Hcols].
    { intros a' b' H. apply Hin, elem_of_cons. auto. }
    destruct (Hin a b) as [Ha Hb]; [apply elem_of_cons; auto|].
    apply list_elem_of_fmap in Ha as ([a' s1] & Heq1 & Hs1).
    apply list_elem_of_fmap in Hb as ([b' s2] & Heq2 & Hs2).
    simpl in Heq1, Heq2. subst a' b'.
    exists ((s1, s2) :: cols). constructor; done.
Qed.

Lemma compare_report df_excel df_pdf sc :
  NoDup (columns df_excel) -> NoDup (columns df_pdf) ->
  match_columns df_excel df_pdf = Ok sc ->
  exists cols : list (list cell * list cell),
    Forall2 (fun (p : label * label) (c : list cell * list cell) =>
               (p.1, c.1) ∈ df_excel /\ (p.2, c.2) ∈ df_pdf) (column_pairs sc) cols /\
    compare_dataframes_smart df_excel df_pdf =
      Ok (concat (zip_with (fun (p : label * label) (c : list cell * list cell) =>
                              column_mismatches p.1 c.1 c.2) (column_pairs sc) cols)).
Proof.
  intros Hn1 Hn2 Hsc.
  destruct (column_pairs_selected _ _ _ Hn1 Hn2 Hsc) as [cols Hcols].
  exists cols. split; [done|].
  destruct (compare_loop_spec df_excel df_pdf (column_pairs sc) cols []) as (diffs & Hd & Hc).
  { eapply Forall2_impl; [exact Hcols|]. intros p c [H1 H2].
    split; apply getitem_unique; done. }
  unfold compare_dataframes_smart. rewrite Hsc. simpl. rewrite Hd. simpl.
  simpl in Hc. rewrite <- Hc. destruct diffs; done.
Qed.

Lemma elem_of_unique_column (df : list (label * list cell)) c s1 s2 :
  NoDup (columns df) -> (c, s1) ∈ df -> (c, s2) ∈ df -> s1 = s2.
Proof.
  intros Hnd H1 H2.
  pose proof (getitem_unique df c s1 Hnd H1) as G1.
  pose proof (getitem_unique df c s2 Hnd H2) as G2.
  congruence.
Qed.

Lemma fst_unique {A B} (l : list (A * B)) x y1 y2 :
  NoDup l.*1 -> (x, y1) ∈ l -> (x, y2) ∈ l -> y1 = y2.
Proof.
  induction l as [|[a b] l IH]; intros Hnd H1 H2; [inversion H1|].
  simpl in Hnd. apply NoDup_cons in Hnd as [Ha Hnd].
  assert (Hout : forall y, (a, y) ∈ l -> False).
  { intros y Hy. apply Ha, list_elem_of_fmap. exists (a, y). done. }
  apply elem_of_cons in H1 as [[= -> ->]|H1]; apply elem_of_cons in H2 as [[= ->]|H2].
  - done.
  - destruct (Hout _ H2).
  - subst. destruct (Hout _ H1).
  - apply IH; done.
Qed.

(** The pairs that the loop runs over have distinct first components. *)
Lemma column_pairs_keys df1 df2 sc :
  match_columns df1 df2 = Ok sc -> NoDup (column_pairs sc).*1.
Proof.
  intros Hsc. destruct sc as [S|d]; simpl.
  - rewrite zip_diag.
    replace (((fun c : label => (c, c)) <$> elements S).*1) with (elements S);
      [apply NoDup_elements|].
    induction (elements S) as [|x l IH]; [done|]. simpl. f_equal. exact IH.
  - destruct (match_columns_dict_inv _ _ _ Hsc) as (Hno & H1 & H2).
    destruct (match_columns_fallback df1 df2 Hno H1 H2) as (d0 & Hd0 & Hnd & _).
    rewrite Hsc in Hd0. inversion Hd0; subst. done.
Qed.

Lemma elem_of_concat_zip_with {A B C} (f : A -> B -> list C) (l : list A) :
  forall (k : list B) x,
    x ∈ concat (zip_with f l k) <->
    exists i a b, l !! i = Some a /\ k !! i = Some b /\ x ∈ f a b.
Proof.
  induction l as [|a l IH]; intros [|b k] x; simpl.
  - split; [intros H; inversion H | intros (i & ? & ? & H & _); discriminate].
  - split; [intros H; inversion H | intros (i & ? & ? & H & _); discriminate].
  - split; [intros H; inversion H | intros (i & ? & ? & _ & H & _); discriminate].
  - rewrite elem_of_app, IH. split.
    + intros [H|(i & a' & b' & H1 & H2 & H3)].
      * exists 0, a, b. done.
      * exists (S i), a', b'. done.
    + intros ([|i] & a' & b' & H1 & H2 & H3); simpl in *.
      * left. congruence.
      * right. exists i, a', b'. done.
Qed.

(** The records of the report are those of the matched column pairs. *)
Lemma report_records df_excel df_pdf sc :
  NoDup (columns df_excel) -> NoDup (columns df_pdf) ->
  match_columns df_excel df_pdf = Ok sc ->
  exists report,
    compare_dataframes_smart df_excel df_pdf = Ok report /\
    forall m, m ∈ report <->
      exists col_excel col_pdf c1 c2,
        (col_excel, col_pdf) ∈ column_pairs sc /\
        (col_excel, c1) ∈ df_excel /\ (col_pdf, c2) ∈ df_pdf /\
        m ∈ column_mismatches col_excel c1 c2.
Proof.
  intros Hn1 Hn2 Hsc.
  destruct (compare_report _ _ _ Hn1 Hn2 Hsc) as (cols & Hcols & Hreport).
  eexists. split; [exact Hreport|]. intros m.
  rewrite elem_of_concat_zip_with. split.
  - intros (i & [ce cp] & [s1 s2] & Hp & Hc & Hm).
    destruct (Forall2_lookup_lr _ _ _ _ _ _ Hcols Hp Hc) as [H1 H2]. simpl in *.
    exists ce, cp, s1, s2. split; [|done].
    eapply list_elem_of_lookup_2. done.
  - intros (ce & cp & c1 & c2 & Hp & H1 & H2 & Hm).
    apply list_elem_of_lookup_1 in Hp as [i Hp].
    destruct (Forall2_lookup_l _ _ _ _ _ Hcols Hp) as ([s1 s2] & Hc & G1 & G2).
    simpl in *.
    rewrite (elem_of_unique_column _ _ _ _ Hn1 H1 G1) in Hm.
    rewrite (elem_of_unique_column _ _ _ _ Hn2 H2 G2) in Hm.
    exists i, (ce, cp), (s1, s2). done.
Qed.

(** The records of a column pair are exactly the positions at which the
    aligned, normalised strings differ. *)
Lemma column_mismatches_strings col c1 c2 m :
  m ∈ column_mismatches col c1 c2 <->
  exists i x y,
    m = Mismatch i (CStr x) (CStr y) col /\
    (align (normalize c1) (normalize c2)).1 !! i = Some (CStr x) /\
    (align (normalize c1) (normalize c2)).2 !! i = Some (CStr y) /\
    x <> y.
Proof.
  destruct (align_is_cstr (normalize c1) (normalize c2)) as [Hs1 Hs2];
    [apply normalize_is_cstr | apply normalize_is_cstr |].
  rewrite column_mismatches_spec. split.
  - intros (i & a & b & -> & H1 & H2 & Hne).
    pose proof (Forall_lookup_1 is_cstr _ _ _ Hs1 H1) as Ha.
    pose proof (Forall_lookup_1 is_cstr _ _ _ Hs2 H2) as Hb.
    destruct a as [x| | | |]; try destruct Ha.
    destruct b as [y| | | |]; try destruct Hb.
    exists i, x, y. repeat split; try done. congruence.
  - intros (i & x & y & -> & H1 & H2 & Hne).
    exists i, (CStr x), (CStr y). repeat split; try done. congruence.
Qed.

(** * The claims of the specification *)

(** Scenarios 1 and 2 of the specification. *)
Example scenario_1 :
  compare_dataframes_smart name_A name_B
  = Ok [Mismatch 1 (CStr "Bob") (CStr "Bobby") (LStr "Name")].
Proof. vm_compute. reflexivity. Qed.

Example scenario_2 :
  match_columns total_A [(LStr "total", [CStr "10"])]
    = Ok (SharedDict [(LStr "Total", LStr "total")]) /\
  compare_dataframes_smart total_A [(LStr "total", [CStr "10"])] = Ok [].
Proof. split; vm_compute; reflexivity. Qed.

(** C1.  The claim: an absent cell normalises to the empty string, in the
    comparison and in the flattened spreadsheet text.  The code converts to
    strings before it fills: an absent cell has become the string ["nan"]
    (or ["None"]) when [fillna] runs, so [fillna] changes nothing, the
    token is compared against the other side and is written into the text. *)
Theorem absent_cell_keeps_its_token :
  (forall s, normalize s = astype_str s) /\
  normalize [CNaN; CNone] = [CStr "nan"; CStr "None"] /\
  compare_dataframes_smart blank_A blank_B
    = Ok [Mismatch 1 (CStr "nan") (CStr "") (LStr "X")] /\
  excel_text blank_A = Ok ("a" +:+ newline +:+ "nan").
Proof.
  split; [exact normalize_astype|].
  repeat split; vm_compute; reflexivity.
Qed.

(** C2.  When the two frames share a label, [match_columns] returns the
    set of the shared labels, which is not empty, it returns it whatever the
    labels are (the case-insensitive pass, which needs [.lower], does not
    run), and the loop pairs every shared label with itself. *)
Theorem match_columns_exact df1 df2 :
  (exists c, c ∈ columns df1 /\ c ∈ columns df2) ->
  exists S : gset label,
    match_columns df1 df2 = Ok (SharedSet S) /\
    (forall c, c ∈ S <-> c ∈ columns df1 /\ c ∈ columns df2) /\
    column_pairs (SharedSet S) = (fun c => (c, c)) <$> elements S /\
    (forall a b, (a, b) ∈ column_pairs (SharedSet S) <-> a = b /\ a ∈ S).
Proof.
  intros (c & H1 & H2). unfold match_columns.
  set (S := (list_to_set (columns df1) ∩ list_to_set (columns df2) : gset label)).
  assert (HS : forall c, c ∈ S <-> c ∈ columns df1 /\ c ∈ columns df2).
  { intros c'. unfold S. rewrite elem_of_intersection, !elem_of_list_to_set. done. }
  destruct (decide (S = ∅)) as [He|Hne].
  - exfalso. assert (c ∈ S) as Hc by (apply HS; done).
    rewrite He in Hc. exact (not_elem_of_empty c Hc).
  - exists S. split; [done|]. split; [done|]. simpl. rewrite zip_diag.
    split; [done|]. intros a b. rewrite list_elem_of_fmap. split.
    + intros (x & Heq & Hx). inversion Heq; subst.
      split; [done|]. apply elem_of_elements. done.
    + intros [-> Hb]. exists b. split; [done|]. apply elem_of_elements. done.
Qed.

Lemma match_columns_exact_witness :
  exists S : gset label,
    match_columns name_A name_B = Ok (SharedSet S) /\
    (forall c, c ∈ S <-> c ∈ columns name_A /\ c ∈ columns name_B) /\
    column_pairs (SharedSet S) = (fun c => (c, c)) <$> elements S /\
    (forall a b, (a, b) ∈ column_pairs (SharedSet S) <-> a = b /\ a ∈ S).
Proof.
  apply (match_columns_exact name_A name_B).
  exists (LStr "Name"). split; simpl; apply elem_of_cons; left; reflexivity.
Defined.

(** C3.  The claim: with no label on both sides and a lower-cased name on
    both, [match_columns] maps the column of A to the column of B.  It does
    so for the frames of scenario 2; with a column labelled by a number on
    either side, which the code itself produces for a single-row table,
    [c.lower()] raises [AttributeError] and no mapping is returned. *)
Theorem fallback_raises_on_number_label :
  match_columns total_A [(LStr "total", [CStr "10"])]
    = Ok (SharedDict [(LStr "Total", LStr "total")]) /\
  match_columns total_A total_B_int = Raise AttributeError.
Proof. split; vm_compute; reflexivity. Qed.

(** C4.  The two normalised columns are brought to the longer length with
    the empty string as filler, the records pair the two values of one
    position, and for ["1","2","3"] against ["1","2"] the report is the
    single record of row 2 with the values ["3"] and [""]. *)
Theorem positional_alignment :
  (forall col c1 c2,
     let n := max (length c1) (length c2) in
     let s1 := normalize c1 ++ replicate (n - length c1) (CStr "") in
     let s2 := normalize c2 ++ replicate (n - length c2) (CStr "") in
     align (normalize c1) (normalize c2) = (s1, s2) /\
     length s1 = n /\ length s2 = n /\
     forall m, m ∈ column_mismatches col c1 c2 ->
       s1 !! idx m = Some (Excel m) /\ s2 !! idx m = Some (PDF m)) /\
  compare_dataframes_smart x_A x_B
    = Ok [Mismatch 2 (CStr "3") (CStr "") (LStr "X")].
Proof.
  split; [|vm_compute; reflexivity].
  intros col c1 c2 n s1 s2.
  assert (Hal : align (normalize c1) (normalize c2) = (s1, s2)).
  { rewrite align_pad, !normalize_length. reflexivity. }
  split; [done|]. unfold s1, s2.
  rewrite !length_app, !length_replicate, !normalize_length.
  split; [lia|]. split; [lia|].
  intros m Hm. apply column_mismatches_spec in Hm as (i & a & b & -> & H1 & H2 & _).
  rewrite Hal in H1, H2. simpl in *. done.
Qed.

Lemma positional_alignment_witness :
  (normalize [CStr "1"; CStr "2"; CStr "3"] ++ replicate 0 (CStr "")) !! 2
    = Some (CStr "3") /\
  (normalize [CStr "1"; CStr "2"] ++ replicate 1 (CStr "")) !! 2
    = Some (CStr "").
Proof.
  apply (proj2 (proj2 (proj2 (proj1 positional_alignment (LStr "X")
           [CStr "1"; CStr "2"; CStr "3"] [CStr "1"; CStr "2"])))
           (Mismatch 2 (CStr "3") (CStr "") (LStr "X"))).
  vm_compute. apply elem_of_cons. left. reflexivity.
Defined.

(** C5.  Whenever the columns are matched, in frames with distinct
    labels, the comparison returns a report, and a record is in the report
    exactly when it is, for a matched column pair, a position at which the
    aligned, normalised strings of the two columns differ, with the two
    strings and the label of the spreadsheet column; a matched pair whose
    aligned, normalised columns are equal has no record in the report, and
    so for a pair of columns without rows. *)
Theorem mismatches_only df_excel df_pdf sc :
  NoDup (columns df_excel) -> NoDup (columns df_pdf) ->
  match_columns df_excel df_pdf = Ok sc ->
  exists report,
    compare_dataframes_smart df_excel df_pdf = Ok report /\
    (forall m, m ∈ report <->
       exists col_excel col_pdf c1 c2 i x y,
         (col_excel, col_pdf) ∈ column_pairs sc /\
         (col_excel, c1) ∈ df_excel /\ (col_pdf, c2) ∈ df_pdf /\
         m = Mismatch i (CStr x) (CStr y) col_excel /\
         (align (normalize c1) (normalize c2)).1 !! i = Some (CStr x) /\
         (align (normalize c1) (normalize c2)).2 !! i = Some (CStr y) /\
         x <> y) /\
    (forall col_excel col_pdf c1 c2,
       (col_excel, col_pdf) ∈ column_pairs sc ->
       (col_excel, c1) ∈ df_excel -> (col_pdf, c2) ∈ df_pdf ->
       (align (normalize c1) (normalize c2)).1 = (align (normalize c1) (normalize c2)).2 ->
       forall m, m ∈ report -> Column m <> col_excel) /\
    (forall col_excel col_pdf,
       (col_excel, col_pdf) ∈ column_pairs sc ->
       (col_excel, []) ∈ df_excel -> (col_pdf, []) ∈ df_pdf ->
       forall m, m ∈ report -> Column m <> col_excel).
Proof.
  intros Hn1 Hn2 Hsc.
  destruct (report_records _ _ _ Hn1 Hn2 Hsc) as (report & Hreport & Hin).
  exists report. split; [exact Hreport|].
  assert (Hiff : forall m, m ∈ report <->
    exists col_excel col_pdf c1 c2 i x y,
      (col_excel, col_pdf) ∈ column_pairs sc /\
      (col_excel, c1) ∈ df_excel /\ (col_pdf, c2) ∈ df_pdf /\
      m = Mismatch i (CStr x) (CStr y) col_excel /\
      (align (normalize c1) (normalize c2)).1 !! i = Some (CStr x) /\
      (align (normalize c1) (normalize c2)).2 !! i = Some (CStr y) /\
      x <> y).
  { intros m. rewrite Hin. split.
    - intros (ce & cp & c1 & c2 & Hp & H1 & H2 & Hm).
      apply column_mismatches_strings in Hm as (i & x & y & Hm).
      exists ce, cp, c1, c2, i, x, y. done.
    - intros (ce & cp & c1 & c2 & i & x & y & Hp & H1 & H2 & Hm).
      exists ce, cp, c1, c2. split; [done|]. split; [done|]. split; [done|].
      apply column_mismatches_strings. exists i, x, y. done. }
  assert (Hequal : forall col_excel col_pdf c1 c2,
    (col_excel, col_pdf) ∈ column_pairs sc ->
    (col_excel, c1) ∈ df_excel -> (col_pdf, c2) ∈ df_pdf ->
    (align (normalize c1) (normalize c2)).1 = (align (normalize c1) (normalize c2)).2 ->
    forall m, m ∈ report -> Column m <> col_excel).
  { intros ce cp c1 c2 Hp H1 H2 Heq m Hm Hcol.
    apply Hiff in Hm as (ce' & cp' & c1' & c2' & i & x & y & Hp' & H1' & H2' & -> & Hx & Hy & Hne).
    simpl in Hcol. subst ce'.
    pose proof (fst_unique _ _ _ _ (column_pairs_keys _ _ _ Hsc) Hp Hp') as <-.
    rewrite <- (elem_of_unique_column _ _ _ _ Hn1 H1 H1') in Hx, Hy.
    rewrite <- (elem_of_unique_column _ _ _ _ Hn2 H2 H2') in Hx, Hy.
    rewrite Heq in Hx. congruence. }
  split; [exact Hiff|]. split; [exact Hequal|].
  intros ce cp Hp H1 H2. apply (Hequal ce cp [] []); done.
Qed.

Lemma mismatches_only_witness :
  exists report,
    compare_dataframes_smart total_A [(LStr "total", [CStr "11"])] = Ok report /\
    Mismatch 0 (CStr "10") (CStr "11") (LStr "Total") ∈ report.
Proof.
  destruct (mismatches_only total_A [(LStr "total", [CStr "11"])]
              (SharedDict [(LStr "Total", LStr "total")]))
    as (report & Hreport & Hiff & _).
  - repeat constructor. intros H. inversion H.
  - repeat constructor. intros H. inversion H.
  - vm_compute. reflexivity.
  - exists report. split; [exact Hreport|]. apply Hiff.
    exists (LStr "Total"), (LStr "total"), [CStr "10"], [CStr "11"], 0, "10", "11".
    repeat split; try (apply elem_of_cons; left; reflexivity); discriminate.
Defined.

(** C6.  The claim: without shared or matchable columns the comparison
    returns the empty report and raises nothing.  The table of a document
    with a single row has its columns labelled [0, 1, ...]; against a
    spreadsheet it shares no label with, the case-insensitive pass calls
    [.lower()] on the number and the comparison raises [AttributeError]. *)
Theorem no_shared_columns_raises_on_number_label :
  compare_dataframes_smart
    [(LStr "Amount", [CStr "10"])]
    [(LInt 0, [CStr "Amount"]); (LInt 1, [CStr "10"])]
  = Raise AttributeError.
Proof. vm_compute. reflexivity. Qed.

(** C7, as stated, fails: for ["1","2","3"] against ["1","2"] the only
    record is the one of row 2, rows 0 and 1 have none. *)
Lemma indices_do_not_cover :
  ~ indices_cover (max 3 2) (LStr "X")
      [CStr "1"; CStr "2"; CStr "3"] [CStr "1"; CStr "2"].
Proof.
  intros H. specialize (H 0 ltac:(simpl; lia)). vm_compute in H.
  apply list_elem_of_singleton in H. discriminate.
Qed.

(** C7, amended.  For a column pair, of unequal length in particular, the
    comparison runs over the positions below the longer length: the row
    index of every record is below it, a position beyond the shorter column
    holds the empty-string filler on the shorter side, and it gives a
    record exactly when the string of the longer side there is not empty. *)
Theorem unequal_length_range col c1 c2 :
  (forall m, m ∈ column_mismatches col c1 c2 ->
     idx m < max (length c1) (length c2)) /\
  (forall i c, length c2 <= i -> c1 !! i = Some c ->
     (align (normalize c1) (normalize c2)).2 !! i = Some (CStr "") /\
     (Mismatch i (CStr (str c)) (CStr "") col ∈ column_mismatches col c1 c2
      <-> str c <> "")) /\
  (forall i c, length c1 <= i -> c2 !! i = Some c ->
     (align (normalize c1) (normalize c2)).1 !! i = Some (CStr "") /\
     (Mismatch i (CStr "") (CStr (str c)) col ∈ column_mismatches col c1 c2
      <-> str c <> "")).
Proof.
  assert (Hpad : forall (s t : list cell) i c, length t <= i -> s !! i = Some c ->
    (normalize s ++ replicate (max (length (normalize s)) (length (normalize t))
        - length (normalize s)) (CStr "")) !! i = Some (CStr (str c)) /\
    (normalize t ++ replicate (max (length (normalize s)) (length (normalize t))
        - length (normalize t)) (CStr "")) !! i = Some (CStr "") /\
    (normalize t ++ replicate (max (length (normalize t)) (length (normalize s))
        - length (normalize t)) (CStr "")) !! i = Some (CStr "")).
  { intros s t i c Hi Hc. pose proof (lookup_lt_Some _ _ _ Hc) as Hlt.
    rewrite !normalize_length. split; [|split].
    - rewrite lookup_app_l by (rewrite normalize_length; done).
      rewrite normalize_lookup, Hc. reflexivity.
    - rewrite lookup_app_r by (rewrite normalize_length; done).
      rewrite normalize_length. apply lookup_replicate_2. lia.
    - rewrite lookup_app_r by (rewrite normalize_length; done).
      rewrite normalize_length. apply lookup_replicate_2. lia. }
  split; [|split].
  - intros m Hm. apply column_mismatches_spec in Hm as (i & a & b & -> & H1 & _).
    apply lookup_lt_Some in H1. rewrite align_pad in H1. simpl in *.
    rewrite length_app, length_replicate, !normalize_length in H1. lia.
  - intros i c Hi Hc. destruct (Hpad c1 c2 i c Hi Hc) as (H1 & H2 & _).
    rewrite align_pad. simpl. split; [done|].
    rewrite column_mismatches_spec, align_pad. simpl. split.
    + intros (j & a & b & Heq & Ha & Hb & Hne). inversion Heq; subst.
      congruence.
    + intros Hne. exists i, (CStr (str c)), (CStr ""). repeat split; try done.
      congruence.
  - intros i c Hi Hc. destruct (Hpad c2 c1 i c Hi Hc) as (H1 & _ & H2).
    rewrite Nat.max_comm in H1.
    rewrite align_pad. simpl. split; [done|].
    rewrite column_mismatches_spec, align_pad. simpl. split.
    + intros (j & a & b & Heq & Ha & Hb & Hne). inversion Heq; subst.
      congruence.
    + intros Hne. exists i, (CStr ""), (CStr (str c)). repeat split; try done.
      congruence.
Qed.

Lemma unequal_length_range_witness :
  (align (normalize [CStr "1"; CStr "2"; CStr "3"])
         (normalize [CStr "1"; CStr "2"])).2 !! 2 = Some (CStr "") /\
  (Mismatch 2 (CStr (str (CStr "3"))) (CStr "") (LStr "X")
     ∈ column_mismatches (LStr "X") [CStr "1"; CStr "2"; CStr "3"] [CStr "1"; CStr "2"]
   <-> str (CStr "3") <> "").
Proof.
  apply (proj1 (proj2 (unequal_length_range (LStr "X")
           [CStr "1"; CStr "2"; CStr "3"] [CStr "1"; CStr "2"])) 2 (CStr "3")).
  - simpl. lia.
  - reflexivity.
Defined.

(** C10.  Whenever the case-insensitive pass returns a mapping, and it
    does so whenever it is reached with string labels, the mapping pairs,
    for each lower-cased name found on both sides, the last column of the
    first frame with that lower-cased name with the last such column of the
    second frame: of several columns that differ in case only, the one
    that comes last in the column order of its frame is used. *)
Theorem fallback_last_occurrence df1 df2 :
  ((forall c, c ∈ columns df1 -> c ∈ columns df2 -> False) ->
   Forall is_str (columns df1) -> Forall is_str (columns df2) ->
   exists d, match_columns df1 df2 = Ok (SharedDict d)) /\
  (forall d, match_columns df1 df2 = Ok (SharedDict d) ->
     forall a b, (a, b) ∈ d <->
       exists k, last_lower (columns df1) k a /\ last_lower (columns df2) k b).
Proof.
  split.
  - intros Hno Hs1 Hs2.
    destruct (match_columns_fallback df1 df2 Hno Hs1 Hs2) as (d & Hd & _).
    eauto.
  - intros d Hd.
    destruct (match_columns_dict_inv _ _ _ Hd) as (Hno & Hs1 & Hs2).
    destruct (match_columns_fallback df1 df2 Hno Hs1 Hs2) as (d' & Hd' & _ & Hpairs).
    rewrite Hd in Hd'. inversion Hd'; subst. exact Hpairs.
Qed.

Lemma fallback_last_occurrence_witness :
  match_columns case_A case_B = Ok (SharedDict [(LStr "TOTAL", LStr "ToTal")]) /\
  exists k, last_lower (columns case_A) k (LStr "TOTAL") /\
            last_lower (columns case_B) k (LStr "ToTal").
Proof.
  assert (Hd : match_columns case_A case_B
               = Ok (SharedDict [(LStr "TOTAL", LStr "ToTal")]))
    by (vm_compute; reflexivity).
  split; [exact Hd|].
  apply (proj1 (proj2 (fallback_last_occurrence case_A case_B) _ Hd
                  (LStr "TOTAL") (LStr "ToTal"))).
  apply elem_of_cons. left. reflexivity.
Defined.

(** ** CSV export *)

Lemma decode_encode_utf8 s : decode_utf8 (encode_utf8 s) = Some s.
Proof.
  induction s as [|c s IH]; [reflexivity|].
  change (encode_utf8 (String c s)) with (encode_char c ++ encode_utf8 s).
  destruct c as [[] [] [] [] [] [] [] []].
  all: match goal with
       | |- context [encode_char ?c] =>
           let l := eval vm_compute in (encode_char c) in
           change (encode_char c) with l
       end.
  all: cbn -[encode_utf8]; rewrite IH; reflexivity.
Qed.

(** *** The frame of the report *)

Lemma select_loc_ne (s1 : list cell) : forall s2 i,
  select (ne s1 s2) (seq i (length s1))
    = (fun t : nat * cell * cell => t.1.1) <$> loc_ne i s1 s2 /\
  select (ne s1 s2) s1 = (fun t : nat * cell * cell => t.1.2) <$> loc_ne i s1 s2 /\
  select (ne s1 s2) s2 = (fun t : nat * cell * cell => t.2) <$> loc_ne i s1 s2.
Proof.
  induction s1 as [|a s1 IH]; intros [|b s2] i; try done.
  destruct (IH s2 (S i)) as (H1 & H2 & H3).
  unfold ne in *. cbn [zip_with length seq select loc_ne].
  destruct (cell_ne a b); cbn [fmap list_fmap fst snd]; rewrite H1, H2, H3; done.
Qed.

(** Line 44 on a frame with rows. *)
Lemma setitem_records col (L : list (nat * cell * cell)) :
  L <> [] ->
  setitem (IFrame ((fun t : nat * cell * cell => t.1.1) <$> L)
             [(LStr "Excel", (fun t : nat * cell * cell => t.1.2) <$> L);
              (LStr "PDF", (fun t : nat * cell * cell => t.2) <$> L)])
    (LStr "Column") (cell_of_label col)
  = frame_of_records ((fun '(i, a, b) => Mismatch i a b col) <$> L).
Proof.
  intros HL. set (mk := fun '(i, a, b) => Mismatch i a b col).
  assert (Hrec : frame_of_records (mk <$> L)
               = IFrame (idx <$> (mk <$> L))
                   [(LStr "Excel", Excel <$> (mk <$> L));
                    (LStr "PDF", PDF <$> (mk <$> L));
                    (LStr "Column", (fun m => cell_of_label (Column m)) <$> (mk <$> L))]).
  { destruct L; done. }
  assert (H1 : (fun t : nat * cell * cell => t.1.1) <$> L = idx <$> (mk <$> L)).
  { rewrite <- list_fmap_compose. apply list_fmap_ext. intros ? [[i a] b] _. done. }
  assert (H2 : (fun t : nat * cell * cell => t.1.2) <$> L = Excel <$> (mk <$> L)).
  { rewrite <- list_fmap_compose. apply list_fmap_ext. intros ? [[i a] b] _. done. }
  assert (H3 : (fun t : nat * cell * cell => t.2) <$> L = PDF <$> (mk <$> L)).
  { rewrite <- list_fmap_compose. apply list_fmap_ext. intros ? [[i a] b] _. done. }
  assert (H4 : replicate (length ((fun t : nat * cell * cell => t.1.1) <$> L))
                 (cell_of_label col)
               = (fun m => cell_of_label (Column m)) <$> (mk <$> L)).
  { rewrite <- list_fmap_compose, length_fmap. symmetry. apply const_fmap.
    intros ? [[i a] b] _. done. }
  rewrite Hrec. unfold setitem. cbn [index data].
  rewrite bool_decide_false.
  2: { unfold columns. cbn [fmap list_fmap fst]. intros H.
       apply elem_of_cons in H as [H|H]; [discriminate|].
       apply elem_of_cons in H as [H|H]; [discriminate|]. inversion H. }
  rewrite H4, H1, H2, H3. reflexivity.
Qed.

(** The frame of a column pair, with the column that line 44 adds, has
    the records of the pair as its rows. *)
Lemma mismatches_frame_records col c1 c2 :
  frame_empty (mismatches_frame c1 c2)
    = bool_decide (column_mismatches col c1 c2 = []) /\
  (column_mismatches col c1 c2 <> [] ->
   setitem (mismatches_frame c1 c2) (LStr "Column") (cell_of_label col)
   = frame_of_records (column_mismatches col c1 c2)).
Proof.
  unfold mismatches_frame, column_mismatches.
  destruct (align (normalize c1) (normalize c2)) as [s1 s2].
  destruct (select_loc_ne s1 s2 0) as (H1 & H2 & H3).
  unfold loc, frame_of_dict. cbn [index data nrows fmap list_fmap fst snd].
  rewrite H1, H2, H3.
  destruct (loc_ne 0 s1 s2) as [|t L] eqn:HL; [split; done|].
  split; [done|]. intros _. apply setitem_records. done.
Qed.

Lemma compare_loop_frame_records df1 df2 pairs : forall diffs : list (list mismatch),
  compare_loop_frame df1 df2 pairs (frame_of_records <$> diffs)
  = match compare_loop df1 df2 pairs diffs with
    | Ok ds => Ok (frame_of_records <$> ds)
    | Raise e => Raise e
    end.
Proof.
  induction pairs as [|[ce cp] pairs IH]; intros diffs; [done|].
  cbn [compare_loop_frame compare_loop].
  destruct (getitem df1 ce) as [c1|e]; [|done].
  destruct (getitem df2 cp) as [c2|e]; [|done].
  cbn [mbind result_bind].
  destruct (mismatches_frame_records ce c1 c2) as [He Hr]. rewrite He.
  destruct (column_mismatches ce c1 c2) as [|m r] eqn:Hm.
  - rewrite bool_decide_true by done. apply IH.
  - rewrite bool_decide_false by done. rewrite Hr by done.
    rewrite <- IH, fmap_app. done.
Qed.

Lemma compare_loop_nonempty df1 df2 pairs : forall diffs ds,
  compare_loop df1 df2 pairs diffs = Ok ds ->
  Forall (fun r : list mismatch => r <> []) diffs ->
  Forall (fun r : list mismatch => r <> []) ds.
Proof.
  induction pairs as [|[ce cp] pairs IH]; intros diffs ds Hrun Hall.
  - inversion Hrun; subst. done.
  - cbn [compare_loop] in Hrun.
    destruct (getitem df1 ce) as [c1|e]; [|discriminate].
    destruct (getitem df2 cp) as [c2|e]; [|discriminate].
    cbn [mbind result_bind] in Hrun. apply IH in Hrun; [done|].
    destruct (column_mismatches ce c1 c2) eqn:Hm; [done|].
    apply Forall_app. split; [done|]. constructor; [done|constructor].
Qed.

Lemma filter_unique (P : label -> Prop) `{!forall x, Decision (P x)} (l : list label) :
  filter P (unique l) = unique (filter P l).
Proof.
  induction l as [|y l IH]; [done|]. cbn [unique].
  destruct (decide (P y)) as [Hy|Hy].
  - rewrite !filter_cons_True by done. cbn [unique]. f_equal.
    rewrite <- IH, !list_filter_filter. apply list_filter_iff. tauto.
  - rewrite !filter_cons_False by done. rewrite <- IH, list_filter_filter.
    apply list_filter_iff. intros x. split; [tauto|]. intros Hx. split; [done|].
    intros ->. done.
Qed.

Lemma filter_all (P : label -> Prop) `{!forall x, Decision (P x)} (l : list label) :
  Forall P l -> filter P l = l.
Proof.
  induction 1 as [|x l Hx Hl IH]; [done|]. rewrite filter_cons_True, IH; done.
Qed.

(** The labels of a list without a repetition, followed by some of them
    again. *)
Lemma unique_app_again (l : list label) : forall l',
  NoDup l -> (forall x, x ∈ l' -> x ∈ l) -> unique (l ++ l') = l.
Proof.
  induction l as [|x l IH]; intros l' Hnd Hsub.
  - destruct l' as [|y l']; [done|]. exfalso.
    assert (H : y ∈ @nil label) by (apply Hsub, elem_of_cons; auto). inversion H.
  - apply NoDup_cons in Hnd as [Hx Hnd]. cbn [app unique]. f_equal.
    rewrite filter_unique, filter_app.
    rewrite (filter_all (fun y => y <> x) l).
    + apply IH; [done|]. intros y Hy. apply list_elem_of_filter in Hy as [Hne Hy].
      apply Hsub in Hy. apply elem_of_cons in Hy as [->|Hy]; done.
    + apply Forall_forall. intros y Hy ->. done.
Qed.

Lemma report_labels_nodup : NoDup [LStr "Excel"; LStr "PDF"; LStr "Column"].
Proof. apply (bool_decide_unpack _). vm_compute. exact I. Qed.

Lemma frame_of_records_columns r :
  r <> [] ->
  columns (data (frame_of_records r)) = [LStr "Excel"; LStr "PDF"; LStr "Column"].
Proof. destruct r; done. Qed.

Lemma frame_of_records_data r :
  r <> [] ->
  data (frame_of_records r)
  = [(LStr "Excel", Excel <$> r); (LStr "PDF", PDF <$> r);
     (LStr "Column", (fun m => cell_of_label (Column m)) <$> r)].
Proof. destruct r; done. Qed.

Lemma frame_of_records_index r : index (frame_of_records r) = idx <$> r.
Proof. destruct r; done. Qed.

(** [pd.concat] of the frames of the column pairs: the frame of all the
    records. *)
Lemma pd_concat_records (ds : list (list mismatch)) :
  ds <> [] -> Forall (fun r : list mismatch => r <> []) ds ->
  pd_concat (frame_of_records <$> ds) = frame_of_records (concat ds).
Proof.
  intros Hds Hall.
  assert (Hlabels : unique ((frame_of_records <$> ds) ≫= fun df => columns (data df))
                    = [LStr "Excel"; LStr "PDF"; LStr "Column"]).
  { destruct ds as [|r ds]; [done|]. apply Forall_cons in Hall as [Hr Hall].
    rewrite fmap_cons, bind_cons, frame_of_records_columns by done.
    apply unique_app_again.
    - apply report_labels_nodup.
    - intros x Hx. apply list_elem_of_bind in Hx as (df & Hx & Hdf).
      apply list_elem_of_fmap in Hdf as (r' & -> & Hr').
      rewrite Forall_forall in Hall.
      rewrite frame_of_records_columns in Hx by (apply Hall; done). done. }
  assert (Hindex : (frame_of_records <$> ds) ≫= index = idx <$> concat ds).
  { clear. induction ds as [|r ds IH]; [done|].
    rewrite fmap_cons, bind_cons, IH, frame_of_records_index. cbn [concat].
    rewrite fmap_app. done. }
  assert (Hcol : forall (c : label) (f : mismatch -> cell),
            (forall r, r <> [] -> column_or_absent (frame_of_records r) c = f <$> r) ->
            (frame_of_records <$> ds) ≫= (fun df => column_or_absent df c)
            = f <$> concat ds).
  { intros c f Hf. clear Hds Hlabels Hindex.
    induction ds as [|r ds IH]; [done|]. apply Forall_cons in Hall as [Hr Hall].
    rewrite fmap_cons, bind_cons, IH, Hf by done. cbn [concat].
    rewrite fmap_app. done. }
  unfold pd_concat. rewrite Hlabels, Hindex. cbn [fmap list_fmap].
  rewrite (Hcol (LStr "Excel") Excel) by (intros [|? ?] ?; done).
  rewrite (Hcol (LStr "PDF") PDF) by (intros [|? ?] ?; done).
  rewrite (Hcol (LStr "Column") (fun m => cell_of_label (Column m)))
    by (intros [|? ?] ?; done).
  assert (Hne : concat ds <> []).
  { destruct ds as [|r ds]; [done|]. apply Forall_cons in Hall as [Hr _].
    destruct r; [done|]. discriminate. }
  destruct (concat ds); done.
Qed.

(** The report as a frame is the frame of the records of the report. *)
Lemma compare_frame_records df_excel df_pdf :
  compare_dataframes_smart_frame df_excel df_pdf
  = match compare_dataframes_smart df_excel df_pdf with
    | Ok r => Ok (frame_of_records r)
    | Raise e => Raise e
    end.
Proof.
  unfold compare_dataframes_smart_frame, compare_dataframes_smart.
  destruct (match_columns df_excel df_pdf) as [sc|e]; [|done].
  cbn [mbind result_bind].
  pose proof (compare_loop_frame_records df_excel df_pdf (column_pairs sc) []) as Hloop.
  cbn [fmap list_fmap] in Hloop. rewrite Hloop.
  destruct (compare_loop df_excel df_pdf (column_pairs sc) []) as [ds|e] eqn:Hds; [|done].
  cbn [mbind result_bind]. f_equal.
  destruct ds as [|r ds]; [done|].
  change (pd_concat (frame_of_records <$> r :: ds) = frame_of_records (concat (r :: ds))).
  apply pd_concat_records; [done|].
  eapply compare_loop_nonempty; [exact Hds|constructor].
Qed.

(** *** The export *)

Lemma csv_value_label l : csv_value (cell_of_label l) = label_str l.
Proof. destruct l; done. Qed.

(** The text of the export of the frame of some records. *)
Lemma to_csv_records lt q (r : list mismatch) :
  r <> [] ->
  to_csv lt q (frame_of_records r)
  = writerow lt q ["Excel"; "PDF"; "Column"] +:+
    String.concat ""
      ((fun m => writerow lt q
                   [csv_value (Excel m); csv_value (PDF m); label_str (Column m)])
         <$> r).
Proof.
  intros Hr. unfold to_csv.
  rewrite frame_of_records_columns, frame_of_records_index, length_fmap by done.
  f_equal. f_equal. apply list_eq. intros i. rewrite !list_lookup_fmap.
  destruct (r !! i) as [m|] eqn:Hm.
  - rewrite lookup_seq_lt by (eapply lookup_lt_Some; done).
    unfold row_cells. rewrite frame_of_records_data by done.
    simpl. rewrite !list_lookup_fmap, Hm. simpl. rewrite csv_value_label. done.
  - rewrite lookup_seq_ge by (apply lookup_ge_None; done). done.
Qed.

(** The report of two column pairs that differ at the same row has the
    row index twice; the display raises on it, and nothing is exported. *)
Example repeated_index_not_exported :
  compare_dataframes_smart_frame
    [(LStr "A", [CStr "1"]); (LStr "B", [CStr "2"])]
    [(LStr "A", [CStr "x"]); (LStr "B", [CStr "y"])]
  = Ok (IFrame [0; 0]
          [(LStr "Excel", [CStr "1"; CStr "2"]); (LStr "PDF", [CStr "x"; CStr "y"]);
           (LStr "Column", [CStr "A"; CStr "B"])]) /\
  csv_download newline (csv_quote_minimal newline)
    (IFrame [0; 0]
       [(LStr "Excel", [CStr "1"; CStr "2"]); (LStr "PDF", [CStr "x"; CStr "y"]);
        (LStr "Column", [CStr "A"; CStr "B"])])
  = Raise KeyError.
Proof. split; vm_compute; reflexivity. Qed.

Example report_at_row_1 :
  compare_dataframes_smart_frame name_A name_B
  = Ok (IFrame [1] [(LStr "Excel", [CStr "Bob"]); (LStr "PDF", [CStr "Bobby"]);
                    (LStr "Column", [CStr "Name"])]).
Proof. vm_compute. reflexivity. Qed.

Example report_at_row_0 :
  compare_dataframes_smart_frame
    [(LStr "Name", [CStr "Bob"])] [(LStr "Name", [CStr "Bobby"])]
  = Ok (IFrame [0] [(LStr "Excel", [CStr "Bob"]); (LStr "PDF", [CStr "Bobby"]);
                    (LStr "Column", [CStr "Name"])]).
Proof. vm_compute. reflexivity. Qed.

(** C9, as stated, fails: the report of ["Alice","Bob"] against
    ["Alice","Bobby"], whose record is at row 1, and the report of ["Bob"]
    against ["Bobby"], whose record is at row 0, have the same export. *)
Lemma csv_drops_index :
  ~ csv_carries_index newline (csv_quote_minimal newline).
Proof.
  intros H.
  assert (He : csv_download newline (csv_quote_minimal newline)
                 (IFrame [1] [(LStr "Excel", [CStr "Bob"]); (LStr "PDF", [CStr "Bobby"]);
                              (LStr "Column", [CStr "Name"])])
               = csv_download newline (csv_quote_minimal newline)
                 (IFrame [0] [(LStr "Excel", [CStr "Bob"]); (LStr "PDF", [CStr "Bobby"]);
                              (LStr "Column", [CStr "Name"])]))
    by (vm_compute; reflexivity).
  pose proof (H _ _ _ _ _ _ report_at_row_1 report_at_row_0 He) as Hindex.
  discriminate.
Qed.

(** C9, amended.  For a report that is not empty and whose records have
    distinct row indices, the frame of the report has the columns [Excel],
    [PDF] and [Column], in that order, and the export is the UTF-8 encoding
    of the CSV text made of that header and of one line per record, in the
    order of the report, with the record's two values and its column label;
    the row indices are not written: with other index labels the export is
    the same. *)
Theorem csv_export lt q df_excel df_pdf data_diff :
  compare_dataframes_smart_frame df_excel df_pdf = Ok data_diff ->
  frame_empty data_diff = false ->
  NoDup (index data_diff) ->
  exists records text,
    compare_dataframes_smart df_excel df_pdf = Ok records /\
    records <> [] /\
    index data_diff = idx <$> records /\
    columns (data data_diff) = [LStr "Excel"; LStr "PDF"; LStr "Column"] /\
    text = writerow lt q ["Excel"; "PDF"; "Column"] +:+
           String.concat ""
             ((fun m => writerow lt q
                 [csv_value (Excel m); csv_value (PDF m); label_str (Column m)])
              <$> records) /\
    csv_download lt q data_diff = Ok (Some (encode_utf8 text)) /\
    decode_utf8 (encode_utf8 text) = Some text /\
    forall ix,
      NoDup ix -> length ix = length records ->
      csv_download lt q (IFrame ix (data data_diff)) = Ok (Some (encode_utf8 text)).
Proof.
  intros Hrun Hne Hnd. rewrite compare_frame_records in Hrun.
  destruct (compare_dataframes_smart df_excel df_pdf) as [records|e]; [|discriminate].
  inversion Hrun; subst data_diff. clear Hrun.
  assert (Hr : records <> []) by (intros ->; discriminate).
  exists records, (to_csv lt q (frame_of_records records)).
  assert (Hcols : NoDup (columns (data (frame_of_records records)))).
  { rewrite frame_of_records_columns by done. apply report_labels_nodup. }
  split; [done|]. split; [done|]. split; [apply frame_of_records_index|].
  split; [apply frame_of_records_columns; done|].
  split; [apply to_csv_records; done|]. split; [|split].
  - unfold csv_download, color_data_diff. rewrite Hne.
    rewrite decide_True by done. done.
  - apply decode_encode_utf8.
  - intros ix Hix Hlen. unfold csv_download, color_data_diff.
    assert (Hix' : ix <> []) by (destruct ix, records; done).
    destruct records as [|m records]; [done|].
    assert (He : frame_empty (IFrame ix (data (frame_of_records (m :: records)))) = false).
    { apply bool_decide_eq_false. intros [H|H]; [done|discriminate]. }
    rewrite He. cbn [index]. rewrite decide_True by done.
    cbn [mbind result_bind]. do 3 f_equal. unfold to_csv. cbn [index data].
    rewrite Hlen, frame_of_records_index, length_fmap. done.
Qed.

Lemma csv_export_witness :
  exists records text,
    compare_dataframes_smart x_A x_B = Ok records /\
    records <> [] /\
    [2] = idx <$> records /\
    [LStr "Excel"; LStr "PDF"; LStr "Column"] = [LStr "Excel"; LStr "PDF"; LStr "Column"] /\
    text = writerow newline (csv_quote_minimal newline) ["Excel"; "PDF"; "Column"] +:+
           String.concat ""
             ((fun m => writerow newline (csv_quote_minimal newline)
                 [csv_value (Excel m); csv_value (PDF m); label_str (Column m)])
              <$> records) /\
    csv_download newline (csv_quote_minimal newline)
      (IFrame [2] [(LStr "Excel", [CStr "3"]); (LStr "PDF", [CStr ""]);
                   (LStr "Column", [CStr "X"])])
      = Ok (Some (encode_utf8 text)) /\
    decode_utf8 (encode_utf8 text) = Some text /\
    forall ix,
      NoDup ix -> length ix = length records ->
      csv_download newline (csv_quote_minimal newline)
        (IFrame ix [(LStr "Excel", [CStr "3"]); (LStr "PDF", [CStr ""]);
                    (LStr "Column", [CStr "X"])])
      = Ok (Some (encode_utf8 text)).
Proof.
  apply (csv_export newline (csv_quote_minimal newline) x_A x_B
           (IFrame [2] [(LStr "Excel", [CStr "3"]); (LStr "PDF", [CStr ""]);
                        (LStr "Column", [CStr "X"])])).
  - vm_compute. reflexivity.
  - reflexivity.
  - repeat constructor. intros H. inversion H.
Defined.

Example csv_text_example :
  to_csv newline (csv_quote_minimal newline)
    (IFrame [2; 0]
       [(LStr "Excel", [CStr "3"; CStr "a,b"]); (LStr "PDF", [CStr ""; CStr "c"]);
        (LStr "Column", [CStr "X"; CStr "Y"])])
  = "Excel,PDF,Column" +:+ newline +:+
    "3,,X" +:+ newline +:+
    String dquote ("a,b" +:+ String dquote (",c,Y" +:+ newline)).
Proof. vm_compute. reflexivity. Qed.

(** ** Text differencing of a text with itself *)

Lemma positions_elem b elt : forall i j,
  j ∈ positions i b elt <-> exists j', j = i + j' /\ b !! j' = Some elt.
Proof.
  induction b as [|x b IH]; intros i j; simpl.
  - split; [intros H; inversion H | intros (j' & _ & H); discriminate].
  - assert (Hrest : j ∈ positions (S i) b elt <->
                    exists j', j = i + S j' /\ b !! j' = Some elt).
    { rewrite IH. split; intros (j' & Hj & H); exists j'; (split; [lia|done]). }
    destruct (decide (x = elt)) as [->|Hne].
    + rewrite elem_of_cons, Hrest. split.
      * intros [-> | (j' & Hj & H)]; [exists 0 | exists (S j')]; (split; [lia|done]).
      * intros ([|j'] & Hj & H); [left; lia | right; exists j'; done].
    + rewrite Hrest. split.
      * intros (j' & Hj & H). exists (S j'). done.
      * intros ([|j'] & Hj & H); simpl in H; [congruence | exists j'; done].
Qed.

Lemma positions_sorted b elt : forall i, StronglySorted lt (positions i b elt).
Proof.
  induction b as [|x b IH]; intros i; simpl; [constructor|].
  destruct (decide (x = elt)); [|apply IH].
  constructor; [apply IH|]. apply Forall_forall. intros j Hj.
  apply positions_elem in Hj as (j' & -> & _). lia.
Qed.

Lemma chain_from_lookup b elt : forall i acc,
  chain_from i b acc !! elt =
    match positions i b elt with
    | [] => acc !! elt
    | ps => Some (default [] (acc !! elt) ++ ps)
    end.
Proof.
  induction b as [|x b IH]; intros i acc; simpl; [done|].
  rewrite IH. destruct (decide (x = elt)) as [->|Hne].
  - rewrite lookup_insert_eq. simpl.
    destruct (positions (S i) b elt); simpl; rewrite <- ?app_assoc; done.
  - rewrite lookup_insert_ne by done. done.
Qed.

(** The entries of [b2j]: all the positions of the element, in
    increasing order. *)
Lemma chain_b_lookup b elt js :
  chain_b b !! elt = Some js -> js = positions 0 b elt /\ js <> [].
Proof.
  intros H.
  assert (H0 : chain_from 0 b ∅ !! elt = Some js).
  { unfold chain_b in H. destruct (decide _); [|done].
    apply map_lookup_filter_Some in H as [H _]. done. }
  rewrite chain_from_lookup, lookup_empty in H0. simpl in H0.
  destruct (positions 0 b elt) eqn:Hp; [discriminate|].
  inversion H0; subst. done.
Qed.

Section identical.
Variable a : list string.

Lemma run_le j : run a j <= S j.
Proof.
  induction j as [|j IH]; simpl; destruct (decide _); lia.
Qed.

Lemma run_pos j : in_b2j a j -> 1 <= run a j.
Proof. destruct j; simpl; intros H; rewrite decide_True by done; lia. Qed.

Lemma run_zero j : ~ in_b2j a j -> run a j = 0.
Proof. destruct j; simpl; intros H; rewrite decide_False by done; done. Qed.

Lemma run_S j : in_b2j a (S j) -> run a (S j) = S (run a j).
Proof. simpl. intros H. rewrite decide_True by done. done. Qed.

Lemma lookup_total_Some (j : nat) : j < length a -> a !! j = Some (a !!! j).
Proof. intros H. apply list_lookup_lookup_total_lt. done. Qed.

(** The positions that the inner loop runs over at row [i]. *)
Lemma row_positions i js :
  i < length a -> chain_b a !! (a !!! i) = Some js ->
  StronglySorted lt js /\ i ∈ js /\ forall j, j ∈ js -> in_b2j a j.
Proof.
  intros Hi Hjs. destruct (chain_b_lookup _ _ _ Hjs) as [-> _].
  split; [apply positions_sorted|]. split.
  - apply positions_elem. exists i. split; [done|]. apply lookup_total_Some. done.
  - intros j Hj. apply positions_elem in Hj as (j' & -> & Hj'). simpl.
    pose proof (lookup_lt_Some _ _ _ Hj') as Hlt. split; [done|].
    apply list_lookup_total_correct in Hj'. rewrite Hj'. eauto.
Qed.

Lemma cell_len_bounds i j M :
  prev_ok a i M -> in_b2j a i -> in_b2j a j ->
  1 <= cell_len M j /\ cell_len M j <= run a j /\ cell_len M j <= run a i /\
  (j = i -> cell_len M j = run a i).
Proof.
  intros HM Hi Hj. unfold cell_len.
  pose proof (run_pos _ Hi) as Hri. pose proof (run_pos _ Hj) as Hrj.
  destruct j as [|j'].
  - split; [lia|]. split; [lia|]. split; [lia|]. intros <-.
    simpl. rewrite decide_True by done. done.
  - destruct (M !! j') as [k|] eqn:Hk; cbn -[run].
    + destruct i as [|i']; simpl in HM.
      * subst M. rewrite lookup_empty in Hk. discriminate.
      * destruct HM as [Hall Hdiag]. destruct (Hall _ _ Hk) as (H1 & H2 & H3).
        rewrite (run_S j') by done. rewrite (run_S i') by done.
        split; [lia|]. split; [lia|]. split; [lia|].
        intros Heq. inversion Heq; subst.
        destruct (decide (in_b2j a i')) as [Hin|Hnin].
        -- rewrite (Hdiag Hin) in Hk. inversion Hk. lia.
        -- rewrite (run_zero _ Hnin) in H3. lia.
    + split; [lia|]. split; [lia|]. split; [lia|]. intros <-.
      simpl in HM. destruct HM as [Hall Hdiag].
      rewrite (run_S j') by done.
      destruct (decide (in_b2j a j')) as [Hin|Hnin].
      * rewrite (Hdiag Hin) in Hk. discriminate.
      * rewrite (run_zero _ Hnin). done.
Qed.

(** The inner loop on a text against itself: the best match stays on the
    diagonal. *)
Lemma scan_row_diag i M : forall js newM d s,
  i < length a -> prev_ok a i M ->
  StronglySorted lt js ->
  (forall j, j ∈ js -> in_b2j a j /\ in_b2j a i) ->
  (forall j k, newM !! j = Some k -> 1 <= k /\ k <= run a j /\ k <= run a i) ->
  (in_b2j a i -> i ∈ js \/ newM !! i = Some (run a i)) ->
  d + s <= length a ->
  (forall r, r < i -> run a r <= s) ->
  (in_b2j a i -> i ∈ js \/ run a i <= s) ->
  exists newM' d' s',
    scan_row i 0 (length a) js M newM (d, d, s) = (newM', (d', d', s')) /\
    row_ok a i newM' /\ d' + s' <= length a /\ forall r, r < S i -> run a r <= s'.
Proof.
  induction js as [|j js IH]; intros newM d s Hi HM Hsort Hjs Hnew Hnewi Hds Hprev Hcur.
  - simpl. exists newM, d, s. split; [done|]. split; [|split; [done|]].
    + split; [done|]. intros Hin. destruct (Hnewi Hin) as [H|H]; [inversion H|done].
    + intros r Hr. destruct (decide (r = i)) as [->|Hne]; [|apply Hprev; lia].
      destruct (decide (in_b2j a i)) as [Hin|Hnin].
      * destruct (Hcur Hin) as [H|H]; [inversion H|done].
      * rewrite (run_zero _ Hnin). lia.
  - simpl. destruct (Hjs j) as [Hj Hini]; [apply elem_of_cons; auto|].
    destruct (decide (j < 0)) as [Hlt|_]; [lia|].
    destruct (decide (length a <= j)) as [Hge|_]; [destruct Hj; lia|].
    fold (cell_len M j).
    destruct (cell_len_bounds i j M HM Hini Hj) as (Hk1 & Hk2 & Hk3 & Hk4).
    apply StronglySorted_inv in Hsort as [Hsort Hhead].
    rewrite Forall_forall in Hhead.
    assert (Hnew' : forall j0 k, <[j := cell_len M j]> newM !! j0 = Some k ->
                               1 <= k /\ k <= run a j0 /\ k <= run a i).
    { intros j0 k. destruct (decide (j = j0)) as [->|Hne].
      - rewrite lookup_insert_eq. intros [= <-]. done.
      - rewrite lookup_insert_ne by done. apply Hnew. }
    assert (Hjs' : forall j0, j0 ∈ js -> in_b2j a j0 /\ in_b2j a i).
    { intros j0 Hj0. apply Hjs, elem_of_cons. auto. }
    assert (Hnewi' : in_b2j a i -> i ∈ js \/ <[j := cell_len M j]> newM !! i = Some (run a i)).
    { intros Hin. destruct (decide (j = i)) as [->|Hne].
      - right. rewrite lookup_insert_eq, Hk4; done.
      - rewrite lookup_insert_ne by done.
        destruct (Hnewi Hin) as [H|H]; [|auto].
        apply elem_of_cons in H as [H|H]; [congruence|auto]. }
    simpl. destruct (decide (s < cell_len M j)) as [Hbetter|Hnot].
    + (* a longer match: it can only be at [j = i] *)
      assert (j = i) as ->.
      { destruct (decide (j = i)) as [|Hne]; [done|]. exfalso.
        destruct (Hcur Hini) as [H|H]; [|lia].
        apply elem_of_cons in H as [H|H]; [congruence|].
        specialize (Hhead _ H). specialize (Hprev j Hhead). lia. }
      pose proof (run_le i) as Hle.
      replace (i + 1 - cell_len M i) with (S i - cell_len M i) by lia.
      apply IH; try done.
      * lia.
      * intros r Hr. specialize (Hprev r Hr). lia.
      * intros _. right. lia.
    + apply IH; try done.
      intros Hin. destruct (Hcur Hin) as [H|H]; [|auto].
      apply elem_of_cons in H as [H|H]; [|auto].
      subst j. right. lia.
Qed.

(** The outer loop. *)
Lemma scan_rows_diag m : forall i M d s,
  i + m = length a -> prev_ok a i M ->
  d + s <= length a -> (forall r, r < i -> run a r <= s) ->
  exists d' s',
    scan_rows a (chain_b a) 0 (length a) (seq i m) M (d, d, s) = (d', d', s') /\
    d' + s' <= length a.
Proof.
  induction m as [|m IH]; intros i M d s Him HM Hds Hprev; simpl.
  - eauto.
  - assert (Hi : i < length a) by lia.
    destruct (chain_b a !! (a !!! i)) as [js|] eqn:Hjs; simpl.
    + destruct (row_positions i js Hi Hjs) as (Hsort & Hin & Hall).
      assert (Hini : in_b2j a i) by (split; [done | rewrite Hjs; eauto]).
      assert (Hnew : forall j k, (∅ : gmap nat nat) !! j = Some k ->
                                 1 <= k /\ k <= run a j /\ k <= run a i).
      { intros j k. rewrite lookup_empty. discriminate. }
      destruct (scan_row_diag i M js ∅ d s Hi HM Hsort
                  (fun j Hj => conj (Hall j Hj) Hini) Hnew
                  (fun _ => or_introl Hin) Hds Hprev (fun _ => or_introl Hin))
        as (newM' & d' & s' & Hrow & Hok & Hds' & Hprev').
      rewrite Hrow. apply (IH (S i)); try done. lia.
    + assert (Hnin : ~ in_b2j a i).
      { intros [_ [x Hx]]. rewrite Hjs in Hx. discriminate. }
      apply (IH (S i)); [lia | | done |].
      * split; [intros j k; rewrite lookup_empty; discriminate | done].
      * intros r Hr. destruct (decide (r = i)) as [->|Hne]; [|apply Hprev; lia].
        rewrite (run_zero _ Hnin). lia.
Qed.

Lemma extend_back_identical d : forall s,
  extend_back false ∅ a a 0 0 d d s = (0, 0, s + d).
Proof.
  induction d as [|d IH]; intros s; simpl.
  - f_equal. lia.
  - rewrite decide_True.
    + rewrite IH. f_equal. lia.
    + split; [lia|]. split; [lia|]. split; [|done].
      apply bool_decide_eq_false, not_elem_of_empty.
Qed.

Lemma extend_fwd_identical m : forall s,
  s + m <= length a ->
  extend_fwd false ∅ a a (length a) (length a) m 0 0 s = s + m.
Proof.
  induction m as [|m IH]; intros s Hs; simpl; [lia|].
  rewrite decide_True.
  - rewrite IH by lia. lia.
  - split; [lia|]. split; [lia|]. split; [|done].
    apply bool_decide_eq_false, not_elem_of_empty.
Qed.

Lemma extend_back_no_junk (x y : list string) alo blo i j s :
  extend_back true ∅ x y alo blo i j s = (i, j, s).
Proof.
  destruct i as [|i], j as [|j]; simpl; try done.
  rewrite decide_False; [done|]. intros (_ & _ & H & _).
  unfold isbjunk in H. apply bool_decide_eq_true in H.
  exact (not_elem_of_empty _ H).
Qed.

Lemma extend_fwd_no_junk (x y : list string) ahi bhi m i j s :
  extend_fwd true ∅ x y ahi bhi m i j s = s.
Proof.
  destruct m as [|m]; simpl; [done|].
  rewrite decide_False; [done|]. intros (_ & _ & H & _).
  unfold isbjunk in H. apply bool_decide_eq_true in H.
  exact (not_elem_of_empty _ H).
Qed.

(** The longest match of a text in itself is the text. *)
Lemma find_longest_match_identical :
  find_longest_match a a (chain_b a) ∅ 0 (length a) 0 (length a) = (0, 0, length a).
Proof.
  unfold find_longest_match.
  destruct (scan_rows_diag (length a) 0 ∅ 0 0) as (d & s & Hscan & Hds);
    [lia | done | lia | intros r Hr; lia |].
  rewrite Nat.sub_0_r, Hscan.
  rewrite extend_back_identical. simpl.
  rewrite extend_fwd_identical by lia.
  rewrite ?extend_back_no_junk, ?extend_fwd_no_junk.
  f_equal. lia.
Qed.

Lemma get_matching_blocks_identical :
  get_matching_blocks a a =
    Some (match a with
          | [] => [(0, 0, 0)]
          | _ => [(0, 0, length a); (length a, length a, 0)]
          end).
Proof.
  unfold get_matching_blocks.
  replace (2 * length a + 1) with (S (2 * length a)) by lia.
  simpl matching_loop. rewrite find_longest_match_identical.
  destruct a as [|x l]; [reflexivity|].
  rewrite decide_False by (simpl; lia).
  rewrite decide_False by lia.
  rewrite decide_False by lia.
  destruct (2 * length (x :: l)); reflexivity.
Qed.

Lemma get_opcodes_identical :
  get_opcodes a a =
    Some (match a with
          | [] => []
          | _ => [(Tequal, 0, length a, 0, length a)]
          end).
Proof.
  unfold get_opcodes. rewrite get_matching_blocks_identical.
  destruct a as [|x l]; [reflexivity|].
  cbn [mbind option_bind]. f_equal.
  cbn [opcodes_from]. rewrite !Nat.add_0_l, !Nat.add_0_r.
  repeat case_decide; (lia || (simpl in *; lia) || reflexivity).
Qed.

End identical.

Lemma dump_all t (x : list string) :
  dump t x 0 (length x) = (fun l => t +:+ " " +:+ l) <$> x.
Proof.
  unfold dump. rewrite Nat.sub_0_r. apply list_eq. intros i.
  rewrite !list_lookup_fmap.
  destruct (decide (i < length x)) as [Hi|Hi].
  - rewrite lookup_seq_lt by done. simpl.
    rewrite (list_lookup_lookup_total_lt x i) by done. done.
  - rewrite lookup_seq_ge by lia. rewrite lookup_ge_None_2 by lia. done.
Qed.

Lemma compare_identical fr (a : list string) :
  compare fr a a = Some (eqline <$> a).
Proof.
  unfold compare. rewrite get_opcodes_identical.
  destruct a as [|x l]; [reflexivity|].
  cbn [mbind option_bind fmap list_fmap concat]. rewrite app_nil_r, dump_all.
  reflexivity.
Qed.

Lemma refill_equal n : forall buf x rest,
  (0 < x -> rest = []) ->
  exists buf' x' rest',
    refill n ((eqline <$> buf) ++ replicate x "X") (eqline <$> rest)
      = ((eqline <$> buf') ++ replicate x' "X", eqline <$> rest') /\
    buf' ++ rest' = buf ++ rest /\
    length buf' + x' = length buf + x + n /\
    (0 < x' -> rest' = []).
Proof.
  induction n as [|n IH]; intros buf x rest Hx; simpl.
  - exists buf, x, rest. repeat split; [lia|done].
  - destruct rest as [|r rest]; simpl.
    + destruct (IH buf (S x) []) as (buf' & x' & rest' & Hr & Hall & Hlen & Hx'); [done|].
      exists buf', x', rest'.
      replace (((eqline <$> buf) ++ replicate x "X") ++ ["X"])
        with ((eqline <$> buf) ++ replicate (S x) "X").
      * repeat split; try done. lia.
      * rewrite <- app_assoc. f_equal.
        change ["X"] with (replicate 1 "X"). rewrite <- replicate_add.
        f_equal. lia.
    + assert (x = 0) as -> by (destruct x; [done|]; discriminate Hx; lia).
      destruct (IH (buf ++ [r]) 0 rest) as (buf' & x' & rest' & Hr & Hall & Hlen & Hx');
        [lia|].
      exists buf', x', rest'. simpl. rewrite app_nil_r.
      rewrite fmap_app in Hr. simpl in Hr. rewrite app_nil_r in Hr.
      repeat split; try done.
      * rewrite Hall, <- app_assoc. done.
      * rewrite length_app in Hlen. simpl in Hlen. lia.
Qed.

Lemma prefix_empty s : String.prefix EmptyString s = true.
Proof. destruct s; reflexivity. Qed.

(** [_line_iterator] on a delta of unchanged lines. *)
Lemma line_iterator_equal il fuel : forall buf x rest nf nt,
  (0 < x -> rest = []) -> length buf + x <= 4 -> length (buf ++ rest) < fuel ->
  line_iterator il fuel ((eqline <$> buf) ++ replicate x "X") (eqline <$> rest)
    0 (nf, nt)
  = Some (unpaired <$> equal_pairs nf nt (buf ++ rest)).
Proof.
  induction fuel as [|fuel IH]; intros buf x rest nf nt Hx Hlen Hfuel; [lia|].
  cbn [line_iterator].
  destruct (refill_equal (4 - length ((eqline <$> buf) ++ replicate x "X")) buf x rest Hx)
    as (buf' & x' & rest' & Hr & Hall & Hlen' & Hx').
  rewrite Hr. rewrite length_app, length_fmap, length_replicate in Hlen'.
  rewrite <- Hall in *. clear Hr Hall.
  destruct buf' as [|l buf'].
  - simpl in Hlen'. assert (x' = 4) as -> by lia.
    rewrite Hx' by lia. reflexivity.
  - simpl in Hlen', Hfuel. cbn -[line_iterator equal_pairs].
    rewrite prefix_empty, IH by (done || lia). reflexivity.
Qed.

Lemma line_pair_iterator_equal ls : forall fuel nf nt,
  2 * length ls < fuel ->
  line_pair_iterator fuel (unpaired <$> equal_pairs nf nt ls) [] []
  = Some (equal_pairs nf nt ls).
Proof.
  induction ls as [|l ls IH]; intros fuel nf nt Hfuel.
  - destruct fuel; [lia|reflexivity].
  - destruct fuel as [|[|fuel]]; [simpl in Hfuel; lia ..|].
    simpl in Hfuel. cbn -[equal_pairs]. cbn [equal_pairs fmap list_fmap].
    simpl. rewrite IH by lia. reflexivity.
Qed.

Lemma equal_pairs_length ls : forall nf nt, length (equal_pairs nf nt ls) = length ls.
Proof.
  induction ls as [|l ls IH]; intros nf nt; simpl; [done|]. rewrite IH. done.
Qed.

Lemma collect_context_equal context ls : forall nf nt index contextLines,
  collect_context context (equal_pairs nf nt ls) index contextLines = None.
Proof.
  induction ls as [|l ls IH]; intros nf nt index contextLines; simpl; [done|].
  apply IH.
Qed.

(** [_mdiff] of a sequence of lines against itself: without context every
    line is a row without a change, with context there is no row. *)
Lemma mdiff_identical fr il (a : list string) :
  mdiff fr il a a None = Some (row_of <$> equal_pairs 0 0 a) /\
  forall context, mdiff fr il a a (Some context) = Some [].
Proof.
  assert (Hrows : line_iterator il (S (length (eqline <$> a))) [] (eqline <$> a) 0 (0, 0)
                  = Some (unpaired <$> equal_pairs 0 0 a)).
  { apply (line_iterator_equal il _ [] 0 a 0 0); simpl; try lia.
    rewrite length_fmap. lia. }
  assert (Hpairs : line_pair_iterator (S (2 * length (unpaired <$> equal_pairs 0 0 a)))
                     (unpaired <$> equal_pairs 0 0 a) [] []
                   = Some (equal_pairs 0 0 a)).
  { apply line_pair_iterator_equal. rewrite length_fmap, equal_pairs_length. lia. }
  unfold mdiff. rewrite compare_identical. cbn [mbind option_bind].
  rewrite Hrows. cbn [mbind option_bind]. rewrite Hpairs. cbn [mbind option_bind].
  split; [done|]. intros context. cbn [context_loop].
  rewrite collect_context_equal. done.
Qed.

(** The example of the documentation of [get_opcodes], and a delta with a
    line taken out and a line put in. *)
Example get_opcodes_doc :
  get_opcodes ["q"; "a"; "b"; "x"; "c"; "d"] ["a"; "b"; "y"; "c"; "d"; "f"]
  = Some [(Tdelete, 0, 1, 0, 0); (Tequal, 1, 3, 0, 2); (Treplace, 3, 4, 2, 3);
          (Tequal, 4, 6, 3, 5); (Tinsert, 6, 6, 5, 6)].
Proof. vm_compute. reflexivity. Qed.

Example mdiff_delete_insert :
  mdiff (fun _ _ _ _ _ _ => []) (fun text _ => text)
    ["a"; "b"; "c"] ["a"; "c"; "d"] None
  = Some [(Some (Num 1, "a"), Some (Num 1, "a"), Some false);
          (Some (Num 2, String NUL ("-b" +:+ String SOH EmptyString)),
           Some (Blank, newline), Some true);
          (Some (Num 3, "c"), Some (Num 2, "c"), Some false);
          (Some (Blank, newline),
           Some (Num 3, String NUL ("+d" +:+ String SOH EmptyString)), Some true)].
Proof. vm_compute. reflexivity. Qed.

(** C8.  A text against itself: the lines of the two sides are the same,
    [SequenceMatcher] finds them equal as one block (no block of another
    kind), every line of the full side-by-side difference is a row of the
    same line on both sides without the flag of a change, and the table
    that [make_html_diff] asks for, with context only, has no row at all:
    nothing is inserted, deleted or highlighted. *)
Theorem diff_of_identical_text fancy_replace intraline split_line render_table
    default_prefix text :
  let lines := expand_tabs <$> splitlines text in
  get_opcodes lines lines
    = Some (match lines with
            | [] => []
            | _ => [(Tequal, 0, length lines, 0, length lines)]
            end) /\
  mdiff fancy_replace intraline lines lines None
    = Some (row_of <$> equal_pairs 0 0 lines) /\
  table_rows fancy_replace intraline split_line (splitlines text) (splitlines text)
    = Some [] /\
  make_html_diff fancy_replace intraline split_line render_table default_prefix text text
    = Some (render_table default_prefix [], S default_prefix).
Proof.
  intros lines.
  destruct (mdiff_identical fancy_replace intraline lines) as [Hfull Hcontext].
  assert (Hrows : table_rows fancy_replace intraline split_line
                    (splitlines text) (splitlines text) = Some []).
  { unfold table_rows. fold lines. rewrite Hcontext. reflexivity. }
  split; [apply get_opcodes_identical|]. split; [exact Hfull|].
  split; [exact Hrows|].
  unfold make_html_diff. rewrite Hrows. reflexivity.
Qed.

(** * Further properties of the code *)

(** ** [match_columns] *)

Lemma last_lower_cons c cols k l : last_lower cols k l -> last_lower (c :: cols) k l.
Proof.
  intros (pre & s & post & -> & -> & Hk & Hlast). exists (c :: pre), s, post. auto.
Qed.

Lemma last_lower_exists cols : forall s,
  LStr s ∈ cols -> exists s', last_lower cols (lower s) (LStr s').
Proof.
  induction cols as [|c cols IH]; intros s Hin; [inversion Hin|].
  set (P := fun l => match l with
                     | LStr t => lower t = lower s
                     | LInt _ => False
                     end).
  assert (Hdec : forall l, Decision (P l)) by (intros []; simpl; apply _).
  destruct (Exists_dec P cols) as [Hex|Hnone].
  - apply Exists_exists in Hex as (l & Hl & Hlow). destruct l as [t|z]; [|done].
    destruct (IH t Hl) as (s' & Hs'). rewrite Hlow in Hs'.
    exists s'. apply last_lower_cons. done.
  - assert (Hpost : forall t, LStr t ∈ cols -> lower t <> lower s).
    { intros t Ht Heq. apply Hnone, Exists_exists. exists (LStr t). done. }
    apply elem_of_cons in Hin as [<-|Hin].
    + exists s, [], s, cols. done.
    + destruct (Hpost s Hin). done.
Qed.

Lemma match_columns_raises_iff_aux df1 df2 e :
  match_columns df1 df2 = Raise e -> e = AttributeError.
Proof.
  intros Hr.
  destruct (decide ((list_to_set (columns df1) ∩ list_to_set (columns df2)
                     : gset label) = ∅)) as [He|Hne].
  - pose proof (proj1 (exact_overlap_empty _ _) He) as Hno.
    destruct (decide (Forall is_str (columns df1) /\ Forall is_str (columns df2)))
      as [[H1 H2]|Hstr].
    + destruct (match_columns_fallback df1 df2 Hno H1 H2) as (d & Hd & _).
      rewrite Hd in Hr. discriminate.
    + rewrite (match_columns_fallback_raises df1 df2 Hno Hstr) in Hr.
      inversion Hr. done.
  - unfold match_columns in Hr. rewrite decide_False in Hr by done. discriminate.
Qed.

(** X1.  [match_columns] raises nothing but [AttributeError], and it raises
    it exactly when the frames share no label and one of the labels is
    not a string: the look-ups of the second comprehension never miss. *)
Theorem match_columns_raises_iff df1 df2 e :
  match_columns df1 df2 = Raise e <->
  e = AttributeError /\
  (forall c, c ∈ columns df1 -> c ∈ columns df2 -> False) /\
  ~ (Forall is_str (columns df1) /\ Forall is_str (columns df2)).
Proof.
  split.
  - intros Hr.
    destruct (decide ((list_to_set (columns df1) ∩ list_to_set (columns df2)
                       : gset label) = ∅)) as [He|Hne].
    + pose proof (proj1 (exact_overlap_empty _ _) He) as Hno. clear He.
      rename Hno into He.
      destruct (decide (Forall is_str (columns df1) /\ Forall is_str (columns df2)))
        as [[H1 H2]|Hstr].
      * destruct (match_columns_fallback df1 df2 He H1 H2) as (d & Hd & _).
        rewrite Hd in Hr. discriminate.
      * rewrite (match_columns_fallback_raises df1 df2 He Hstr) in Hr.
        inversion Hr. done.
    + unfold match_columns in Hr. rewrite decide_False in Hr by done. discriminate.
  - intros (-> & Hno & Hstr). apply match_columns_fallback_raises; done.
Qed.

Lemma match_columns_raises_iff_witness :
  match_columns total_A total_B_int = Raise AttributeError.
Proof.
  apply (proj2 (match_columns_raises_iff total_A total_B_int AttributeError)).
  split; [reflexivity|]. split.
  - intros c H1 H2. apply list_elem_of_singleton in H1. subst c.
    apply elem_of_cons in H2 as [H2|H2]; [discriminate|].
    apply list_elem_of_singleton in H2. discriminate.
  - intros [_ H2]. apply Forall_cons in H2 as [_ H2].
    apply Forall_cons in H2 as [H2 _]. exact H2.
Defined.

(** X2.  Without a shared label and with string labels only, the result
    is a [dict] whose keys are distinct; each of its pairs is a column of
    the first frame and a column of the second with the same lower-cased
    name, and every lower-cased name that both frames have is the name of
    a pair. *)
Theorem match_columns_case_insensitive df1 df2 :
  (forall c, c ∈ columns df1 -> c ∈ columns df2 -> False) ->
  Forall is_str (columns df1) -> Forall is_str (columns df2) ->
  exists d,
    match_columns df1 df2 = Ok (SharedDict d) /\
    NoDup d.*1 /\
    (forall a b, (a, b) ∈ d ->
       exists sa sb, a = LStr sa /\ b = LStr sb /\ lower sa = lower sb /\
                     a ∈ columns df1 /\ b ∈ columns df2) /\
    (forall sa sb, LStr sa ∈ columns df1 -> LStr sb ∈ columns df2 ->
       lower sa = lower sb ->
       exists sa' sb', (LStr sa', LStr sb') ∈ d /\ lower sa' = lower sa /\
                       lower sb' = lower sa).
Proof.
  intros Hno H1 H2.
  destruct (match_columns_fallback df1 df2 Hno H1 H2) as (d & Hd & Hnd & Hpairs).
  exists d. split; [done|]. split; [done|]. split.
  - intros a b Hab. apply Hpairs in Hab as (k & Ha & Hb).
    pose proof (last_lower_elem _ _ _ Ha) as Ha'.
    pose proof (last_lower_elem _ _ _ Hb) as Hb'.
    destruct Ha as (? & sa & ? & _ & -> & Hka & _).
    destruct Hb as (? & sb & ? & _ & -> & Hkb & _).
    exists sa, sb. repeat split; try done. congruence.
  - intros sa sb Ha Hb Heq.
    destruct (last_lower_exists (columns df1) sa Ha) as (sa' & Hla).
    destruct (last_lower_exists (columns df2) sb Hb) as (sb' & Hlb).
    exists sa', sb'. split.
    + apply Hpairs. exists (lower sa). split; [done|]. rewrite Heq. done.
    + destruct Hla as (? & s1 & ? & _ & [= ->] & Hk1 & _).
      destruct Hlb as (? & s2 & ? & _ & [= ->] & Hk2 & _).
      split; congruence.
Qed.

Lemma match_columns_case_insensitive_witness :
  exists d,
    match_columns case_A case_B = Ok (SharedDict d) /\
    NoDup d.*1 /\
    (forall a b, (a, b) ∈ d ->
       exists sa sb, a = LStr sa /\ b = LStr sb /\ lower sa = lower sb /\
                     a ∈ columns case_A /\ b ∈ columns case_B) /\
    (forall sa sb, LStr sa ∈ columns case_A -> LStr sb ∈ columns case_B ->
       lower sa = lower sb ->
       exists sa' sb', (LStr sa', LStr sb') ∈ d /\ lower sa' = lower sa /\
                       lower sb' = lower sa).
Proof.
  apply (match_columns_case_insensitive case_A case_B).
  - intros c H1 H2. simpl in H1, H2.
    apply elem_of_cons in H2 as [->|H2];
      [|apply list_elem_of_singleton in H2 as ->];
      (apply elem_of_cons in H1 as [H1|H1];
         [discriminate | apply list_elem_of_singleton in H1; discriminate]).
  - repeat constructor.
  - repeat constructor.
Defined.

(** X3.  Matching is symmetric: with the frames exchanged the matcher
    pairs the same columns, each pair the other way round. *)
Theorem match_columns_symmetric df1 df2 sc :
  match_columns df1 df2 = Ok sc ->
  exists sc',
    match_columns df2 df1 = Ok sc' /\
    forall a b, (a, b) ∈ column_pairs sc <-> (b, a) ∈ column_pairs sc'.
Proof.
  intros Hsc. destruct sc as [S|d].
  - destruct (match_columns_set_inv _ _ _ Hsc) as [HS Hne].
    exists (SharedSet S). split.
    + unfold match_columns.
      replace (list_to_set (columns df2) ∩ list_to_set (columns df1))
        with S
        by (rewrite HS; apply set_eq; intros x; rewrite !elem_of_intersection; tauto).
      rewrite decide_False by done. done.
    + intros a b. simpl. rewrite !zip_diag, !list_elem_of_fmap. split.
      * intros (x & [= -> ->] & Hx). exists x. done.
      * intros (x & [= -> ->] & Hx). exists x. done.
  - destruct (match_columns_dict_inv _ _ _ Hsc) as (Hno & H1 & H2).
    destruct (match_columns_fallback df1 df2 Hno H1 H2) as (d0 & Hd0 & _ & Hp).
    rewrite Hsc in Hd0. inversion Hd0; subst d0.
    destruct (match_columns_fallback df2 df1) as (d' & Hd' & _ & Hp'); try done.
    { intros c Hc2 Hc1. exact (Hno c Hc1 Hc2). }
    exists (SharedDict d'). split; [done|]. intros a b. simpl.
    rewrite Hp, Hp'. split; intros (k & Ha & Hb); exists k; done.
Qed.

Lemma match_columns_symmetric_witness :
  exists sc',
    match_columns case_B case_A = Ok sc' /\
    forall a b, (a, b) ∈ column_pairs (SharedDict [(LStr "TOTAL", LStr "ToTal")])
                <-> (b, a) ∈ column_pairs sc'.
Proof.
  apply (match_columns_symmetric case_A case_B).
  vm_compute. reflexivity.
Defined.

(** ** [compare_dataframes_smart] *)

(** X4.  On frames with distinct labels the comparison fails only when
    the matcher does: whenever the matcher returns, no column look-up
    misses, and the report is the records of the matched pairs, pair after
    pair in the order of the pairs, each pair's by row. *)
Theorem report_is_concatenation df_excel df_pdf sc :
  NoDup (columns df_excel) -> NoDup (columns df_pdf) ->
  match_columns df_excel df_pdf = Ok sc ->
  exists cols : list (list cell * list cell),
    Forall2 (fun (p : label * label) (c : list cell * list cell) =>
               (p.1, c.1) ∈ df_excel /\ (p.2, c.2) ∈ df_pdf) (column_pairs sc) cols /\
    compare_dataframes_smart df_excel df_pdf =
      Ok (concat (zip_with (fun (p : label * label) (c : list cell * list cell) =>
                              column_mismatches p.1 c.1 c.2) (column_pairs sc) cols)).
Proof. apply compare_report. Qed.

Lemma report_is_concatenation_witness :
  exists cols : list (list cell * list cell),
    Forall2 (fun (p : label * label) (c : list cell * list cell) =>
               (p.1, c.1) ∈ total_A /\ (p.2, c.2) ∈ [(LStr "total", [CStr "11"])])
            (column_pairs (SharedDict [(LStr "Total", LStr "total")])) cols /\
    compare_dataframes_smart total_A [(LStr "total", [CStr "11"])] =
      Ok (concat (zip_with (fun (p : label * label) (c : list cell * list cell) =>
                              column_mismatches p.1 c.1 c.2)
                    (column_pairs (SharedDict [(LStr "Total", LStr "total")])) cols)).
Proof.
  apply (report_is_concatenation total_A [(LStr "total", [CStr "11"])]).
  - repeat constructor. intros H. inversion H.
  - repeat constructor. intros H. inversion H.
  - vm_compute. reflexivity.
Defined.

(** X5.  On frames with distinct labels the comparison raises nothing but
    the [AttributeError] of the matcher: no [KeyError] from a column
    look-up, whatever the cells are. *)
Theorem compare_raises_only_attribute_error df_excel df_pdf e :
  NoDup (columns df_excel) -> NoDup (columns df_pdf) ->
  compare_dataframes_smart df_excel df_pdf = Raise e ->
  e = AttributeError /\ match_columns df_excel df_pdf = Raise AttributeError.
Proof.
  intros Hn1 Hn2 Hr.
  destruct (match_columns df_excel df_pdf) as [sc|e'] eqn:Hsc.
  - destruct (column_pairs_selected _ _ _ Hn1 Hn2 Hsc) as [cols Hcols].
    destruct (compare_loop_spec df_excel df_pdf (column_pairs sc) cols []) as (diffs & Hd & _).
    { eapply Forall2_impl; [exact Hcols|]. intros p c [H1 H2].
      split; apply getitem_unique; done. }
    unfold compare_dataframes_smart in Hr. rewrite Hsc in Hr. simpl in Hr.
    rewrite Hd in Hr. discriminate.
  - pose proof (match_columns_raises_iff_aux df_excel df_pdf e' Hsc) as ->.
    unfold compare_dataframes_smart in Hr. rewrite Hsc in Hr. simpl in Hr.
    inversion Hr. done.
Qed.

Lemma compare_raises_only_attribute_error_witness :
  AttributeError = AttributeError /\
  match_columns [(LStr "Amount", [CStr "10"])]
                [(LInt 0, [CStr "Amount"]); (LInt 1, [CStr "10"])]
    = Raise AttributeError.
Proof.
  apply (compare_raises_only_attribute_error
           [(LStr "Amount", [CStr "10"])]
           [(LInt 0, [CStr "Amount"]); (LInt 1, [CStr "10"])]).
  - repeat constructor. intros H. inversion H.
  - apply NoDup_cons. split.
    + intros H. apply list_elem_of_singleton in H. discriminate.
    + repeat constructor. intros H. inversion H.
  - vm_compute. reflexivity.
Defined.

(** X6.  A frame with distinct labels compared with itself gives the
    empty report, whatever its labels and cells are: also for cells that
    are absent. *)
Theorem compare_with_itself df :
  NoDup (columns df) -> compare_dataframes_smart df df = Ok [].
Proof.
  intros Hnd. destruct df as [|[c0 s0] df']; [vm_compute; reflexivity|].
  set (df := (c0, s0) :: df') in *.
  set (S := (list_to_set (columns df) ∩ list_to_set (columns df) : gset label)).
  assert (HS : S <> ∅).
  { intros He. assert (c0 ∈ S) as Hc.
    { apply elem_of_intersection. rewrite elem_of_list_to_set.
      split; apply elem_of_cons; auto. }
    rewrite He in Hc. exact (not_elem_of_empty _ Hc). }
  assert (Hsc : match_columns df df = Ok (SharedSet S)).
  { unfold match_columns. fold S. rewrite decide_False by done. done. }
  destruct (compare_report df df _ Hnd Hnd Hsc) as (cols & Hcols & ->).
  f_equal. simpl column_pairs in *. rewrite zip_diag in *.
  revert cols Hcols. induction (elements S) as [|c cs IH]; intros cols Hcols.
  - inversion Hcols. done.
  - rewrite fmap_cons in Hcols.
    inversion Hcols as [|? [s1 s2] ? cols' [H1 H2] Hrest]; subst. simpl in *.
    rewrite (elem_of_unique_column df c s1 s2 Hnd H1 H2), column_mismatches_refl.
    simpl. apply IH. done.
Qed.

Lemma compare_with_itself_witness :
  compare_dataframes_smart blank_A blank_A = Ok [].
Proof.
  apply (compare_with_itself blank_A). repeat constructor. intros H. inversion H.
Defined.

(** X7.  Frames with string labels that share no label, and no name up to
    case, give the empty report (and no error): nothing is matched, so
    nothing is compared. *)
Theorem no_matchable_columns_empty_report df_excel df_pdf :
  Forall is_str (columns df_excel) -> Forall is_str (columns df_pdf) ->
  (forall s1 s2, LStr s1 ∈ columns df_excel -> LStr s2 ∈ columns df_pdf ->
                 lower s1 <> lower s2) ->
  match_columns df_excel df_pdf = Ok (SharedDict []) /\
  compare_dataframes_smart df_excel df_pdf = Ok [].
Proof.
  intros H1 H2 Hno. split; [|apply compare_no_shared_columns; done].
  destruct (match_columns_fallback df_excel df_pdf) as (d & Hd & _ & Hpairs);
    [|done|done|].
  - intros c Hc1 Hc2. destruct c as [s|z].
    + apply (Hno s s); done.
    + rewrite Forall_forall in H1. apply (H1 _ Hc1).
  - rewrite Hd. do 2 f_equal. destruct d as [|[a b] d]; [done|]. exfalso.
    destruct (proj1 (Hpairs a b)) as (k & Ha & Hb); [apply elem_of_cons; auto|].
    pose proof (last_lower_elem _ _ _ Ha) as Ha'.
    pose proof (last_lower_elem _ _ _ Hb) as Hb'.
    destruct Ha as (? & s1 & ? & _ & -> & Hk1 & _).
    destruct Hb as (? & s2 & ? & _ & -> & Hk2 & _).
    apply (Hno s1 s2); congruence.
Qed.

Lemma no_matchable_columns_empty_report_witness :
  match_columns name_A x_B = Ok (SharedDict []) /\
  compare_dataframes_smart name_A x_B = Ok [].
Proof.
  apply (no_matchable_columns_empty_report name_A x_B).
  - repeat constructor.
  - repeat constructor.
  - intros s1 s2 H1 H2. simpl in H1, H2.
    apply list_elem_of_singleton in H1. apply list_elem_of_singleton in H2.
    inversion H1; inversion H2; subst. vm_compute. discriminate.
Defined.

Lemma loc_ne_sorted s1 : forall s2 k,
  StronglySorted lt ((fun r : nat * cell * cell => r.1.1) <$> loc_ne k s1 s2) /\
  Forall (fun r : nat * cell * cell => k <= r.1.1) (loc_ne k s1 s2).
Proof.
  induction s1 as [|x s1 IH]; intros s2 k; simpl; [split; constructor|].
  destruct s2 as [|y s2]; [split; constructor|].
  destruct (IH s2 (S k)) as [Hs Hk].
  assert (Hk' : Forall (fun r : nat * cell * cell => k <= r.1.1) (loc_ne (S k) s1 s2)).
  { eapply Forall_impl; [exact Hk|]. simpl. intros r Hr. lia. }
  destruct (cell_ne x y); [|done]. split.
  - rewrite fmap_cons. constructor; [done|]. apply Forall_fmap.
    eapply Forall_impl; [exact Hk|]. simpl. intros r Hr. lia.
  - constructor; [simpl; lia | done].
Qed.

(** X8.  The records of a column pair come in the order of the rows: their
    row indices increase strictly, so a row has at most one record, and
    there are at most as many records as the longer column has rows. *)
Theorem records_in_row_order col c1 c2 :
  StronglySorted lt (idx <$> column_mismatches col c1 c2) /\
  length (column_mismatches col c1 c2) <= max (length c1) (length c2).
Proof.
  unfold column_mismatches. rewrite align_pad. cbn [fst snd].
  set (s1 := normalize c1 ++ _). set (s2 := normalize c2 ++ _).
  assert (Hl1 : length s1 = max (length c1) (length c2)).
  { unfold s1. rewrite length_app, length_replicate, !normalize_length. lia. }
  split.
  - rewrite <- list_fmap_compose.
    destruct (loc_ne_sorted s1 s2 0) as [Hs _].
    erewrite list_fmap_ext; [exact Hs|]. intros i [[j a] b] _. done.
  - rewrite length_fmap.
    assert (Hlen : forall (t1 t2 : list cell) k, length (loc_ne k t1 t2) <= length t1).
    { induction t1 as [|x t1 IH]; intros [|y t2] k; simpl; try lia.
      destruct (cell_ne x y); simpl; specialize (IH t2 (S k)); lia. }
    specialize (Hlen s1 s2 0). lia.
Qed.

(** X9.  At a row that both columns have, what is compared is the string
    form of the two cells, not their types: there is a record exactly when
    the two string forms differ, and it holds them. *)
Theorem compared_by_string_form col c1 c2 i x y :
  c1 !! i = Some x -> c2 !! i = Some y ->
  (Mismatch i (CStr (str x)) (CStr (str y)) col ∈ column_mismatches col c1 c2
   <-> str x <> str y) /\
  (forall m, m ∈ column_mismatches col c1 c2 -> idx m = i ->
     m = Mismatch i (CStr (str x)) (CStr (str y)) col).
Proof.
  intros Hx Hy.
  assert (H1 : (align (normalize c1) (normalize c2)).1 !! i = Some (CStr (str x))).
  { rewrite align_pad. simpl. rewrite lookup_app_l.
    - rewrite normalize_lookup, Hx. done.
    - rewrite normalize_length. eapply lookup_lt_Some. done. }
  assert (H2 : (align (normalize c1) (normalize c2)).2 !! i = Some (CStr (str y))).
  { rewrite align_pad. simpl. rewrite lookup_app_l.
    - rewrite normalize_lookup, Hy. done.
    - rewrite normalize_length. eapply lookup_lt_Some. done. }
  split.
  - rewrite column_mismatches_spec. split.
    + intros (j & a & b & [= <- <- <-] & Ha & Hb & Hne). congruence.
    + intros Hne. exists i, (CStr (str x)), (CStr (str y)).
      repeat split; try done. congruence.
  - intros m Hm Hi. apply column_mismatches_spec in Hm as (j & a & b & -> & Ha & Hb & _).
    simpl in Hi. subst j. congruence.
Qed.

Lemma compared_by_string_form_witness :
  (Mismatch 0 (CStr (str (CInt 10))) (CStr (str (CStr "10"))) (LStr "Total")
     ∈ column_mismatches (LStr "Total") [CInt 10] [CStr "10"]
   <-> str (CInt 10) <> str (CStr "10")) /\
  (forall m, m ∈ column_mismatches (LStr "Total") [CInt 10] [CStr "10"] -> idx m = 0 ->
     m = Mismatch 0 (CStr (str (CInt 10))) (CStr (str (CStr "10"))) (LStr "Total")).
Proof.
  apply (compared_by_string_form (LStr "Total") [CInt 10] [CStr "10"] 0
           (CInt 10) (CStr "10")); reflexivity.
Defined.

Lemma cell_ne_sym a b : cell_ne a b = cell_ne b a.
Proof.
  unfold cell_ne. rewrite (orb_comm (isna b)).
  destruct (isna a || isna b); [done|].
  destruct a, b; simpl; try done.
  - f_equal. apply bool_decide_ext. split; congruence.
  - f_equal. apply Z.eqb_sym.
  - f_equal. apply Z.eqb_sym.
  - f_equal. apply Z.eqb_sym.
  - f_equal. apply Z.eqb_sym.
Qed.

Lemma loc_ne_swap s1 : forall s2 k,
  loc_ne k s2 s1 = (fun r : nat * cell * cell => (r.1.1, r.2, r.1.2)) <$> loc_ne k s1 s2.
Proof.
  induction s1 as [|x s1 IH]; intros [|y s2] k; simpl; try done.
  rewrite (cell_ne_sym y x), IH. destruct (cell_ne x y); done.
Qed.

(** X10.  Exchanging the two columns exchanges the two values of every
    record and nothing else: the same rows are reported. *)
Theorem column_mismatches_swap col c1 c2 :
  column_mismatches col c2 c1
  = (fun m => Mismatch (idx m) (PDF m) (Excel m) (Column m))
      <$> column_mismatches col c1 c2.
Proof.
  unfold column_mismatches, align.
  rewrite (Nat.max_comm (length (normalize c2))).
  rewrite loc_ne_swap, <- !list_fmap_compose.
  apply list_fmap_ext. intros i [[j a] b] _. done.
Qed.

(** ** The flattened spreadsheet text *)

Lemma join_cstr sep (l : list string) : join sep (CStr <$> l) = Ok (String.concat sep l).
Proof.
  induction l as [|x l IH]; [done|].
  destruct l as [|y l]; [done|].
  change (join sep (CStr <$> x :: y :: l))
    with (join sep (CStr <$> y :: l) ≫= fun r => Ok (x +:+ sep +:+ r)).
  rewrite IH. done.
Qed.

Lemma nrows_normalize_frame df : nrows (normalize_frame df) = nrows df.
Proof. destruct df as [|[c s0] df]; [done|]. simpl. apply normalize_length. Qed.

Lemma values_flatten_normalize df :
  rectangular df -> values_flatten (normalize_frame df) = CStr <$> cell_texts df.
Proof.
  intros Hrect. unfold values_flatten, cell_texts.
  rewrite nrows_normalize_frame.
  assert (Hrow : forall i, i < nrows df ->
            (fun col : label * list cell => default CNaN (col.2 !! i)) <$> normalize_frame df
            = CStr <$> ((fun col : label * list cell => str (default CNaN (col.2 !! i))) <$> df)).
  { intros i Hi. unfold normalize_frame. rewrite <- !list_fmap_compose.
    apply Forall_fmap_ext_1. eapply Forall_impl; [exact Hrect|].
    intros [c col] Hlen. simpl in *. rewrite normalize_lookup.
    destruct (lookup_lt_is_Some_2 col i) as [x Hx]; [lia|]. rewrite Hx. done. }
  assert (Hn : forall m k, k + m <= nrows df ->
     (seq k m ≫= fun i => (fun col : label * list cell => default CNaN (col.2 !! i))
                              <$> normalize_frame df)
     = CStr <$> (seq k m ≫= fun i =>
                   (fun col : label * list cell => str (default CNaN (col.2 !! i))) <$> df)).
  { induction m as [|m IH]; intros k Hk; [done|].
    simpl. rewrite fmap_app, Hrow by lia. f_equal. apply IH. lia. }
  apply Hn. lia.
Qed.

Lemma excel_text_cell_texts df :
  rectangular df ->
  excel_text df = Ok (String.concat newline (cell_texts df)).
Proof.
  intros Hrect. unfold excel_text.
  rewrite values_flatten_normalize by done. apply join_cstr.
Qed.

(** X11.  The flattening never fails on a frame: after [astype(str)] every
    item that [join] gets is a string, and the text is the string forms of
    the cells, row by row, with a newline between two cells. *)
Theorem excel_text_total df :
  rectangular df ->
  excel_text df = Ok (String.concat newline (cell_texts df)).
Proof. apply excel_text_cell_texts. Qed.

Lemma excel_text_total_witness :
  excel_text [(LStr "X", [CStr "a"; CNaN]); (LStr "Y", [CStr "1"; CNone])]
  = Ok (String.concat newline
          (cell_texts [(LStr "X", [CStr "a"; CNaN]); (LStr "Y", [CStr "1"; CNone])])).
Proof.
  apply (excel_text_total [(LStr "X", [CStr "a"; CNaN]); (LStr "Y", [CStr "1"; CNone])]).
  repeat constructor.
Defined.

(** ** Lines of a joined text *)

Lemma string_app_cons c (s t : string) : String c s +:+ t = String c (s +:+ t).
Proof. reflexivity. Qed.

Lemma string_app_nil_l (t : string) : EmptyString +:+ t = t.
Proof. reflexivity. Qed.

Lemma string_app_nil_r (s : string) : s +:+ EmptyString = s.
Proof.
  induction s as [|c s IH]; [done|]. rewrite string_app_cons, IH. done.
Qed.

Lemma string_app_assoc (s1 s2 s3 : string) : (s1 +:+ s2) +:+ s3 = s1 +:+ (s2 +:+ s3).
Proof.
  induction s1 as [|c s1 IH]; [done|]. rewrite !string_app_cons, IH. done.
Qed.

Lemma splitlines_from_plain l : forall s cur,
  no_linebreak l ->
  splitlines_from (l +:+ s) cur false = splitlines_from s (cur +:+ l) false.
Proof.
  induction l as [|c l IH]; intros s cur Hl.
  - rewrite string_app_nil_r. done.
  - unfold no_linebreak in Hl. simpl in Hl. apply Forall_cons in Hl as [Hc Hl].
    rewrite string_app_cons. simpl. rewrite Hc. rewrite IH by done. f_equal.
    rewrite string_app_assoc. done.
Qed.

Lemma splitlines_from_newline s cur :
  splitlines_from (newline +:+ s) cur false = cur :: splitlines_from s EmptyString false.
Proof. reflexivity. Qed.

Lemma splitlines_concat ls :
  Forall no_linebreak ls ->
  splitlines (String.concat newline ls) = without_empty_last ls.
Proof.
  unfold splitlines. induction ls as [|x ls IH]; intros Hall; [done|].
  apply Forall_cons in Hall as [Hx Hall].
  destruct ls as [|y ls].
  - simpl. rewrite <- (string_app_nil_r x) at 1.
    rewrite splitlines_from_plain by done. simpl.
    unfold without_empty_last. simpl. destruct x; done.
  - change (String.concat newline (x :: y :: ls))
      with (x +:+ newline +:+ String.concat newline (y :: ls)).
    rewrite splitlines_from_plain, splitlines_from_newline by done.
    rewrite string_app_nil_l, IH by done.
    unfold without_empty_last. rewrite last_cons_cons.
    destruct (last (y :: ls)) as [[|]|] eqn:Hlast; try done.
Qed.

(** X12.  The lines that the text differ gets from the flattened
    spreadsheet are the string forms of the cells, row by row, when no
    string form holds a line boundary; an empty string form at the very end
    gives no line. *)
Theorem excel_text_lines df :
  rectangular df -> Forall no_linebreak (cell_texts df) ->
  exists text,
    excel_text df = Ok text /\
    splitlines text = without_empty_last (cell_texts df).
Proof.
  intros Hrect Hplain. exists (String.concat newline (cell_texts df)).
  split; [apply excel_text_cell_texts; done | apply splitlines_concat; done].
Qed.

Lemma excel_text_lines_witness :
  exists text,
    excel_text [(LStr "X", [CStr "a"; CNaN]); (LStr "Y", [CStr "b c"; CStr ""])] = Ok text /\
    splitlines text
    = without_empty_last
        (cell_texts [(LStr "X", [CStr "a"; CNaN]); (LStr "Y", [CStr "b c"; CStr ""])]).
Proof.
  apply (excel_text_lines [(LStr "X", [CStr "a"; CNaN]); (LStr "Y", [CStr "b c"; CStr ""])]).
  - repeat constructor.
  - repeat constructor.
Defined.

(** ** The combined text of the pages *)

Lemma splitlines_from_app x : forall s cur f,
  splitlines_from (x +:+ s) cur f =
    (scan_lines x cur f).1.1 ++
    splitlines_from s (scan_lines x cur f).1.2 (scan_lines x cur f).2.
Proof.
  induction x as [|c x IH]; intros s cur f; [done|].
  rewrite string_app_cons. simpl.
  destruct (f && bool_decide (c = ascii_of_nat 10)); [apply IH|].
  destruct (is_linebreak c).
  - rewrite IH. destruct (scan_lines x EmptyString _) as [[pre cur'] f']. done.
  - apply IH.
Qed.

Lemma scan_lines_open x : forall cur f,
  open_ended x ->
  (scan_lines x cur f).2 = false /\ (scan_lines x cur f).1.2 <> EmptyString.
Proof.
  induction x as [|c x IH]; intros cur f Hopen; [done|].
  destruct x as [|c' x].
  - simpl in Hopen. simpl. rewrite Hopen.
    destruct (f && bool_decide (c = ascii_of_nat 10)) eqn:Hf.
    + apply andb_true_iff in Hf as [_ Hc]. apply bool_decide_eq_true in Hc.
      subst c. discriminate.
    + simpl. split; [done|]. destruct cur; discriminate.
  - change (open_ended (String c (String c' x))) with (open_ended (String c' x)) in Hopen.
    change (scan_lines (String c (String c' x)) cur f) with
      (if f && bool_decide (c = ascii_of_nat 10) then scan_lines (String c' x) cur false
       else if is_linebreak c
            then let '(pre, cur', f') :=
                   scan_lines (String c' x) EmptyString (bool_decide (c = ascii_of_nat 13)) in
                 (cur :: pre, cur', f')
            else scan_lines (String c' x) (cur +:+ String c EmptyString) false).
    destruct (f && bool_decide (c = ascii_of_nat 10)); [apply IH; done|].
    destruct (is_linebreak c); [|apply IH; done].
    specialize (IH EmptyString (bool_decide (c = ascii_of_nat 13)) Hopen).
    destruct (scan_lines (String c' x) EmptyString _) as [[pre cur'] f']. done.
Qed.

Lemma splitlines_scan x :
  splitlines x = (scan_lines x EmptyString false).1.1 ++
                 splitlines_from EmptyString (scan_lines x EmptyString false).1.2
                   (scan_lines x EmptyString false).2.
Proof.
  unfold splitlines. rewrite <- (string_app_nil_r x) at 1. apply splitlines_from_app.
Qed.

(** A newline after a text that does not end with a line boundary closes
    the last line of the text and nothing else. *)
Lemma splitlines_open_newline x s :
  open_ended x ->
  splitlines (x +:+ newline +:+ s) = splitlines x ++ splitlines s.
Proof.
  intros Hopen. rewrite (splitlines_scan x). unfold splitlines.
  rewrite splitlines_from_app.
  destruct (scan_lines_open x EmptyString false Hopen) as [Hf Hcur].
  destruct (scan_lines x EmptyString false) as [[pre cur] f]. cbn [fst snd] in *.
  subst f. rewrite splitlines_from_newline, <- app_assoc. f_equal.
  cbn [splitlines_from]. rewrite decide_False by done. done.
Qed.

Lemma scan_lines_closed t : forall cur f,
  (f = true -> cur = EmptyString) ->
  (scan_lines (t +:+ newline) cur f).1.2 = EmptyString /\
  (scan_lines (t +:+ newline) cur f).2 = false.
Proof.
  induction t as [|c t IH]; intros cur f Hf.
  - destruct f; [rewrite Hf by done|]; done.
  - rewrite string_app_cons. cbn [scan_lines].
    destruct (f && bool_decide (c = ascii_of_nat 10)); [apply IH; done|].
    destruct (is_linebreak c); [|apply IH; done].
    specialize (IH EmptyString (bool_decide (c = ascii_of_nat 13)) (fun _ => eq_refl)).
    destruct (scan_lines (t +:+ newline) EmptyString _) as [[pre cur'] f']. done.
Qed.

(** The lines of a text that goes on after a newline: the lines up to the
    newline, then the lines of what follows. *)
Lemma splitlines_newline t s :
  splitlines (t +:+ newline +:+ s) = splitlines (t +:+ newline) ++ splitlines s.
Proof.
  rewrite <- string_app_assoc. rewrite (splitlines_scan (t +:+ newline)).
  unfold splitlines at 1. rewrite splitlines_from_app.
  destruct (scan_lines_closed t EmptyString false) as [Hcur Hf]; [done|].
  destruct (scan_lines (t +:+ newline) EmptyString false) as [[pre cur] f].
  cbn [fst snd] in *. subst cur f. cbn [splitlines_from].
  rewrite decide_True by done. rewrite app_nil_r. done.
Qed.

(** X13.  The lines of the combined text of the pages are, page after
    page, the lines of the text of the page with the newline that joins it
    to the next page, and the lines of the last page.  A page without text
    that is not the last one is exactly one empty line, wherever it is; for
    a page whose text is not empty and does not end with a line boundary
    the newline adds nothing to the lines of the page. *)
Theorem combined_text_lines :
  (forall (pages : list (option string)) (last_page : option string),
     splitlines (combined_text (pages ++ [last_page]))
     = concat ((fun p => splitlines (default EmptyString p +:+ newline)) <$> pages)
       ++ splitlines (default EmptyString last_page)) /\
  splitlines (default EmptyString None +:+ newline) = [EmptyString] /\
  (forall t, open_ended t -> splitlines (t +:+ newline) = splitlines t).
Proof.
  split; [|split].
  - intros pages last_page. induction pages as [|p pages IH]; [done|].
    unfold combined_text in *. rewrite fmap_app in *.
    change ((default EmptyString <$> p :: pages) ++ (default EmptyString <$> [last_page]))
      with (default EmptyString p
              :: ((default EmptyString <$> pages) ++ (default EmptyString <$> [last_page]))).
    destruct ((default EmptyString <$> pages) ++ (default EmptyString <$> [last_page]))
      as [|y ys] eqn:Hys.
    { destruct pages; discriminate. }
    change (String.concat newline (default EmptyString p :: y :: ys))
      with (default EmptyString p +:+ newline +:+ String.concat newline (y :: ys)).
    rewrite splitlines_newline, IH.
    rewrite fmap_cons. cbn [concat]. rewrite <- app_assoc. done.
  - reflexivity.
  - intros t Hopen.
    pose proof (splitlines_open_newline t EmptyString Hopen) as H.
    rewrite string_app_nil_r, app_nil_r in H. exact H.
Qed.

Lemma combined_text_lines_witness :
  splitlines (combined_text ([Some "Total"; None; Some ("10" +:+ newline)] ++ [Some "end"]))
  = concat ((fun p => splitlines (default EmptyString p +:+ newline))
              <$> [Some "Total"; None; Some ("10" +:+ newline)])
    ++ splitlines (default EmptyString (Some "end")).
Proof.
  apply (proj1 combined_text_lines [Some "Total"; None; Some ("10" +:+ newline)] (Some "end")).
Defined.

(** ** The encoding of the export *)

Lemma encode_char_length c : 1 <= length (encode_char c) <= 2.
Proof. unfold encode_char. destruct (_ <? _)%nat; simpl; lia. Qed.

(** X14.  The UTF-8 encoding loses nothing: two texts with the same bytes
    are the same text; a character takes one or two bytes, and a text of
    code points below 128 is encoded byte for byte. *)
Theorem encode_utf8_faithful s :
  (forall s', encode_utf8 s = encode_utf8 s' -> s = s') /\
  String.length s <= length (encode_utf8 s) <= 2 * String.length s /\
  (Forall (fun c => nat_of_ascii c < 128) (list_ascii_of_string s) ->
   encode_utf8 s = byte_of_ascii <$> list_ascii_of_string s).
Proof.
  split; [|split].
  - intros s' Heq. pose proof (decode_encode_utf8 s) as H1.
    rewrite Heq, decode_encode_utf8 in H1. congruence.
  - induction s as [|c s IH]; simpl; [lia|].
    rewrite length_app. pose proof (encode_char_length c). lia.
  - induction s as [|c s IH]; intros Hall; [done|].
    simpl in Hall. apply Forall_cons in Hall as [Hc Hall].
    simpl. rewrite IH by done. unfold encode_char.
    apply Nat.ltb_lt in Hc. rewrite Hc. done.
Qed.

Lemma encode_utf8_faithful_witness :
  encode_utf8 "PDF" = byte_of_ascii <$> list_ascii_of_string "PDF".
Proof.
  apply (proj2 (proj2 (encode_utf8_faithful "PDF"))).
  simpl. repeat (constructor; [vm_compute; lia|]). constructor.
Defined.

(** ** The matching blocks of two sequences *)

Lemma chain_b_sound b : b2j_sound b (chain_b b).
Proof.
  intros elt js j Hjs Hj. destruct (chain_b_lookup _ _ _ Hjs) as [-> _].
  apply positions_elem in Hj as (j' & -> & Hj'). done.
Qed.

Section matching.
Variables a b : list string.
Variable b2j : gmap string (list nat).
Hypothesis Hb2j : b2j_sound b b2j.

Lemma scan_row_sound alo ahi blo bhi i M : forall js newM best,
  alo <= i -> i < ahi -> ahi <= length a -> bhi <= length b ->
  j2len_ok a b alo blo bhi i M ->
  (forall j, j ∈ js -> a !! i = b !! j) ->
  j2len_ok a b alo blo bhi (S i) newM ->
  valid_match a b best -> in_ranges alo ahi blo bhi best ->
  j2len_ok a b alo blo bhi (S i) (scan_row i blo bhi js M newM best).1 /\
  valid_match a b (scan_row i blo bhi js M newM best).2 /\
  in_ranges alo ahi blo bhi (scan_row i blo bhi js M newM best).2.
Proof.
  induction js as [|j js IH]; intros newM best Hlo Hhi Hla Hlb HM Hjs Hnew Hv Hr;
    [done|].
  assert (Hjs' : forall j0, j0 ∈ js -> a !! i = b !! j0).
  { intros j0 Hj0. apply Hjs, elem_of_cons. auto. }
  simpl. destruct (decide (j < blo)) as [Hlt|Hge]; [apply IH; done|].
  destruct (decide (bhi <= j)) as [Hout|Hin]; [done|].
  set (k := match j with 0 => 0 | S j' => default 0 (M !! j') end + 1).
  assert (Hk : 1 <= k /\ k <= S i - alo /\ k <= j + 1 - blo /\
               forall t, t < k -> a !! (i - t) = b !! (j - t)).
  { assert (H0 : a !! i = b !! j) by (apply Hjs, elem_of_cons; auto).
    unfold k. destruct j as [|j'].
    - simpl. repeat split; try lia. intros t Ht. replace t with 0 by lia.
      rewrite !Nat.sub_0_r. done.
    - destruct (M !! j') as [k'|] eqn:Hk'; simpl.
      + destruct (HM _ _ Hk') as (Hi & H1 & H2 & H3 & H4 & H5).
        repeat split; try lia. intros t Ht. destruct t as [|t].
        * rewrite !Nat.sub_0_r. done.
        * replace (i - S t) with (i - 1 - t) by lia.
          replace (S j' - S t) with (j' - t) by lia. apply H5. lia.
      + repeat split; try lia. intros t Ht. replace t with 0 by lia.
        rewrite !Nat.sub_0_r. done. }
  destruct Hk as (Hk1 & Hk2 & Hk3 & Hk4).
  apply IH; try done.
  - intros j0 k0. destruct (decide (j = j0)) as [<-|Hne].
    + rewrite lookup_insert_eq. intros [= <-].
      repeat split; try lia. intros t Ht.
      replace (S i - 1 - t) with (i - t) by lia. apply Hk4. done.
    + rewrite lookup_insert_ne by done. apply Hnew.
  - destruct (decide (best.2 < k)); [|done].
    unfold valid_match. simpl. repeat split; try lia.
    intros t Ht. specialize (Hk4 (k - 1 - t) ltac:(lia)).
    replace (i + 1 - k + t) with (i - (k - 1 - t)) by lia.
    replace (j + 1 - k + t) with (j - (k - 1 - t)) by lia. done.
  - destruct (decide (best.2 < k)); [|done].
    unfold in_ranges. simpl. lia.
Qed.

Lemma scan_rows_sound alo ahi blo bhi m : forall i M best,
  alo <= i -> i + m = ahi -> ahi <= length a -> bhi <= length b ->
  j2len_ok a b alo blo bhi i M ->
  valid_match a b best -> in_ranges alo ahi blo bhi best ->
  valid_match a b (scan_rows a b2j blo bhi (seq i m) M best) /\
  in_ranges alo ahi blo bhi (scan_rows a b2j blo bhi (seq i m) M best).
Proof.
  induction m as [|m IH]; intros i M best Hlo Him Hla Hlb HM Hv Hr; [done|].
  simpl.
  assert (Hjs : forall j, j ∈ default [] (b2j !! (a !!! i)) -> a !! i = b !! j).
  { intros j Hj. destruct (b2j !! (a !!! i)) as [js|] eqn:Hjs; [|inversion Hj].
    simpl in Hj. rewrite (Hb2j _ _ _ Hjs Hj).
    apply list_lookup_lookup_total_lt. lia. }
  assert (Hnew : j2len_ok a b alo blo bhi (S i) ∅).
  { intros j k. rewrite lookup_empty. discriminate. }
  destruct (scan_row_sound alo ahi blo bhi i M (default [] (b2j !! (a !!! i))) ∅ best
              Hlo ltac:(lia) Hla Hlb HM Hjs Hnew Hv Hr) as (HM' & Hv' & Hr').
  destruct (scan_row i blo bhi _ M ∅ best) as [newM best'].
  apply (IH (S i)); try done; lia.
Qed.

Lemma extend_back_sound junk bjunk alo ahi blo bhi besti : forall bestj bestsize,
  ahi <= length a -> bhi <= length b ->
  valid_match a b (besti, bestj, bestsize) ->
  in_ranges alo ahi blo bhi (besti, bestj, bestsize) ->
  valid_match a b (extend_back junk bjunk a b alo blo besti bestj bestsize) /\
  in_ranges alo ahi blo bhi (extend_back junk bjunk a b alo blo besti bestj bestsize).
Proof.
  induction besti as [|i' IH]; intros bestj bestsize Hla Hlb Hv Hr; [done|].
  destruct bestj as [|j']; [done|]. simpl.
  destruct (decide _) as [(H1 & H2 & _ & Heq)|_]; [|done].
  unfold valid_match, in_ranges in *. simpl in *.
  destruct Hv as (Hva & Hvb & Hm). destruct Hr as (Hr1 & Hr2 & Hr3 & Hr4).
  apply IH; try done; simpl; repeat split; try lia.
  intros t Ht. destruct t as [|t].
  - rewrite !Nat.add_0_r.
    rewrite (list_lookup_lookup_total_lt a i') by lia.
    rewrite (list_lookup_lookup_total_lt b j') by lia. congruence.
  - replace (i' + S t) with (S (i' + t)) by lia.
    replace (j' + S t) with (S (j' + t)) by lia. apply Hm. lia.
Qed.

Lemma extend_fwd_sound junk bjunk alo ahi blo bhi besti bestj n : forall bestsize,
  ahi <= length a -> bhi <= length b ->
  valid_match a b (besti, bestj, bestsize) ->
  in_ranges alo ahi blo bhi (besti, bestj, bestsize) ->
  valid_match a b
    (besti, bestj, extend_fwd junk bjunk a b ahi bhi n besti bestj bestsize) /\
  in_ranges alo ahi blo bhi
    (besti, bestj, extend_fwd junk bjunk a b ahi bhi n besti bestj bestsize).
Proof.
  induction n as [|n IH]; intros bestsize Hla Hlb Hv Hr; [done|]. simpl.
  destruct (decide _) as [(H1 & H2 & _ & Heq)|_]; [|done].
  unfold valid_match, in_ranges in *. simpl in *.
  destruct Hv as (Hva & Hvb & Hm). destruct Hr as (Hr1 & Hr2 & Hr3 & Hr4).
  apply IH; try done; simpl; repeat split; try lia.
  intros t Ht. destruct (decide (t = bestsize)) as [->|Hne]; [|apply Hm; lia].
  rewrite (list_lookup_lookup_total_lt a (besti + bestsize)) by lia.
  rewrite (list_lookup_lookup_total_lt b (bestj + bestsize)) by lia. congruence.
Qed.

(** [find_longest_match] returns a match, and one inside the ranges. *)
Lemma find_longest_match_sound bjunk alo ahi blo bhi :
  alo <= ahi -> ahi <= length a -> blo <= bhi -> bhi <= length b ->
  valid_match a b (find_longest_match a b b2j bjunk alo ahi blo bhi) /\
  in_ranges alo ahi blo bhi (find_longest_match a b b2j bjunk alo ahi blo bhi).
Proof.
  intros Ha Hla Hb Hlb. unfold find_longest_match.
  assert (H0 : j2len_ok a b alo blo bhi alo ∅).
  { intros j k. rewrite lookup_empty. discriminate. }
  assert (Hv0 : valid_match a b (alo, blo, 0)).
  { unfold valid_match. simpl. repeat split; lia. }
  assert (Hr0 : in_ranges alo ahi blo bhi (alo, blo, 0)).
  { unfold in_ranges. simpl. lia. }
  destruct (scan_rows_sound alo ahi blo bhi (ahi - alo) alo ∅ (alo, blo, 0)
              ltac:(lia) ltac:(lia) Hla Hlb H0 Hv0 Hr0) as [Hv1 Hr1].
  destruct (scan_rows a b2j blo bhi _ ∅ (alo, blo, 0)) as [[i1 j1] k1].
  destruct (extend_back_sound false bjunk alo ahi blo bhi i1 j1 k1) as [Hv2 Hr2];
    try done.
  destruct (extend_back false bjunk a b alo blo i1 j1 k1) as [[i2 j2] k2].
  destruct (extend_fwd_sound false bjunk alo ahi blo bhi i2 j2 (ahi - (i2 + k2)) k2)
    as [Hv3 Hr3]; try done.
  set (k3 := extend_fwd false bjunk a b ahi bhi _ i2 j2 k2) in *.
  destruct (extend_back_sound true bjunk alo ahi blo bhi i2 j2 k3) as [Hv4 Hr4];
    try done.
  destruct (extend_back true bjunk a b alo blo i2 j2 k3) as [[i4 j4] k4].
  apply extend_fwd_sound; done.
Qed.

(** The loop of [get_matching_blocks] ends within its number of turns,
    with matches only. *)
Lemma matching_loop_sound bjunk fuel : forall queue blocks,
  queue_ok a b queue -> queue_weight queue <= fuel ->
  Forall (valid_match a b) blocks ->
  exists blocks',
    matching_loop fuel a b b2j bjunk queue blocks = Some blocks' /\
    Forall (valid_match a b) blocks'.
Proof.
  induction fuel as [|fuel IH]; intros queue blocks Hq Hw Hblocks.
  - destruct queue as [|q queue]; [eauto|]. simpl in Hw. lia.
  - destruct queue as [|[[[alo ahi] blo] bhi] queue]; [simpl; eauto|].
    apply Forall_cons in Hq as [(Ha & Hla & Hb & Hlb) Hq]. simpl in *.
    destruct (find_longest_match_sound bjunk alo ahi blo bhi Ha Hla Hb Hlb) as [Hv Hr].
    destruct (find_longest_match a b b2j bjunk alo ahi blo bhi) as [[i j] k].
    unfold in_ranges in Hr. simpl in Hr.
    destruct (decide (k = 0)) as [->|Hk]; [apply IH; try done; lia|].
    apply IH.
    + repeat case_decide; repeat (apply Forall_cons; split); simpl; try done; lia.
    + repeat case_decide; simpl; lia.
    + apply Forall_app. split; [done|]. constructor; [done|constructor].
Qed.
End matching.

Lemma collapse_sound a b blocks : forall i1 j1 k1 non_adjacent,
  Forall (valid_match a b) blocks ->
  valid_match a b (i1, j1, k1) ->
  Forall (valid_match a b) non_adjacent ->
  Forall (valid_match a b) (collapse blocks i1 j1 k1 non_adjacent).
Proof.
  induction blocks as [|[[i2 j2] k2] blocks IH]; intros i1 j1 k1 non_adjacent Hb Hv Hn.
  - simpl. destruct (decide (k1 = 0)); [done|].
    apply Forall_app. split; [done|]. constructor; [done|constructor].
  - apply Forall_cons in Hb as [Hv2 Hb]. simpl.
    destruct (decide _) as [[<- <-]|_].
    + apply IH; try done. unfold valid_match in *. simpl in *.
      destruct Hv as (H1 & H2 & Hm). destruct Hv2 as (H3 & H4 & Hm2).
      repeat split; try lia. intros t Ht.
      destruct (decide (t < k1)) as [Hlt|Hge]; [apply Hm; done|].
      specialize (Hm2 (t - k1) ltac:(lia)).
      replace (i1 + k1 + (t - k1)) with (i1 + t) in Hm2 by lia.
      replace (j1 + k1 + (t - k1)) with (j1 + t) in Hm2 by lia. done.
    + apply IH; try done. destruct (decide (k1 = 0)); [done|].
      apply Forall_app. split; [done|]. constructor; [done|constructor].
Qed.

Lemma opcodes_from_sound a b blocks : forall i j answer,
  Forall (valid_match a b) blocks ->
  Forall (equal_is_equal a b) answer ->
  Forall (equal_is_equal a b) (opcodes_from blocks i j answer).
Proof.
  induction blocks as [|[[ai bj] size] blocks IH]; intros i j answer Hb Hans; [done|].
  apply Forall_cons in Hb as [Hv Hb]. simpl. apply IH; [done|].
  assert (Hgap : Forall (equal_is_equal a b)
            (if decide (i < ai /\ j < bj) then answer ++ [(Treplace, i, ai, j, bj)]
             else if decide (i < ai) then answer ++ [(Tdelete, i, ai, j, bj)]
             else if decide (j < bj) then answer ++ [(Tinsert, i, ai, j, bj)]
             else answer)).
  { repeat case_decide; try done; apply Forall_app; (split; [done|]);
      constructor; simpl; done. }
  destruct (decide (size = 0)); [done|].
  apply Forall_app. split; [done|]. constructor; [|constructor].
  unfold valid_match in Hv. simpl in *. destruct Hv as (H1 & H2 & Hm).
  repeat split; try lia. intros t Ht. apply Hm. lia.
Qed.

(** X15.  [SequenceMatcher.get_opcodes] returns for every two sequences
    of lines (the turns granted to the loop of [get_matching_blocks] are
    enough), and every range that it tags equal is equal: it lies in both
    sequences, has the same length on both sides and holds the same lines
    at the same offsets. *)
Theorem equal_opcodes_are_equal (a b : list string) :
  exists ops,
    get_opcodes a b = Some ops /\
    forall i1 i2 j1 j2, (Tequal, i1, i2, j1, j2) ∈ ops ->
      i1 < i2 /\ i2 <= length a /\ j2 <= length b /\ i2 - i1 = j2 - j1 /\
      forall t, t < i2 - i1 -> a !! (i1 + t) = b !! (j1 + t).
Proof.
  destruct (matching_loop_sound a b (chain_b b) (chain_b_sound b) ∅
              (2 * length a + 1) [(0, length a, 0, length b)] [])
    as (blocks & Hloop & Hblocks).
  { repeat constructor; simpl; lia. }
  { simpl. lia. }
  { constructor. }
  unfold get_opcodes, get_matching_blocks. rewrite Hloop. simpl.
  eexists. split; [reflexivity|].
  assert (Hall : Forall (equal_is_equal a b)
            (opcodes_from (collapse (merge_sort block_le blocks) 0 0 0 []
                           ++ [(length a, length b, 0)]) 0 0 [])).
  { apply opcodes_from_sound; [|constructor]. apply Forall_app. split.
    - apply collapse_sound; [| |constructor].
      + rewrite merge_sort_Permutation. done.
      + unfold valid_match. simpl. repeat split; try lia.
    - constructor; [|constructor]. unfold valid_match. simpl. repeat split; try lia. }
  intros i1 i2 j1 j2 Hin. rewrite Forall_forall in Hall. exact (Hall _ Hin).
Qed.

(** ** The difference against an empty text *)

Lemma scan_rows_no_positions (a : list string) blo bhi rows : forall M best,
  scan_rows a ∅ blo bhi rows M best = best.
Proof.
  induction rows as [|i rows IH]; intros M best; simpl; [done|].
  rewrite lookup_empty. simpl. apply IH.
Qed.

Lemma get_opcodes_nil_l (b : list string) :
  get_opcodes [] b = Some (match b with
                           | [] => []
                           | _ => [(Tinsert, 0, 0, 0, length b)]
                           end).
Proof.
  destruct b as [|x l]; [reflexivity|].
  unfold get_opcodes, get_matching_blocks. simpl.
  repeat case_decide; (lia || reflexivity).
Qed.

Lemma get_opcodes_nil_r (a : list string) :
  get_opcodes a [] = Some (match a with
                           | [] => []
                           | _ => [(Tdelete, 0, length a, 0, 0)]
                           end).
Proof.
  assert (Hflm : find_longest_match a [] (chain_b []) ∅ 0 (length a) 0 0 = (0, 0, 0)).
  { unfold find_longest_match. change (chain_b []) with (∅ : gmap string (list nat)).
    rewrite scan_rows_no_positions. cbn [extend_back].
    rewrite extend_fwd_no_junk.
    destruct (length a - (0 + 0)); [reflexivity|].
    cbn [extend_fwd]. rewrite decide_False by lia. reflexivity. }
  unfold get_opcodes, get_matching_blocks.
  replace (2 * length a + 1) with (S (2 * length a)) by lia.
  cbn [matching_loop length]. rewrite Hflm.
  rewrite decide_True by done.
  assert (Hend : matching_loop (2 * length a) a [] (chain_b []) ∅ [] [] = Some []).
  { destruct (2 * length a); reflexivity. }
  rewrite Hend. destruct a as [|x l]; [reflexivity|].
  simpl. repeat case_decide; (lia || reflexivity).
Qed.

Lemma compare_nil_l fr (b : list string) : compare fr [] b = Some (sideline true <$> b).
Proof.
  unfold compare. rewrite get_opcodes_nil_l.
  destruct b as [|x l]; [reflexivity|].
  cbn [mbind option_bind fmap list_fmap concat]. rewrite app_nil_r, dump_all.
  reflexivity.
Qed.

Lemma compare_nil_r fr (a : list string) : compare fr a [] = Some (sideline false <$> a).
Proof.
  unfold compare. rewrite get_opcodes_nil_r.
  destruct a as [|x l]; [reflexivity|].
  cbn [mbind option_bind fmap list_fmap concat]. rewrite app_nil_r, dump_all.
  reflexivity.
Qed.

Lemma refill_fmap (f : string -> string) n : forall buf x rest,
  (0 < x -> rest = []) ->
  exists buf' x' rest',
    refill n ((f <$> buf) ++ replicate x "X") (f <$> rest)
      = ((f <$> buf') ++ replicate x' "X", f <$> rest') /\
    buf' ++ rest' = buf ++ rest /\
    length buf' + x' = length buf + x + n /\
    (0 < x' -> rest' = []).
Proof.
  induction n as [|n IH]; intros buf x rest Hx; simpl.
  - exists buf, x, rest. repeat split; [lia|done].
  - destruct rest as [|r rest]; simpl.
    + destruct (IH buf (S x) []) as (buf' & x' & rest' & Hr & Hall & Hlen & Hx'); [done|].
      exists buf', x', rest'.
      replace (((f <$> buf) ++ replicate x "X") ++ ["X"])
        with ((f <$> buf) ++ replicate (S x) "X").
      * repeat split; try done. lia.
      * rewrite <- app_assoc. f_equal.
        change ["X"] with (replicate 1 "X"). rewrite <- replicate_add.
        f_equal. lia.
    + assert (x = 0) as -> by (destruct x; [done|]; discriminate Hx; lia).
      destruct (IH (buf ++ [r]) 0 rest) as (buf' & x' & rest' & Hr & Hall & Hlen & Hx');
        [lia|].
      exists buf', x', rest'. simpl. rewrite app_nil_r.
      rewrite fmap_app in Hr. simpl in Hr. rewrite app_nil_r in Hr.
      repeat split; try done.
      * rewrite Hall, <- app_assoc. done.
      * rewrite length_app in Hlen. simpl in Hlen. lia.
Qed.

(** [_line_iterator] on a delta of lines of one side. *)
Lemma line_iterator_one_sided il side fuel : forall buf x rest (p : Z) nf nt,
  (0 < x -> rest = []) -> length buf + x <= 4 -> length (buf ++ rest) < fuel ->
  line_iterator il fuel ((sideline side <$> buf) ++ replicate x "X")
    (sideline side <$> rest) p (nf, nt)
  = Some ((half side <$> one_sided_lines (side_key side) (if side then nt else nf)
                           (buf ++ rest))
          ++ catch_up (if side then p + Z.of_nat (length (buf ++ rest))
                       else p - Z.of_nat (length (buf ++ rest)))%Z).
Proof.
  induction fuel as [|fuel IH]; intros buf x rest p nf nt Hx Hlen Hfuel; [lia|].
  cbn [line_iterator].
  destruct (refill_fmap (sideline side)
              (4 - length ((sideline side <$> buf) ++ replicate x "X")) buf x rest Hx)
    as (buf' & x' & rest' & Hr & Hall & Hlen' & Hx').
  rewrite Hr. rewrite length_app, length_fmap, length_replicate in Hlen'.
  rewrite <- Hall in *. clear Hr Hall.
  destruct buf' as [|l buf'].
  - simpl in Hlen'. assert (x' = 4) as -> by lia.
    rewrite Hx' by lia. simpl.
    destruct side; f_equal; f_equal; lia.
  - assert (Hrefill : refill (4 - length ((sideline side <$> l :: buf') ++ replicate x' "X"))
                        ((sideline side <$> l :: buf') ++ replicate x' "X")
                        (sideline side <$> rest')
                      = ((sideline side <$> l :: buf') ++ replicate x' "X",
                         sideline side <$> rest')).
    { rewrite length_app, length_fmap, length_replicate.
      replace (4 - (length (l :: buf') + x')) with 0 by lia. reflexivity. }
    assert (Hstep :
      line_iterator il (S fuel) ((sideline side <$> l :: buf') ++ replicate x' "X")
        (sideline side <$> rest') p (nf, nt)
      = cons (half side (Num (S (if side then nt else nf)), marked (side_key side) l))
          <$> line_iterator il fuel ((sideline side <$> buf') ++ replicate x' "X")
                (sideline side <$> rest') (if side then p + 1 else p - 1)%Z
                (if side then (nf, S nt) else (S nf, nt))).
    { cbn [line_iterator]. rewrite Hrefill. clear Hrefill.
      destruct buf' as [|l2 [|l3 buf']].
      - simpl in Hlen'. assert (x' = 3) as -> by lia. destruct side; reflexivity.
      - simpl in Hlen'. assert (x' = 2) as -> by lia. destruct side; reflexivity.
      - destruct side; reflexivity. }
    cbn [line_iterator] in Hstep. rewrite Hrefill in Hstep. rewrite Hstep.
    clear Hstep Hrefill. simpl in Hlen', Hfuel.
    destruct side; rewrite IH by (done || lia); simpl; f_equal; f_equal; f_equal;
      f_equal; lia.
Qed.

(** [_line_pair_iterator] pairs the lines of the two sides in their
    order, as far as both sides have lines; the turns that [_mdiff] grants
    are enough. *)
Lemma line_pair_iterator_zip fuel : forall input F T,
  2 * length input + min (length F) (length T) < fuel ->
  line_pair_iterator fuel input F T
  = Some (zip_with pair_lines (F ++ from_lines input) (T ++ to_lines input)).
Proof.
  induction fuel as [|fuel IH]; intros input F T Hfuel; [lia|].
  assert (Hread : forall r input',
            input = r :: input' ->
            2 * length input' +
              min (length (match r.1.1 with Some l => F ++ [(l, r.2)] | None => F end))
                  (length (match r.1.2 with Some l => T ++ [(l, r.2)] | None => T end))
              < fuel ->
            line_pair_iterator fuel input'
              (match r.1.1 with Some l => F ++ [(l, r.2)] | None => F end)
              (match r.1.2 with Some l => T ++ [(l, r.2)] | None => T end)
            = Some (zip_with pair_lines (F ++ from_lines input) (T ++ to_lines input))).
  { intros [[fl tl] d] input' -> Hlt. rewrite IH by done. f_equal.
    unfold from_lines, to_lines. simpl.
    destruct fl, tl; simpl; rewrite <- ?app_assoc; reflexivity. }
  destruct F as [|[f fd] F].
  - destruct input as [|[[fl tl] d] input']; [destruct T as [|[] ?]; reflexivity|].
    specialize (Hread (fl, tl, d) input' eq_refl). simpl in Hread, Hfuel.
    destruct T as [|[t td] T]; simpl; apply Hread;
      destruct fl, tl; simpl; rewrite ?length_app; simpl; lia.
  - destruct T as [|[t td] T].
    + destruct input as [|[[fl tl] d] input'].
      * reflexivity.
      * specialize (Hread (fl, tl, d) input' eq_refl). simpl in Hread, Hfuel.
        simpl. apply Hread. destruct fl, tl; simpl; rewrite ?length_app; simpl; lia.
    + simpl. simpl in Hfuel. rewrite IH by lia. reflexivity.
Qed.

Lemma catch_up_one_sided (side : bool) (m : nat) :
  catch_up (if side then 0 + Z.of_nat m else 0 - Z.of_nat m)%Z
  = replicate m (if side then (Some (Blank, newline), None, true)
                 else (None, Some (Blank, newline), true)).
Proof.
  unfold catch_up. destruct side.
  - rewrite decide_False by lia. f_equal. lia.
  - destruct m as [|m]; [reflexivity|].
    rewrite decide_True by lia. f_equal. lia.
Qed.

Lemma zip_blank_l (ts : list line) :
  zip_with pair_lines (replicate (length ts) ((Blank, newline), true))
    ((fun t => (t, true)) <$> ts)
  = (fun t => ((Blank, newline), t, true)) <$> ts.
Proof.
  induction ts as [|t ts IH]; [done|].
  cbn [length replicate fmap list_fmap zip_with]. f_equal. exact IH.
Qed.

Lemma zip_blank_r (ts : list line) :
  zip_with pair_lines ((fun t => (t, true)) <$> ts)
    (replicate (length ts) ((Blank, newline), true))
  = (fun t => (t, (Blank, newline), true)) <$> ts.
Proof.
  induction ts as [|t ts IH]; [done|].
  cbn [length replicate fmap list_fmap zip_with]. f_equal. exact IH.
Qed.

Lemma one_sided_lines_length key ls : forall n, length (one_sided_lines key n ls) = length ls.
Proof. induction ls as [|l ls IH]; intros n; simpl; [done|]. rewrite IH. done. Qed.

(** The sides of the rows of [_line_iterator] on a delta of added lines,
    and of deleted lines. *)
Lemma sides_added (ts : list line) m :
  from_lines ((half true <$> ts) ++ replicate m (Some (Blank, newline), None, true))
    = replicate m ((Blank, newline), true) /\
  to_lines ((half true <$> ts) ++ replicate m (Some (Blank, newline), None, true))
    = (fun t => (t, true)) <$> ts.
Proof.
  unfold from_lines, to_lines. rewrite !omap_app. split.
  - replace (omap _ (half true <$> ts)) with (@nil (linenum * string * bool))
      by (induction ts as [|t ts IH]; [done | exact IH]).
    induction m as [|m IH]; [done|]. simpl. f_equal. exact IH.
  - replace (omap _ (replicate m _)) with (@nil (linenum * string * bool))
      by (induction m as [|m IH]; [done | exact IH]).
    rewrite app_nil_r. induction ts as [|t ts IH]; [done|]. simpl. f_equal. exact IH.
Qed.

Lemma sides_deleted (ts : list line) m :
  from_lines ((half false <$> ts) ++ replicate m (None, Some (Blank, newline), true))
    = (fun t => (t, true)) <$> ts /\
  to_lines ((half false <$> ts) ++ replicate m (None, Some (Blank, newline), true))
    = replicate m ((Blank, newline), true).
Proof.
  unfold from_lines, to_lines. rewrite !omap_app. split.
  - replace (omap _ (replicate m _)) with (@nil (linenum * string * bool))
      by (induction m as [|m IH]; [done | exact IH]).
    rewrite app_nil_r. induction ts as [|t ts IH]; [done|]. simpl. f_equal. exact IH.
  - replace (omap _ (half false <$> ts)) with (@nil (linenum * string * bool))
      by (induction ts as [|t ts IH]; [done | exact IH]).
    induction m as [|m IH]; [done|]. simpl. f_equal. exact IH.
Qed.

(** The rows after a change are the first rows that are left. *)
Lemma after_context_prefix context pairs : forall n,
  exists pre post,
    pairs = pre ++ post /\
    (after_context context pairs n = (row_of <$> pre, Some post) \/
     (post = [] /\ after_context context pairs n = (row_of <$> pre, None))).
Proof.
  induction pairs as [|r pairs IH]; intros n.
  - exists [], []. split; [done|]. destruct n; simpl; auto.
  - destruct n as [|n].
    + exists [], (r :: pairs). split; [done|]. left. reflexivity.
    + destruct (IH (if r.2 then context - 1 else n)) as (pre & post & -> & [H|[Hp H]]);
        exists (r :: pre), post; (split; [done|]); simpl; rewrite H; auto.
Qed.

(** With a change in every row, every row is written, whatever the
    number of lines of context. *)
Lemma context_loop_changed c fuel : forall pairs,
  Forall (fun r : linenum * string * (linenum * string) * bool => r.2 = true) pairs ->
  length pairs < fuel ->
  context_loop fuel (S c) pairs = Some (row_of <$> pairs).
Proof.
  induction fuel as [|fuel IH]; intros pairs Hall Hfuel; [lia|].
  destruct pairs as [|r pairs]; [reflexivity|].
  apply Forall_cons in Hall as [Hr Hall]. simpl in Hfuel.
  cbn [context_loop collect_context]. rewrite Hr.
  rewrite Nat.Div0.mod_0_l. cbn [replicate insert list_insert].
  rewrite decide_False by lia. cbn [write_context].
  rewrite Nat.Div0.mod_0_l. cbn [lookup list_lookup default].
  destruct (after_context_prefix (S c) pairs (S c - 1))
    as (pre & post & -> & [H|[-> H]]); rewrite H.
  - apply Forall_app in Hall as [_ Hpost]. rewrite length_app in Hfuel.
    rewrite IH by (done || lia). simpl. rewrite fmap_app. reflexivity.
  - rewrite app_nil_r. reflexivity.
Qed.

Lemma one_sided_changed_l (ts : list line) :
  Forall (fun r : linenum * string * (linenum * string) * bool => r.2 = true)
    ((fun t => ((Blank, newline), t, true)) <$> ts).
Proof. apply Forall_fmap, Forall_forall. done. Qed.

Lemma one_sided_changed_r (ts : list line) :
  Forall (fun r : linenum * string * (linenum * string) * bool => r.2 = true)
    ((fun t => (t, (Blank, newline), true)) <$> ts).
Proof. apply Forall_fmap, Forall_forall. done. Qed.

(** [_mdiff] against no line at all: every line of the other side is a row
    with a change, opposite a blank line, with or without context. *)
Lemma mdiff_nil_l fr il (b : list string) context :
  mdiff fr il [] b context
  = Some ((fun t => (Some (Blank, newline), Some t, Some true))
            <$> one_sided_lines "+" 0 b).
Proof.
  unfold mdiff. rewrite compare_nil_l. cbn [mbind option_bind].
  rewrite (line_iterator_one_sided il true _ [] 0 b 0 0 0)
    by (simpl; rewrite ?length_fmap; lia || done).
  cbn [mbind option_bind app side_key].
  rewrite (catch_up_one_sided true), <- (one_sided_lines_length "+" b 0).
  rewrite line_pair_iterator_zip by (simpl; lia).
  cbn [mbind option_bind app].
  destruct (sides_added (one_sided_lines "+" 0 b) (length (one_sided_lines "+" 0 b)))
    as [-> ->].
  rewrite zip_blank_l.
  destruct context as [c|].
  - rewrite Nat.add_1_r, context_loop_changed by (apply one_sided_changed_l || lia).
    rewrite <- list_fmap_compose. reflexivity.
  - rewrite <- list_fmap_compose. reflexivity.
Qed.

Lemma mdiff_nil_r fr il (a : list string) context :
  mdiff fr il a [] context
  = Some ((fun t => (Some t, Some (Blank, newline), Some true))
            <$> one_sided_lines "-" 0 a).
Proof.
  unfold mdiff. rewrite compare_nil_r. cbn [mbind option_bind].
  rewrite (line_iterator_one_sided il false _ [] 0 a 0 0 0)
    by (simpl; rewrite ?length_fmap; lia || done).
  cbn [mbind option_bind app side_key].
  rewrite (catch_up_one_sided false), <- (one_sided_lines_length "-" a 0).
  rewrite line_pair_iterator_zip by (simpl; lia).
  cbn [mbind option_bind app].
  destruct (sides_deleted (one_sided_lines "-" 0 a) (length (one_sided_lines "-" 0 a)))
    as [-> ->].
  rewrite zip_blank_r.
  destruct context as [c|].
  - rewrite Nat.add_1_r, context_loop_changed by (apply one_sided_changed_r || lia).
    rewrite <- list_fmap_compose. reflexivity.
  - rewrite <- list_fmap_compose. reflexivity.
Qed.

(** X16.  The difference against an empty text: with an empty first text
    every line of the second one is a row of the table, numbered from 1 and
    marked as added, opposite a blank line; with an empty second text every
    line of the first one is a row marked as deleted.  No line is left out
    as context. *)
Theorem diff_against_empty_text fancy_replace intraline split_line render_table
    default_prefix text :
  let lines := expand_tabs <$> splitlines text in
  make_html_diff fancy_replace intraline split_line render_table default_prefix
    EmptyString text
    = Some (render_table default_prefix
              (line_wrapper split_line
                 ((fun t => (Some (Blank, newline), Some t, Some true))
                    <$> one_sided_lines "+" 0 lines)),
            S default_prefix) /\
  make_html_diff fancy_replace intraline split_line render_table default_prefix
    text EmptyString
    = Some (render_table default_prefix
              (line_wrapper split_line
                 ((fun t => (Some t, Some (Blank, newline), Some true))
                    <$> one_sided_lines "-" 0 lines)),
            S default_prefix).
Proof.
  intros lines. unfold make_html_diff, table_rows.
  change (splitlines EmptyString) with (@nil string).
  change (expand_tabs <$> []) with (@nil string). fold lines.
  rewrite mdiff_nil_l, mdiff_nil_r. split; reflexivity.
Qed.

(** ** The opcodes cover both sequences *)

#[global] Instance block_le_trans : Transitive block_le.
Proof. intros x y z. unfold block_le. lia. Qed.

#[global] Instance block_le_total : Total block_le.
Proof. intros x y. unfold block_le. lia. Qed.

Lemma StronglySorted_symmetric {A} (R : relation A) (l1 l2 : list A) :
  (forall x y, R x y -> R y x) ->
  l1 ≡ₚ l2 -> StronglySorted R l1 -> StronglySorted R l2.
Proof.
  intros Hsym Hp. induction Hp as [|x l1 l2 Hp IH|x y l|l1 l2 l3 _ IH1 _ IH2]; intros Hs.
  - done.
  - apply StronglySorted_cons in Hs as [Hx Hs].
    apply StronglySorted_cons. split; [|auto]. rewrite <- Hp. done.
  - apply StronglySorted_cons in Hs as [Hy Hs].
    apply StronglySorted_cons in Hs as [Hx Hs].
    apply Forall_cons in Hy as [Hyx Hy].
    apply StronglySorted_cons. split; [constructor; auto|].
    apply StronglySorted_cons. done.
  - auto.
Qed.

Lemma apart_sym p q : apart p q -> apart q p.
Proof. unfold apart. tauto. Qed.

Lemma block_apart_sym x y : block_apart x y -> block_apart y x.
Proof. apply apart_sym. Qed.

(** Blocks that are apart from each other, in the order of the sort, are
    a chain. *)
Lemma sorted_apart_chain (blocks : list (nat * nat * nat)) :
  StronglySorted block_le blocks -> StronglySorted block_apart blocks ->
  Forall (fun x : nat * nat * nat => 1 <= x.2) blocks ->
  StronglySorted block_before blocks.
Proof.
  induction blocks as [|x blocks IH]; intros Hle Hap Hk; [constructor|].
  apply StronglySorted_cons in Hle as [Hle1 Hle].
  apply StronglySorted_cons in Hap as [Hap1 Hap].
  apply Forall_cons in Hk as [Hx Hk].
  apply StronglySorted_cons. split; [|auto].
  rewrite Forall_forall in *. intros y Hy.
  specialize (Hle1 y Hy). specialize (Hap1 y Hy). specialize (Hk y Hy).
  unfold block_le, block_apart, apart, box_of, block_before in *. simpl in *. lia.
Qed.

Section matching_order.
Variables a b : list string.
Variable b2j : gmap string (list nat).
Hypothesis Hb2j : b2j_sound b b2j.

(** The blocks that the loop of [get_matching_blocks] finds are apart
    from each other, and none is empty. *)
Lemma matching_loop_apart bjunk fuel : forall queue blocks blocks',
  queue_ok a b queue ->
  StronglySorted apart queue ->
  StronglySorted block_apart blocks ->
  (forall x q, x ∈ blocks -> q ∈ queue -> apart (box_of x) q) ->
  Forall (fun x : nat * nat * nat => 1 <= x.2) blocks ->
  matching_loop fuel a b b2j bjunk queue blocks = Some blocks' ->
  StronglySorted block_apart blocks' /\
  Forall (fun x : nat * nat * nat => 1 <= x.2) blocks'.
Proof.
  induction fuel as [|fuel IH]; intros queue blocks blocks' Hq Hqs Hbs Hbq Hk Hrun.
  - destruct queue as [|[[[alo ahi] blo] bhi] queue]; [|discriminate].
    simpl in Hrun. inversion Hrun; subst. done.
  - destruct queue as [|[[[alo ahi] blo] bhi] queue].
    { simpl in Hrun. inversion Hrun; subst. done. }
    apply Forall_cons in Hq as [(Ha & Hla & Hb & Hlb) Hq]. simpl in Ha, Hla, Hb, Hlb.
    apply StronglySorted_cons in Hqs as [Hq1 Hqs].
    cbn [matching_loop] in Hrun.
    destruct (find_longest_match_sound a b b2j Hb2j bjunk alo ahi blo bhi Ha Hla Hb Hlb)
      as [_ Hr].
    destruct (find_longest_match a b b2j bjunk alo ahi blo bhi) as [[i j] k].
    unfold in_ranges in Hr. simpl in Hr.
    assert (Hbq1 : forall x, x ∈ blocks -> apart (box_of x) (alo, ahi, blo, bhi)).
    { intros x Hx. apply Hbq; [done|]. apply elem_of_cons. auto. }
    assert (Hbq2 : forall x q, x ∈ blocks -> q ∈ queue -> apart (box_of x) q).
    { intros x q Hx Hq0. apply Hbq; [done|]. apply elem_of_cons. auto. }
    destruct (decide (k = 0)) as [->|Hk0]; [apply (IH queue blocks); done|].
    rewrite Forall_forall in Hq1.
    set (L := (alo, i, blo, j)) in *. set (R := (i + k, ahi, j + k, bhi)) in *.
    set (queue1 := if decide (alo < i /\ blo < j) then L :: queue else queue) in *.
    set (queue2 := if decide (i + k < ahi /\ j + k < bhi) then R :: queue1 else queue1) in *.
    assert (Hin1 : forall q, q ∈ queue1 -> q = L \/ q ∈ queue).
    { intros q. unfold queue1. case_decide; [rewrite elem_of_cons|]; auto. }
    assert (Hin2 : forall q, q ∈ queue2 -> q = R \/ q = L \/ q ∈ queue).
    { intros q. unfold queue2. case_decide; [rewrite elem_of_cons|];
        intros Hq0; [destruct Hq0 as [Hq0|Hq0]|]; auto. }
    assert (HL : forall q, q ∈ queue -> apart L q).
    { intros q Hq0. specialize (Hq1 q Hq0). unfold apart, L in *. simpl in *. lia. }
    assert (HR : forall q, q ∈ queue -> apart R q).
    { intros q Hq0. specialize (Hq1 q Hq0). unfold apart, R in *. simpl in *. lia. }
    assert (Hqs1 : StronglySorted apart queue1).
    { unfold queue1. case_decide; [|done].
      apply StronglySorted_cons. split; [|done]. apply Forall_forall. done. }
    apply (IH queue2 (blocks ++ [(i, j, k)])); try done.
    + unfold queue2, queue1, L, R.
      repeat case_decide; repeat (apply Forall_cons; split); simpl; try done; lia.
    + unfold queue2. case_decide; [|done].
      apply StronglySorted_cons. split; [|done]. apply Forall_forall.
      intros q Hq0. destruct (Hin1 q Hq0) as [->|Hq0']; [|auto].
      unfold apart, L, R. simpl. lia.
    + apply StronglySorted_app_2; [|done|repeat constructor].
      intros x y Hx Hy. apply list_elem_of_singleton in Hy as ->.
      specialize (Hbq1 x Hx). unfold block_apart, apart, box_of in *. simpl in *. lia.
    + intros x q Hx Hq0. apply elem_of_app in Hx as [Hx|Hx].
      * specialize (Hbq1 x Hx).
        destruct (Hin2 q Hq0) as [->|[->|Hq0']]; [| |auto];
          unfold apart, box_of, L, R in *; simpl in *; lia.
      * apply list_elem_of_singleton in Hx as ->.
        destruct (Hin2 q Hq0) as [->|[->|Hq0']];
          [unfold apart, box_of, R; simpl; lia
          |unfold apart, box_of, L; simpl; lia|].
        specialize (Hq1 q Hq0'). unfold apart, box_of in *. simpl in *. lia.
    + apply Forall_app. split; [done|]. constructor; [simpl; lia|constructor].
Qed.
End matching_order.

Lemma block_before_start (x : nat * nat * nat) i j k k' :
  block_before x (i, j, k) -> block_before x (i, j, k').
Proof. unfold block_before. simpl. done. Qed.

(** Joining adjacent blocks keeps the chain. *)
Lemma collapse_chain blocks : forall i1 j1 k1 non_adjacent,
  StronglySorted block_before (non_adjacent ++ (i1, j1, k1) :: blocks) ->
  StronglySorted block_before (collapse blocks i1 j1 k1 non_adjacent).
Proof.
  induction blocks as [|[[i2 j2] k2] blocks IH]; intros i1 j1 k1 non_adjacent Hs.
  - simpl. destruct (decide (k1 = 0)); [|done].
    apply StronglySorted_app_1_l in Hs. done.
  - apply StronglySorted_app in Hs as (Hcross & Hn & Hs).
    apply StronglySorted_cons in Hs as [H1 Hs].
    apply StronglySorted_cons in Hs as [H2 Hs].
    apply Forall_cons in H1 as [H12 H1].
    simpl. destruct (decide _) as [[<- <-]|_].
    + apply IH. apply StronglySorted_app_2; [|done|].
      * intros x y Hx Hy. apply elem_of_cons in Hy as [->|Hy].
        -- apply (block_before_start x i1 j1 k1). apply Hcross; [done|].
           apply elem_of_cons. auto.
        -- apply Hcross; [done|]. rewrite !elem_of_cons. auto.
      * apply StronglySorted_cons. split; [|done].
        rewrite Forall_forall in *. intros y Hy. specialize (H2 y Hy).
        unfold block_before in *. simpl in *. lia.
    + apply IH. destruct (decide (k1 = 0)).
      * apply StronglySorted_app_2; [|done|].
        -- intros x y Hx Hy. apply Hcross; [done|]. apply elem_of_cons. auto.
        -- apply StronglySorted_cons. done.
      * rewrite <- app_assoc. apply StronglySorted_app_2; [done|done|].
        apply StronglySorted_cons. split; [constructor; done|].
        apply StronglySorted_cons. done.
Qed.

Lemma tiles_snoc ops : forall i0 j0 i j t i' j',
  tiles ops i0 j0 i j ->
  match t with
  | Treplace => i < i' /\ j < j'
  | Tdelete => i < i' /\ j = j'
  | Tinsert => i = i' /\ j < j'
  | Tequal => i < i' /\ i' - i = j' - j
  end ->
  tiles (ops ++ [(t, i, i', j, j')]) i0 j0 i' j'.
Proof.
  induction ops as [|[[[[t1 a1] a2] b1] b2] ops IH]; intros i0 j0 i j t i' j' Hops Ht.
  - destruct Hops as [-> ->]. simpl. done.
  - destruct Hops as (-> & -> & Ht1 & Hops). simpl.
    split; [done|]. split; [done|]. split; [done|]. apply (IH _ _ i j); done.
Qed.

(** The opcodes of a chain of blocks lead from the start to the end of the
    last block. *)
Lemma opcodes_from_tiles blocks : forall i j answer i0 j0,
  StronglySorted block_before blocks ->
  Forall (fun x : nat * nat * nat => i <= x.1.1 /\ j <= x.1.2) blocks ->
  tiles answer i0 j0 i j ->
  tiles (opcodes_from blocks i j answer) i0 j0 (ends blocks i j).1 (ends blocks i j).2.
Proof.
  induction blocks as [|[[ai bj] size] blocks IH]; intros i j answer i0 j0 Hs Hge Hans;
    [done|].
  apply StronglySorted_cons in Hs as [Hnext Hs].
  apply Forall_cons in Hge as [[Hi Hj] _]. simpl in Hi, Hj.
  cbn [opcodes_from ends fst snd]. apply IH; [done|exact Hnext|].
  assert (Hgap : tiles
            (if decide (i < ai /\ j < bj) then answer ++ [(Treplace, i, ai, j, bj)]
             else if decide (i < ai) then answer ++ [(Tdelete, i, ai, j, bj)]
             else if decide (j < bj) then answer ++ [(Tinsert, i, ai, j, bj)]
             else answer) i0 j0 ai bj).
  { repeat case_decide.
    - apply (tiles_snoc _ _ _ i j); [done|lia].
    - apply (tiles_snoc _ _ _ i j); [done|lia].
    - apply (tiles_snoc _ _ _ i j); [done|lia].
    - replace ai with i by lia. replace bj with j by lia. done. }
  destruct (decide (size = 0)) as [->|Hsize].
  - rewrite !Nat.add_0_r. done.
  - apply (tiles_snoc _ _ _ ai bj); [done|lia].
Qed.

Lemma ends_app blocks x : forall i j,
  ends (blocks ++ [x]) i j = (x.1.1 + x.2, x.1.2 + x.2).
Proof. induction blocks as [|y blocks IH]; intros i j; simpl; [done|]. apply IH. Qed.

(** X17.  The opcodes of [SequenceMatcher.get_opcodes] cover both
    sequences of lines: the first one starts at the start of both, each one
    starts where the one before it ends, the last one ends at the end of
    both, and none is empty: a replacement has lines on both sides, a
    deletion on the first side only, an insertion on the second side only,
    and an equal range as many on both. *)
Theorem opcodes_cover_both_texts (a b : list string) :
  exists ops,
    get_opcodes a b = Some ops /\ tiles ops 0 0 (length a) (length b).
Proof.
  destruct (matching_loop_sound a b (chain_b b) (chain_b_sound b) ∅
              (2 * length a + 1) [(0, length a, 0, length b)] [])
    as (blocks & Hloop & Hblocks).
  { repeat constructor; simpl; lia. }
  { simpl. lia. }
  { constructor. }
  destruct (matching_loop_apart a b (chain_b b) (chain_b_sound b) ∅
              (2 * length a + 1) [(0, length a, 0, length b)] [] blocks)
    as [Hap Hk]; try done.
  { repeat constructor; simpl; lia. }
  { repeat constructor. }
  { constructor. }
  { intros x q Hx. inversion Hx. }
  unfold get_opcodes, get_matching_blocks. rewrite Hloop. simpl.
  eexists. split; [reflexivity|].
  set (sorted := merge_sort block_le blocks).
  assert (Hperm : sorted ≡ₚ blocks) by apply merge_sort_Permutation.
  assert (Hchain : StronglySorted block_before sorted).
  { apply sorted_apart_chain.
    - apply StronglySorted_merge_sort; apply _.
    - apply (StronglySorted_symmetric block_apart blocks);
        [apply block_apart_sym | symmetry; done | done].
    - rewrite Hperm. done. }
  assert (Hvalid : Forall (valid_match a b) (collapse sorted 0 0 0 [])).
  { apply collapse_sound; [rewrite Hperm; done | | constructor].
    unfold valid_match. simpl. repeat split; try lia. }
  assert (Hfinal : StronglySorted block_before
                     (collapse sorted 0 0 0 [] ++ [(length a, length b, 0)])).
  { apply StronglySorted_app_2; [| |repeat constructor].
    - intros x y Hx Hy. apply list_elem_of_singleton in Hy as ->.
      rewrite Forall_forall in Hvalid. destruct (Hvalid x Hx) as (H1 & H2 & _).
      unfold block_before. simpl. lia.
    - apply collapse_chain. simpl. apply StronglySorted_cons. split; [|done].
      apply Forall_forall. intros y _. unfold block_before. simpl. lia. }
  pose proof (opcodes_from_tiles _ 0 0 [] 0 0 Hfinal) as Htiles.
  rewrite ends_app in Htiles. simpl in Htiles. rewrite !Nat.add_0_r in Htiles.
  apply Htiles; [|done]. apply Forall_forall. intros x _. lia.
Qed.
